(** * The Highcharts map module ([ts/Maps/Map.ts])

    A shallow embedding of the map module: the SVG path tokenizer
    [splitPath], the zoom-button symbols built on [selectiveRoundedRect],
    the map registry [H.maps] and the chart factory [mapChart].

    JavaScript numbers are IEEE 754 binary64 values: they are Rocq's
    primitive floats.  Strings are sequences of code units; the embedding
    covers the code units below 256, which is what [ascii] holds.
    Objects live in a store and are handled through references, so that
    the writes [mapChart] performs on the caller's options are visible. *)

From Stdlib Require Import Floats Ascii String DecimalString.
From stdpp Require Import gmap strings list fin_maps.

Open Scope string_scope.
Open Scope list_scope.

(** ** Numbers *)

Module Num.

Local Open Scope float_scope.

(** Truthiness of a number: everything but [0], [-0] and [NaN]. *)
Definition truthy (n : float) : bool := negb (n =? 0) && negb (is_nan n).

(** [a] and [b] are the same coordinate: the same float, or the two
    zeros (JavaScript's SameValueZero). *)
Definition same (a b : float) : Prop := a = b \/ (a =? b) = true.

Definition is_zero (z : float) : Prop := (z =? 0) = true.

End Num.

(** ** SVG paths

    [SVGPath] is an array of segments; a segment is an array that mixes
    command letters and numbers, e.g. [['M', 1, 2], ['Z']]. *)

Inductive token :=
  | TStr (s : string)
  | TNum (n : float).

Definition segment := list token.
Definition SVGPath := list segment.

Module Path.

Definition point : Type := float * float.

(** The command letter a segment starts with. *)
Definition command (seg : segment) : option string :=
  match seg with
  | TStr c :: _ => Some c
  | _ => None
  end.

Fixpoint numbers (l : list token) : list float :=
  match l with
  | [] => []
  | TNum n :: l' => n :: numbers l'
  | TStr _ :: l' => numbers l'
  end.

Fixpoint pairs (l : list float) : list point :=
  match l with
  | a :: b :: l' => (a, b) :: pairs l'
  | _ => []
  end.

(** The coordinate pairs of a segment, in order: one for [M] and [L],
    two control points and the end point for [C], none for [Z]. *)
Definition points (seg : segment) : list point := pairs (numbers seg).

(** Where the segment leaves the pen. *)
Definition endpoint (seg : segment) : option point := last (points seg).

Definition has_command (c : string) (seg : segment) : bool :=
  match command seg with
  | Some c' => String.eqb c c'
  | None => false
  end.

(** End points of the segments with command [c], in path order. *)
Definition endpoints_of (c : string) (p : SVGPath) : list (option point) :=
  map endpoint (filter (fun seg => has_command c seg = true) p).

(** The point the path starts from: the operand pair of its first
    segment, when that segment is a move. *)
Definition start (p : SVGPath) : option point :=
  match p with
  | seg :: _ => if has_command "M" seg then endpoint seg else None
  | [] => None
  end.

Definition is_number (t : token) : bool :=
  match t with
  | TNum _ => true
  | TStr _ => false
  end.

(** The operands of a segment are numbers: a command letter stands at
    most at its head. *)
Definition operands_only (seg : segment) : Prop :=
  Forall (fun t => is_number t = true) (tail seg).

(** The segment starts with a command letter. *)
Definition has_letter (seg : segment) : Prop := command seg <> None.

Definition same_point (a b : point) : Prop :=
  Num.same a.1 b.1 /\ Num.same a.2 b.2.

End Path.

(** ** Symbols for the zoom buttons *)

Section Symbols.

Local Open Scope float_scope.

Definition selectiveRoundedRect
    (x y w h rTopLeft rTopRight rBottomRight rBottomLeft : float) : SVGPath :=
  [ [TStr "M"; TNum (x + rTopLeft); TNum y];
    (* top side *)
    [TStr "L"; TNum (x + w - rTopRight); TNum y];
    (* top right corner *)
    [TStr "C"; TNum (x + w - rTopRight / 2); TNum y;
               TNum (x + w); TNum (y + rTopRight / 2);
               TNum (x + w); TNum (y + rTopRight)];
    (* right side *)
    [TStr "L"; TNum (x + w); TNum (y + h - rBottomRight)];
    (* bottom right corner *)
    [TStr "C"; TNum (x + w); TNum (y + h - rBottomRight / 2);
               TNum (x + w - rBottomRight / 2); TNum (y + h);
               TNum (x + w - rBottomRight); TNum (y + h)];
    (* bottom side *)
    [TStr "L"; TNum (x + rBottomLeft); TNum (y + h)];
    (* bottom left corner *)
    [TStr "C"; TNum (x + rBottomLeft / 2); TNum (y + h);
               TNum x; TNum (y + h - rBottomLeft / 2);
               TNum x; TNum (y + h - rBottomLeft)];
    (* left side *)
    [TStr "L"; TNum x; TNum (y + rTopLeft)];
    (* top left corner *)
    [TStr "C"; TNum x; TNum (y + rTopLeft / 2);
               TNum (x + rTopLeft / 2); TNum y;
               TNum (x + rTopLeft); TNum y];
    [TStr "Z"] ].

(** [Highcharts.SymbolOptionsObject], as far as the buttons read it. *)
Record SymbolOptionsObject := { r : option float }.

(** [options && options.r] for an optional options object. *)
Definition options_r (options : option SymbolOptionsObject) : option float :=
  match options with
  | Some o => r o
  | None => None
  end.

(** [v || d] for [v] a number or [undefined]. *)
Definition or_else (v : option float) (d : float) : float :=
  match v with
  | Some n => if Num.truthy n then n else d
  | None => d
  end.

Definition topbutton (x y w h : float) (options : option SymbolOptionsObject)
    : SVGPath :=
  let r := or_else (options_r options) 0 in
  selectiveRoundedRect (x - 1) (y - 1) w h r r 0 0.

Definition bottombutton (x y w h : float) (options : option SymbolOptionsObject)
    : SVGPath :=
  let r := or_else (options_r options) 0 in
  selectiveRoundedRect (x - 1) (y - 1) w h 0 0 r r.

End Symbols.

(** ** The regular expressions of [splitPath]

    Each pattern is embedded as the function it denotes on strings. *)

Module Re.

(** [[A-Za-z]] *)
Definition is_letter (c : ascii) : bool :=
  let n := nat_of_ascii c in
  (Nat.leb 65 n && Nat.leb n 90) || (Nat.leb 97 n && Nat.leb n 122).

(** [[A-za-z]], as written in the classification test: the first range
    runs from [A] (65) to [z] (122). *)
Definition in_A_z (c : ascii) : bool :=
  let n := nat_of_ascii c in
  (Nat.leb 65 n && Nat.leb n 122) || (Nat.leb 97 n && Nat.leb n 122).

(** [\s], on code units below 256: tab, line feed, vertical tab, form
    feed, carriage return, space and no-break space. *)
Definition is_space (c : ascii) : bool :=
  let n := nat_of_ascii c in
  (Nat.leb 9 n && Nat.leb n 13) || Nat.eqb n 32 || Nat.eqb n 160.

(** [[ ,;]] *)
Definition is_delim (c : ascii) : bool :=
  let n := nat_of_ascii c in
  Nat.eqb n 32 || Nat.eqb n 44 || Nat.eqb n 59.

(** [re.test(s)] for a one-character class [re]. *)
Fixpoint test (class : ascii -> bool) (s : string) : bool :=
  match s with
  | EmptyString => false
  | String c s' => class c || test class s'
  end.

(** [s.replace(/([A-Za-z])/g, ' $1 ')] *)
Fixpoint move_letters_apart (s : string) : string :=
  match s with
  | EmptyString => EmptyString
  | String c s' =>
      if is_letter c
      then String " " (String c (String " " (move_letters_apart s')))
      else String c (move_letters_apart s')
  end.

(** [s.replace(/^\s*/, '')] *)
Fixpoint trim_start (s : string) : string :=
  match s with
  | EmptyString => EmptyString
  | String c s' => if is_space c then trim_start s' else s
  end.

(** [s.replace(/\s*$/, '')] *)
Fixpoint trim_end (s : string) : string :=
  match s with
  | EmptyString => EmptyString
  | String c s' =>
      match trim_end s' with
      | EmptyString => if is_space c then EmptyString else String c EmptyString
      | t => String c t
      end
  end.

Definition starts_with (class : ascii -> bool) (s : string) : bool :=
  match s with
  | EmptyString => false
  | String c _ => class c
  end.

(** [s.split(/[...]+/)] for a character class: the pieces between maximal
    runs of delimiters; a run at either end leaves an empty piece there,
    and the empty string gives one empty piece. *)
Fixpoint split_on (delim : ascii -> bool) (s : string) : list string :=
  match s with
  | EmptyString => [EmptyString]
  | String c s' =>
      if delim c then
        if starts_with delim s' then split_on delim s'
        else EmptyString :: split_on delim s'
      else
        match split_on delim s' with
        | t :: ts => String c t :: ts
        | [] => [String c EmptyString]
        end
  end.

(** [s.split(/[ ,;]+/)] *)
Definition split : string -> list string := split_on is_delim.

(** The space character. *)
Definition is_sp (c : ascii) : bool := Nat.eqb (nat_of_ascii c) 32.

(** Every letter of [s] stands alone: a space comes before it (or, when
    [at_start] holds, nothing at all), and a space or nothing after it. *)
Fixpoint isolated (at_start : bool) (s : string) : bool :=
  match s with
  | EmptyString => true
  | String c s' =>
      if is_letter c
      then at_start
           && match s' with EmptyString => true | String d _ => is_sp d end
           && isolated false s'
      else isolated (is_sp c) s'
  end.

(** [s] without the characters of a class. *)
Fixpoint remove (class : ascii -> bool) (s : string) : string :=
  match s with
  | EmptyString => EmptyString
  | String c s' => if class c then remove class s' else String c (remove class s')
  end.

End Re.

(** ** [Highcharts.splitPath] *)

(** The argument of [splitPath]: [string | Array<string|number>]. *)
Inductive path_arg :=
  | PathString (s : string)
  | PathArray (arr : list token).

(** Modelled from the spec: [SVGRenderer.prototype.pathToSegments], the
    downstream segmenter, which is not part of Map.ts.  It groups the flat
    token sequence into per-command segments: every command letter opens a
    new segment, and the numbers that follow it are its operands. *)
Fixpoint pathToSegments_from (segment : segment) (path : list token) : SVGPath :=
  match path with
  | [] => [segment]
  | TStr c :: path' =>
      match segment with
      | [] => pathToSegments_from [TStr c] path'
      | _ => segment :: pathToSegments_from [TStr c] path'
      end
  | TNum n :: path' => pathToSegments_from (segment ++ [TNum n]) path'
  end.

Definition pathToSegments (path : list token) : SVGPath :=
  pathToSegments_from [] path.

Section SplitPath.

(** The built-in [parseFloat]. *)
Variable parseFloat : string -> float.

(** The callback of [split.map]. *)
Definition classify (item : string) : token :=
  if negb (Re.test Re.in_A_z item) then TNum (parseFloat item) else TStr item.

(** The flat array [arr] that [splitPath] hands to the segmenter. *)
Definition splitPath_arr (path : path_arg) : list token :=
  match path with
  | PathString path =>
      let path :=
        Re.trim_end (Re.trim_start
          (* Move letters apart *)
          (Re.move_letters_apart path)) in
      (* Split on spaces and commas *)
      let split := Re.split path in
      map classify split
  | PathArray arr => arr
  end.

Definition splitPath (path : path_arg) : SVGPath :=
  pathToSegments (splitPath_arr path).

End SplitPath.

(** ** Values and the object store

    A JavaScript value is a primitive or a reference to an object of the
    store.  An object is a finite map from property names to values; it is
    [Plain] when it is a configuration object (an object literal) and
    [Exotic] when it is an array, a function, a DOM element or a class
    instance.  A reference is an index into the store, and allocation
    appends. *)

Abbreviation loc := nat.

Inductive value :=
  | VUndefined
  | VNull
  | VBool (b : bool)
  | VNumber (n : float)
  | VString (s : string)
  | VRef (l : loc).

Inductive kind := Plain | Exotic.

Record object := Obj { kind_of : kind; props : gmap string value }.

Abbreviation heap := (list object).

(** The outcome of running code: a result, a thrown [TypeError] with the
    store as the throw leaves it (what was written before stays written),
    or a recursion that did not come back within the fuel it was given. *)
Inductive result (A : Type) :=
  | Ok (a : A)
  | TypeError (thrown_in : heap)
  | OutOfFuel.
Arguments Ok {A} a.
Arguments TypeError {A} thrown_in.
Arguments OutOfFuel {A}.

Definition M (A : Type) : Type := heap -> result (A * heap).

#[global] Instance M_ret : MRet M := fun A a h => Ok (a, h).

#[global] Instance M_bind : MBind M := fun A B f m h =>
  match m h with
  | Ok (a, h') => f a h'
  | TypeError h' => TypeError h'
  | OutOfFuel => OutOfFuel
  end.

Module Js.

Definition typeof_string (v : value) : bool :=
  match v with
  | VString _ => true
  | _ => false
  end.

Definition truthy (v : value) : bool :=
  match v with
  | VUndefined | VNull => false
  | VBool b => b
  | VNumber n => Num.truthy n
  | VString s => negb (String.eqb s "")
  | VRef _ => true
  end.

(** The own properties of the object [v] refers to; a primitive has none. *)
Definition own_props (h : heap) (v : value) : gmap string value :=
  match v with
  | VRef l => match h !! l with
              | Some o => props o
              | None => ∅
              end
  | _ => ∅
  end.

(** The properties of [v] when it is a plain configuration object. *)
Definition plain_props (h : heap) (v : value) : option (gmap string value) :=
  match v with
  | VRef l => match h !! l with
              | Some (Obj Plain m) => Some m
              | _ => None
              end
  | _ => None
  end.

(** What reading [v.k] gives. *)
Definition prop (h : heap) (v : value) (k : string) : value :=
  default VUndefined (own_props h v !! k).

(** What reading [v.k1.k2...] gives. *)
Fixpoint get_path (h : heap) (v : value) (p : list string) : value :=
  match p with
  | [] => v
  | k :: p' => get_path h (prop h v k) p'
  end.

(** [v.k] *)
Definition get_prop (v : value) (k : string) : M value := fun h =>
  match v with
  | VUndefined | VNull => TypeError h
  | _ => Ok (prop h v k, h)
  end.

(** [v.k = x] in strict mode *)
Definition set_prop (v : value) (k : string) (x : value) : M unit := fun h =>
  match v with
  | VRef l =>
      match h !! l with
      | Some o => Ok (tt, <[l := Obj (kind_of o) (<[k := x]> (props o))]> h)
      | None => TypeError h
      end
  | _ => TypeError h
  end.

Definition alloc (o : object) : M value := fun h =>
  Ok (VRef (length h), h ++ [o]).

(** An object literal [{k1: v1, ...}]. *)
Definition literal (l : list (string * value)) : M value :=
  alloc (Obj Plain (list_to_map l)).

End Js.

(** ** Configuration trees in the store

    The options handed to a chart are a tree: a plain object whose
    properties are settings or again plain objects. *)

Module Store.

(** References stay below [bound]. *)
Definition closed_value (bound : nat) (v : value) : bool :=
  match v with
  | VRef l => Nat.ltb l bound
  | _ => true
  end.

Definition all_values (P : value -> bool) (m : gmap string value) : bool :=
  forallb (fun kv => P kv.2) (map_to_list m).

Definition closed_props (bound : nat) (m : gmap string value) : bool :=
  all_values (closed_value bound) m.

(** No object of the store holds a dangling reference. *)
Definition closed (h : heap) : bool :=
  forallb (fun o => closed_props (length h) (props o)) h.

(** Below the properties [m], plain objects are nested at most [d] deep. *)
Fixpoint shallow (h : heap) (d : nat) (m : gmap string value) : bool :=
  all_values
    (fun v =>
       match Js.plain_props h v with
       | None => true
       | Some m' =>
           match d with
           | 0 => false
           | S d' => shallow h d' m'
           end
       end) m.

(** The setting at path [p] of the tree with the top-level properties [m]:
    what following [p] through nested plain objects arrives at, when that
    is not a plain object itself. *)
Fixpoint setting (h : heap) (m : gmap string value) (p : list string)
    : option value :=
  match p with
  | [] => None
  | k :: p' =>
      match m !! k with
      | None => None
      | Some v =>
          match Js.plain_props h v, p' with
          | None, [] => Some v
          | Some m', _ :: _ => setting h m' p'
          | _, _ => None
          end
      end
  end.

(** The tree says nothing at or below [p], nor above it: following [p]
    through nested plain objects runs into a missing property. *)
Fixpoint untouched (h : heap) (m : gmap string value) (p : list string) : bool :=
  match p with
  | [] => false
  | k :: p' =>
      match m !! k with
      | None => true
      | Some v =>
          match Js.plain_props h v, p' with
          | Some m', _ :: _ => untouched h m' p'
          | _, _ => false
          end
      end
  end.

(** The plain objects of the tree below [m]. *)
Inductive reach (h : heap) : gmap string value -> loc -> Prop :=
  | reach_here m k l m' :
      m !! k = Some (VRef l) -> Js.plain_props h (VRef l) = Some m' ->
      reach h m l
  | reach_below m k l m' l' :
      m !! k = Some (VRef l) -> Js.plain_props h (VRef l) = Some m' ->
      reach h m' l' -> reach h m l'.

(** Every object of [h] is still there in [h'], with its kind. *)
Definition kinds_kept (h h' : heap) : Prop :=
  forall l o, h !! l = Some o ->
    exists o', h' !! l = Some o' /\ kind_of o' = kind_of o.

(** The plain objects that [m] refers to lie at [n] or above. *)
Definition fresh (n : nat) (h : heap) (m : gmap string value) : Prop :=
  forall k l m', m !! k = Some (VRef l) ->
    Js.plain_props h (VRef l) = Some m' -> n <= l.

(** The objects at [n] or above refer to plain objects at [n] or above
    only. *)
Definition fresh_region (n : nat) (h : heap) : Prop :=
  forall l o, n <= l -> h !! l = Some o -> fresh n h (props o).

(** [h'] has the plain objects of the tree below [m] as [h] has them. *)
Definition keeps (h h' : heap) (m : gmap string value) : Prop :=
  forall l, reach h m l -> h' !! l = h !! l.

End Store.

(** ** [Utilities.merge] and [Utilities.pick] *)

(** Modelled from the spec: [Utilities.pick], which is not part of Map.ts:
    the first argument unless it is [undefined] or [null]. *)
Definition pick (a b : value) : value :=
  match a with
  | VUndefined | VNull => b
  | _ => a
  end.

Section DoCopy.

(** The recursive call, on a nested configuration object. *)
Variable doCopy : gmap string value -> gmap string value -> M (gmap string value).

(** One property [key: value] of the original.  The contents of a
    configuration object are merged into what the copy has under [key];
    anything else is copied over directly. *)
Definition copy_entry (copy : gmap string value) (entry : string * value)
    : M (gmap string value) := fun h =>
  match Js.plain_props h entry.2 with
  | Some original =>
      let target := default ∅ (copy !! entry.1 ≫= Js.plain_props h) in
      (merged ← doCopy target original;
       nested ← Js.alloc (Obj Plain merged);
       mret (<[entry.1 := nested]> copy)) h
  | None => Ok (<[entry.1 := entry.2]> copy, h)
  end.

Fixpoint copy_entries (copy : gmap string value) (entries : list (string * value))
    : M (gmap string value) :=
  match entries with
  | [] => mret copy
  | entry :: entries' =>
      copy' ← copy_entry copy entry;
      copy_entries copy' entries'
  end.

End DoCopy.

(** Modelled from the spec: the deep merge of nested configuration
    objects, which is not part of Map.ts.  [doCopy copy original] is [copy]
    overlaid with [original], nested configuration objects being merged
    property by property; the originals are only read.  The recursion
    follows references of the store: [fuel] bounds its depth. *)
Fixpoint doCopy (fuel : nat) (copy original : gmap string value)
    : M (gmap string value) :=
  match fuel with
  | 0 => fun _ => OutOfFuel
  | S fuel' => copy_entries (doCopy fuel') copy (map_to_list original)
  end.

Fixpoint merge_args (fuel : nat) (ret : gmap string value) (args : list value)
    : M (gmap string value) :=
  match args with
  | [] => mret ret
  | arg :: args' =>
      ret' ← (fun h => doCopy fuel ret (Js.own_props h arg) h);
      merge_args fuel ret' args'
  end.

(** Modelled from the spec: [Utilities.merge], the options-merge engine:
    a new object that holds the deep merge of the arguments, later
    arguments taking precedence. *)
Definition merge (fuel : nat) (args : list value) : M value :=
  ret ← merge_args fuel ∅ args;
  Js.alloc (Obj Plain ret).

(** ** [Highcharts.mapChart] *)

(** Modelled from the spec: the generic chart constructor [Chart], which is
    not part of Map.ts.  A chart is what it was constructed from: the
    element to render to (when given), its options, and the callback. *)
Record Chart := new_Chart {
  renderTo : option value;
  options : value;
  callback : value
}.

Definition dquote : string := String (ascii_of_nat 34) EmptyString.

(** [' © <a href="{geojson.copyrightUrl}">{geojson.copyrightShort}</a>'] *)
Definition mapText_default : string :=
  String " " (String (ascii_of_nat 169) " <a href=") +:+ dquote +:+
  "{geojson.copyrightUrl}" +:+ dquote +:+ ">" +:+ "{geojson.copyrightShort}</a>".

Section MapChart.

(** The depth up to which [merge] follows nested objects. *)
Variable fuel : nat.

(** The library defaults that [getOptions()] returns. *)
Variable defaultOptions : value.

Definition mapChart (a b c : value) : M Chart :=
  nodeName ← (if Js.typeof_string a then mret VUndefined
              else Js.get_prop a "nodeName");
  let hasRenderToArg := Js.typeof_string a || Js.truthy nodeName in
  let options := if hasRenderToArg then b else a in
  let userOptions := options in
  hiddenAxis ← Js.literal [
    ("endOnTick", VBool false);
    ("visible", VBool false);
    ("minPadding", VNumber 0);
    ("maxPadding", VNumber 0);
    ("startOnTick", VBool false)];
  defaultCreditsOptions ← Js.get_prop defaultOptions "credits";
  (* Don't merge the data *)
  seriesOptions ← Js.get_prop options "series";
  Js.set_prop options "series" VNull;;
  panning ← Js.literal [("enabled", VBool true); ("type", VString "xy")];
  chart ← Js.literal [("panning", panning); ("type", VString "map")];
  mapText ← Js.get_prop defaultCreditsOptions "mapText";
  mapTextFull ← Js.get_prop defaultCreditsOptions "mapTextFull";
  credits ← Js.literal [
    ("mapText", pick mapText (VString mapText_default));
    ("mapTextFull", pick mapTextFull (VString "{geojson.copyright}"))];
  tooltip ← Js.literal [("followTouchMove", VBool false)];
  reversed ← Js.literal [("reversed", VBool true)];
  yAxis ← merge fuel [hiddenAxis; reversed];
  defaults ← Js.literal [
    ("chart", chart);
    ("credits", credits);
    ("tooltip", tooltip);
    ("xAxis", hiddenAxis);
    ("yAxis", yAxis)];
  (* forced options *)
  forcedChart ← Js.literal [("inverted", VBool false); ("alignTicks", VBool false)];
  forced ← Js.literal [("chart", forcedChart)];
  options ← merge fuel [defaults; options (* user's options *); forced];
  Js.set_prop userOptions "series" seriesOptions;;
  Js.set_prop options "series" seriesOptions;;
  mret (if hasRenderToArg
        then new_Chart (Some a) options c
        else new_Chart None options b).

End MapChart.

(** ** The map registry and the module's operations *)

(** [H.maps = {}], run when the module is loaded; [H] is the Highcharts
    namespace object. *)
Definition init_maps (H : value) : M unit :=
  maps ← Js.literal [];
  Js.set_prop H "maps" maps.

Inductive operation :=
  | CallSplitPath (path : path_arg)
  | CallTopbutton (x y w h : float) (options : option SymbolOptionsObject)
  | CallBottombutton (x y w h : float) (options : option SymbolOptionsObject)
  | CallMapChart (a b c : value).

Inductive returned :=
  | RPath (p : SVGPath)
  | RChart (c : Chart).

Section Module.

Variable parseFloat : string -> float.
Variable fuel : nat.
Variable defaultOptions : value.

(** A call of one of the functions the module exports or registers,
    against the store. *)
Definition call (op : operation) : M returned :=
  match op with
  | CallSplitPath path => mret (RPath (splitPath parseFloat path))
  | CallTopbutton x y w h options => mret (RPath (topbutton x y w h options))
  | CallBottombutton x y w h options => mret (RPath (bottombutton x y w h options))
  | CallMapChart a b c =>
      chart ← mapChart fuel defaultOptions a b c;
      mret (RChart chart)
  end.

End Module.

(** ** Stand-ins for the number conversions, for worked examples

    [parseFloat] and the conversion of numbers to strings are built into
    the language and stay parameters of the development.  On strings of
    decimal digits, and on the small natural numbers, they are the
    following functions. *)

Module Sample.

Local Open Scope float_scope.

Definition of_nat (k : nat) : float := PrimFloat.of_uint63 (Uint63.of_Z (Z.of_nat k)).

Fixpoint digits_value (acc : float) (s : string) : float :=
  match s with
  | EmptyString => acc
  | String c s' =>
      let n := nat_of_ascii c in
      if Nat.leb 48 n && Nat.leb n 57
      then digits_value (acc * 10 + of_nat (n - 48)) s'
      else nan
  end.

(** [parseFloat] on a string of decimal digits; [NaN] on anything else. *)
Definition parseFloat (s : string) : float :=
  match s with
  | EmptyString => nan
  | _ => digits_value 0 s
  end.

Fixpoint find_nat (n : float) (k : nat) : option nat :=
  match k with
  | 0 => if n =? of_nat 0 then Some 0%nat else None
  | S k' => if n =? of_nat k then Some k else find_nat n k'
  end.

(** The decimal numeral of a natural number up to 1000; ["NaN"] for any
    other number. *)
Definition numToString (n : float) : string :=
  match find_nat n 1000 with
  | Some k => NilEmpty.string_of_uint (Nat.to_uint k)
  | None => "NaN"
  end.

End Sample.

(** ** Words separated by spaces *)

Module Words.

Fixpoint spaces (k : nat) : string :=
  match k with
  | 0 => ""
  | S k' => String " " (spaces k')
  end.

(** A word as [splitPath] keeps or prints it: not empty, free of
    delimiters, and either a single letter or free of letters. *)
Record clean (w : string) : Prop := {
  clean_nonempty : w <> "";
  clean_no_delim : Re.test Re.is_delim w = false;
  clean_letter :
    (exists c, w = String c "" /\ Re.is_letter c = true) \/
    Re.test Re.is_letter w = false
}.

(** The number of spaces [move_letters_apart] puts on each side of a
    clean word. *)
Definition pad (w : string) : nat :=
  if Re.starts_with Re.is_letter w then 1 else 0.

(** [Body words B]: [B] is the words in order, with one space or more
    between neighbours. *)
Inductive Body : list string -> string -> Prop :=
  | Body_one w : Body [w] w
  | Body_cons w k words B :
      Body words B -> Body (w :: words) (w +:+ spaces (S k) +:+ B).

End Words.

(** The tab character. *)
Definition tab : ascii := ascii_of_nat 9.

(** ** The tokenizer and the serializer in the words of the specification *)

Module Spec.

Section Tokenizer.

Variable parseFloat : string -> float.

(** Whitespace, comma or semicolon. *)
Definition is_delim (c : ascii) : bool :=
  Re.is_space c || Nat.eqb (nat_of_ascii c) 44 || Nat.eqb (nat_of_ascii c) 59.

(** A token with no letter is converted to a float; a token with a letter
    is kept as a command letter. *)
Definition classify (item : string) : token :=
  if Re.test Re.is_letter item then TStr item else TNum (parseFloat item).

(** Letters are separated from numbers by spaces, the string is trimmed
    and split on whitespace, comma and semicolon delimiters, and each
    token is classified. *)
Definition tokens (path : string) : list token :=
  map classify
    (Re.split_on is_delim
       (Re.trim_end (Re.trim_start (Re.move_letters_apart path)))).

End Tokenizer.

Section Serializer.

(** The built-in conversions between numbers and strings. *)
Variable parseFloat : string -> float.
Variable numToString : float -> string.

(** The number prints plainly: its string is not empty, holds no character
    of the range from [A] to [z], no delimiter and no whitespace, and
    [parseFloat] reads the number back from it. *)
Definition plain_numeral (n : float) : Prop :=
  let s := numToString n in
  s <> "" /\ Re.test Re.in_A_z s = false /\ Re.test Re.is_delim s = false /\
  Re.test Re.is_space s = false /\ parseFloat s = n.

Definition token_string (t : token) : string :=
  match t with
  | TStr s => s
  | TNum n => numToString n
  end.

(** Modelled from the spec: the serializer that re-joins the segments of a
    path into a string, which is not part of Map.ts: the commands and
    coordinates of the segments in order, separated by single spaces. *)
Definition joinPath (p : SVGPath) : string :=
  String.concat " " (map token_string (concat p)).

End Serializer.

End Spec.

(** ** What the deep merge and [mapChart] are to do

    The statements that the proofs below establish of [doCopy],
    [merge] and [mapChart], and the stores of the worked examples. *)

Module MergeSpec.

Import Js Store.

(** What [doCopy copy original] may rely on, [n] being where the store
    ended when the merge began. *)
Record copy_pre (n : nat) (h : heap) (copy original : gmap string value) : Prop := {
  pre_closed : closed h = true;
  pre_copy : closed_props (length h) copy = true;
  pre_original : closed_props (length h) original = true;
  pre_bound : n <= length h;
  pre_fresh : fresh n h copy;
  pre_region : fresh_region n h
}.

(** What [doCopy copy original] gives when it returns [c'] in the store
    [h']. *)
Record copy_post (n : nat) (h : heap) (copy original c' : gmap string value)
    (h' : heap) : Prop := {
  post_extends : h `prefix_of` h';
  post_closed : closed h' = true;
  post_copy : closed_props (length h') c' = true;
  post_setting : forall p w,
    setting h original p = Some w -> setting h' c' p = Some w;
  post_kept : forall p w,
    untouched h original p = true -> setting h copy p = Some w ->
    setting h' c' p = Some w;
  post_shallow : forall d,
    shallow h d copy = true -> shallow h d original = true ->
    shallow h' d c' = true;
  post_fresh : fresh n h' c';
  post_region : fresh_region n h'
}.

Definition copy_correct
    (f : gmap string value -> gmap string value -> M (gmap string value)) : Prop :=
  forall n h copy original c' h',
    copy_pre n h copy original -> f copy original h = Ok (c', h') ->
    copy_post n h copy original c' h'.

Definition copy_total (d : nat)
    (f : gmap string value -> gmap string value -> M (gmap string value)) : Prop :=
  forall n h copy original,
    copy_pre n h copy original -> shallow h d original = true ->
    exists c' h', f copy original h = Ok (c', h').

(** The setting at [p] after the layers have been laid over one another,
    from [acc] for what lies under them: the setting of the last layer
    that has one, when the layers after it say nothing about [p]. *)
Fixpoint overlay (h : heap) (acc : option value)
    (layers : list (gmap string value)) (p : list string) : option value :=
  match layers with
  | [] => acc
  | m :: rest =>
      overlay h
        (match setting h m p with
         | Some w => Some w
         | None => if untouched h m p then acc else None
         end) rest p
  end.

(** What [merge_args] gives when it returns [ret'] in the store [h']. *)
Record merge_post (n : nat) (h : heap) (ret : gmap string value)
    (args : list value) (ret' : gmap string value) (h' : heap) : Prop := {
  merged_extends : h `prefix_of` h';
  merged_closed : closed h' = true;
  merged_ret : closed_props (length h') ret' = true;
  merged_fresh : fresh n h' ret';
  merged_region : fresh_region n h';
  merged_shallow : forall d,
    shallow h d ret = true ->
    Forall (fun a => shallow h d (own_props h a) = true) args ->
    shallow h' d ret' = true;
  merged_overlay : forall p w,
    overlay h (setting h ret p) (map (own_props h) args) p = Some w ->
    setting h' ret' p = Some w
}.

(** What [merge] gives when it returns: a reference to a new plain
    object at the end of the store, whose tree holds the overlay of the
    arguments. *)
Inductive merge_result (h : heap) (args : list value) : value -> heap -> Prop :=
  | merge_result_intro (R : gmap string value) (h1 : heap) :
      h `prefix_of` h1 ->
      closed h1 = true ->
      closed (h1 ++ [Obj Plain R]) = true ->
      closed_props (length h1) R = true ->
      fresh (length h) (h1 ++ [Obj Plain R]) R ->
      fresh_region (length h) (h1 ++ [Obj Plain R]) ->
      (forall d,
         Forall (fun a => shallow h d (own_props h a) = true) args ->
         shallow (h1 ++ [Obj Plain R]) d R = true) ->
      (forall p w,
         overlay h None (map (own_props h) args) p = Some w ->
         setting (h1 ++ [Obj Plain R]) R p = Some w) ->
      merge_result h args (VRef (length h1)) (h1 ++ [Obj Plain R]).

End MergeSpec.

Module MapSpec.

Import Js Store MergeSpec.

Definition nullish (v : value) : bool :=
  match v with
  | VUndefined | VNull => true
  | _ => false
  end.

(** Whether [mapChart] takes its first argument for the element to
    render to. *)
Definition hasRenderToArg (h : heap) (a : value) : bool :=
  Js.typeof_string a || Js.truthy (Js.prop h a "nodeName").

(** The argument that [mapChart] takes for the options. *)
Definition options_arg (h : heap) (a b : value) : value :=
  if hasRenderToArg h a then b else a.

(** [{endOnTick: false, visible: false, minPadding: 0, maxPadding: 0,
    startOnTick: false}] *)
Definition hiddenAxis : list (string * value) :=
  [("endOnTick", VBool false);
   ("visible", VBool false);
   ("minPadding", VNumber 0);
   ("maxPadding", VNumber 0);
   ("startOnTick", VBool false)].

(** The map defaults, setting by setting; [mapText] and [mapTextFull] are
    the credits texts of the library defaults. *)
Definition mapDefaults (mapText mapTextFull : value)
    : list (list string * value) :=
  [(["chart"; "panning"; "enabled"], VBool true);
   (["chart"; "panning"; "type"], VString "xy");
   (["chart"; "type"], VString "map");
   (["credits"; "mapText"], pick mapText (VString mapText_default));
   (["credits"; "mapTextFull"], pick mapTextFull (VString "{geojson.copyright}"));
   (["tooltip"; "followTouchMove"], VBool false)]
  ++ map (fun kv => (["xAxis"; kv.1], kv.2)) hiddenAxis
  ++ map (fun kv => (["yAxis"; kv.1], kv.2)) hiddenAxis
  ++ [(["yAxis"; "reversed"], VBool true)].

(** The path lies on a forced option: it is [chart] itself, or it starts
    with [chart.inverted] or [chart.alignTicks]. *)
Definition forced_override (p : list string) : bool :=
  match p with
  | [] => false
  | k :: p' =>
      String.eqb k "chart" &&
      match p' with
      | [] => true
      | k' :: _ => String.eqb k' "inverted" || String.eqb k' "alignTicks"
      end
  end.

(** The store [h'] is [h] with the [series] of the object at [o] set to
    [x], and anything added at the end. *)
Definition series_set (o : loc) (x : value) (h h' : heap) : Prop :=
  (forall l ob, h !! l = Some ob -> l <> o -> h' !! l = Some ob) /\
  (forall kd m, h !! o = Some (Obj kd m) ->
     h' !! o = Some (Obj kd (<["series" := x]> m))).

(** What [mapChart] leaves behind: the store [hm] in which the options
    are merged, with the three layers [defaults], the user's options at
    [o] and [forced]; the merged tree [R], allocated at the end of [hf];
    and the final store, in which the series are put back. *)
Inductive run (h0 : heap) (a b c : value) (o : loc) (kd : kind)
    (m0 : gmap string value) (mapText mapTextFull : value)
    (chart : Chart) (h' : heap) : Prop :=
  | run_intro (hm hf : heap) (defaults forced : loc) (R : gmap string value) :
      closed hm = true ->
      length h0 <= length hm ->
      series_set o VNull h0 hm ->
      (forall p w, (p, w) ∈ mapDefaults mapText mapTextFull ->
         setting hm (own_props hm (VRef defaults)) p = Some w) ->
      setting hm (own_props hm (VRef forced)) ["chart"; "inverted"]
        = Some (VBool false) ->
      setting hm (own_props hm (VRef forced)) ["chart"; "alignTicks"]
        = Some (VBool false) ->
      (forall p, p <> [] -> forced_override p = false ->
         untouched hm (own_props hm (VRef forced)) p = true) ->
      hm !! o = Some (Obj kd (<["series" := VNull]> m0)) ->
      merge_result hm [VRef defaults; VRef o; VRef forced]
        (VRef (length hf)) (hf ++ [Obj Plain R]) ->
      chart = (if hasRenderToArg h0 a
               then new_Chart (Some a) (VRef (length hf)) c
               else new_Chart None (VRef (length hf)) b) ->
      h' = <[length hf :=
               Obj Plain (<["series" := default VUndefined (m0 !! "series")]> R)]>
             (<[o := Obj kd (<["series" := default VUndefined (m0 !! "series")]> m0)]>
                (hf ++ [Obj Plain R])) ->
      run h0 a b c o kd m0 mapText mapTextFull chart h'.

End MapSpec.

Module FrameSpec.

Import MapSpec.

(** The object an operation of the module writes to: [mapChart] sets the
    [series] of the object it takes for the options; the other operations
    write to nothing. *)
Definition written (op : operation) (h : heap) : option value :=
  match op with
  | CallMapChart a b c => Some (options_arg h a b)
  | _ => None
  end.

(** The object at [l] is [ob]. *)
Definition kept (l : loc) (ob : object) (h : heap) : Prop := h !! l = Some ob.

(** The store a run leaves behind, when it returns and when it throws. *)
Definition store_after {A} (r : result (A * heap)) : option heap :=
  match r with
  | Ok (_, h) => Some h
  | TypeError h => Some h
  | OutOfFuel => None
  end.

(** Running [m] keeps the invariant [I] of the store, also when it
    throws, and what it returns satisfies [Q]. *)
Definition preserves {A} (I : heap -> Prop) (m : M A) (Q : A -> Prop) : Prop :=
  forall h, I h ->
    match m h with
    | Ok (a, h') => I h' /\ Q a
    | TypeError h' => I h'
    | OutOfFuel => True
    end.

End FrameSpec.

Module ChartSpec.

Import Js Store MapSpec.

(** A call [mapChart a b c] in the store [h0] that is given an options
    object: the store has no dangling references; the argument taken for
    the options is the object at [o], with the properties [m0], and what
    lies below it is a tree of depth [d] at most; the library's default
    options have credits, whose two map texts are no objects; and [fuel]
    is enough for the depth of the trees that are merged. *)
Record mapChart_pre (fuel : nat) (defaultOptions a b : value) (h0 : heap)
    (o : loc) (kd : kind) (m0 : gmap string value) (d : nat) : Prop := {
  call_closed : closed h0 = true;
  call_defaultOptions : closed_value (length h0) defaultOptions = true;
  call_options : options_arg h0 a b = VRef o;
  call_object : h0 !! o = Some (Obj kd m0);
  call_defaults : nullish defaultOptions = false;
  call_credits : nullish (prop h0 defaultOptions "credits") = false;
  call_mapText :
    plain_props h0 (prop h0 (prop h0 defaultOptions "credits") "mapText") = None;
  call_mapTextFull :
    plain_props h0 (prop h0 (prop h0 defaultOptions "credits") "mapTextFull") = None;
  call_depth : shallow h0 d m0 = true;
  call_fuel : d < fuel;
  call_fuel_defaults : 2 < fuel
}.

End ChartSpec.

(** The run [r] returns, with a result and in a store that satisfy [P]. *)
Definition outcome {A} (r : result (A * heap)) (P : A -> heap -> Prop) : Prop :=
  match r with
  | Ok (a, h) => P a h
  | _ => False
  end.

(** A store to run [mapChart] in: the default options of the library, and
    the options of a user,
    [{chart: {type: 'line', inverted: true}, series: [], title: 't'}]. *)
Module Demo.

Definition defaultOptions : value := VRef 0.

Definition chartOptions : gmap string value :=
  <["type" := VString "line"]> {["inverted" := VBool true]}.

Definition userOptions : gmap string value :=
  <["chart" := VRef 3]> (<["series" := VRef 4]> {["title" := VString "t"]}).

Definition store : heap :=
  [Obj Plain {["credits" := VRef 1]};
   Obj Plain ∅;
   Obj Plain userOptions;
   Obj Plain chartOptions;
   Obj Exotic ∅].

(** The store of a page that has loaded Highcharts only: the namespace
    object [Highcharts], its default options and their credits. *)
Definition Highcharts : value := VRef 0.

Definition page : heap :=
  [Obj Plain ∅;
   Obj Plain {["credits" := VRef 2]};
   Obj Plain ∅].

(** The registry of the maps, and the store of the page once the module
    is loaded. *)
Definition maps : value := VRef 3.

Definition loaded : heap :=
  [Obj Plain {["maps" := maps]};
   Obj Plain {["credits" := VRef 2]};
   Obj Plain ∅;
   Obj Plain ∅].

End Demo.

(** ** Further notions for the properties of the code

    Strings and token arrays as the tokenizer sees them, the parts of
    a button path, one more store, and the statements the module runs
    when it is loaded. *)

Module Text.

(** Every character of [s] is whitespace. *)
Fixpoint blank (s : string) : bool :=
  match s with
  | EmptyString => true
  | String c s' => Re.is_space c && blank s'
  end.

(** The letters of [s], in order, each as a string of one character. *)
Fixpoint letters (s : string) : list string :=
  match s with
  | EmptyString => []
  | String c s' =>
      if Re.is_letter c then String c EmptyString :: letters s' else letters s'
  end.

(** The tokens of [arr] that are strings with a letter, in order. *)
Fixpoint commands (arr : list token) : list string :=
  match arr with
  | [] => []
  | TStr s :: arr' =>
      if Re.test Re.is_letter s then s :: commands arr' else commands arr'
  | TNum _ :: arr' => commands arr'
  end.

(** A comma or a semicolon: a delimiter of the split that the trimming
    leaves in place. *)
Definition is_separator (c : ascii) : bool :=
  Re.is_delim c && negb (Re.is_space c).

(** Every character of [s] is a space, a comma or a semicolon. *)
Fixpoint delimiters (s : string) : bool :=
  match s with
  | EmptyString => true
  | String c s' => Re.is_delim c && delimiters s'
  end.

(** Neither whitespace nor a delimiter. *)
Definition solid (c : ascii) : bool :=
  negb (Re.is_space c) && negb (Re.is_delim c).

End Text.

Module ButtonSpec.

(** The four sides and four corners of a button path, as the segments at
    these positions of the path. *)
Definition part (p : SVGPath) (i : nat) : list Path.point :=
  from_option Path.points [] (p !! i).

End ButtonSpec.

Module Bare.

(** A store in which the library's default options have lost their
    credits, as after [setOptions({credits: null})], with the options of a
    user, [{series: []}]. *)
Definition bare : heap :=
  [Obj Plain {["credits" := VNull]};
   Obj Plain {["series" := VRef 2]};
   Obj Exotic ∅].

End Bare.

(** The statements of the module that write to the namespace [H] and
    build its export, in source order:
    [H.splitPath = function ...], [H.maps = {}],
    [H.Map = H.mapChart = function ...] and
    [mapModule = {mapChart, maps: H.maps, splitPath}].  A function
    expression makes a new function object.  (The statements left out
    write to the default options and to the renderers' symbols.) *)
Definition load_exports (H : value) : M value :=
  splitPath ← Js.alloc (Obj Exotic ∅);
  Js.set_prop H "splitPath" splitPath;;
  init_maps H;;
  mapChart ← Js.alloc (Obj Exotic ∅);
  Js.set_prop H "mapChart" mapChart;;
  Js.set_prop H "Map" mapChart;;
  maps ← Js.get_prop H "maps";
  Js.literal [("mapChart", mapChart); ("maps", maps); ("splitPath", splitPath)].

(** * Properties *)

(** ** Arithmetic on zeros *)

Module NumFacts.

Import Num.
Local Open Scope float_scope.

Lemma zero_spec : Prim2SF 0 = S754_zero false.
Proof. reflexivity. Qed.

Lemma two_spec : Prim2SF 2 = S754_finite false 4503599627370496 (-51).
Proof. reflexivity. Qed.

Lemma is_zero_spec z : is_zero z <-> exists s, Prim2SF z = S754_zero s.
Proof.
  unfold is_zero. rewrite FloatAxioms.eqb_spec, zero_spec. split.
  - destruct (Prim2SF z) as [s|s| |s m e]; try discriminate; eauto;
      destruct s; discriminate.
  - intros [s ->]. reflexivity.
Qed.

Lemma same_refl a : same a a.
Proof. left; reflexivity. Qed.

Lemma same_zeros a b : is_zero a -> is_zero b -> same a b.
Proof.
  intros [sa Ha]%is_zero_spec [sb Hb]%is_zero_spec. right.
  rewrite FloatAxioms.eqb_spec, Ha, Hb. reflexivity.
Qed.

(** Subtracting a zero gives the same coordinate. *)
Lemma sub_zero a z : is_zero z -> same (a - z) a.
Proof.
  intros [s Hz]%is_zero_spec.
  destruct (Prim2SF a) as [sa|sa| |sa m e] eqn:Ha.
  - apply same_zeros; apply is_zero_spec; [|eauto].
    rewrite sub_spec, Ha, Hz. destruct sa, s; eauto.
  - left. apply Prim2SF_inj. rewrite sub_spec, Ha, Hz. reflexivity.
  - left. apply Prim2SF_inj. rewrite sub_spec, Ha, Hz. reflexivity.
  - left. apply Prim2SF_inj. rewrite sub_spec, Ha, Hz. reflexivity.
Qed.

(** Adding a zero gives the same coordinate. *)
Lemma add_zero a z : is_zero z -> same (a + z) a.
Proof.
  intros [s Hz]%is_zero_spec.
  destruct (Prim2SF a) as [sa|sa| |sa m e] eqn:Ha.
  - apply same_zeros; apply is_zero_spec; [|eauto].
    rewrite add_spec, Ha, Hz. destruct sa, s; eauto.
  - left. apply Prim2SF_inj. rewrite add_spec, Ha, Hz. reflexivity.
  - left. apply Prim2SF_inj. rewrite add_spec, Ha, Hz. reflexivity.
  - left. apply Prim2SF_inj. rewrite add_spec, Ha, Hz. reflexivity.
Qed.

(** Half of a zero is a zero. *)
Lemma half_zero z : is_zero z -> is_zero (z / 2).
Proof.
  intros [s Hz]%is_zero_spec. apply is_zero_spec.
  rewrite div_spec, Hz, two_spec. destruct s; eauto.
Qed.

(** Subtracting the literal [0] changes nothing at all. *)
Lemma sub_0 a : a - 0 = a.
Proof.
  apply Prim2SF_inj. rewrite sub_spec, zero_spec.
  destruct (Prim2SF a) as [[]|[]| |sa m e]; reflexivity.
Qed.

End NumFacts.

(** ** The rounded rectangle *)

Section SymbolFacts.

Local Open Scope float_scope.

Variables x y w h : float.

(** C3: the path of [selectiveRoundedRect] is a move to the top-left radius
    point [(x + rTopLeft, y)], then four times a straight line followed by
    a cubic curve of three points (top side, top-right corner, right side,
    bottom-right corner, bottom side, bottom-left corner, left side,
    top-left corner), then a close-path command.  The lines end on the top,
    right, bottom and left side of the box in that order, which is the
    clockwise order on screen, and each corner curve ends where the next
    side starts. *)
Theorem selectiveRoundedRect_trace (rTopLeft rTopRight rBottomRight rBottomLeft : float) :
  let p := selectiveRoundedRect x y w h rTopLeft rTopRight rBottomRight rBottomLeft in
  map Path.command p =
    [Some "M"; Some "L"; Some "C"; Some "L"; Some "C";
     Some "L"; Some "C"; Some "L"; Some "C"; Some "Z"] /\
  Path.start p = Some (x + rTopLeft, y) /\
  Path.endpoints_of "L" p =
    [Some (x + w - rTopRight, y); Some (x + w, y + h - rBottomRight);
     Some (x + rBottomLeft, y + h); Some (x, y + rTopLeft)] /\
  Path.endpoints_of "C" p =
    [Some (x + w, y + rTopRight); Some (x + w - rBottomRight, y + h);
     Some (x, y + h - rBottomLeft); Some (x + rTopLeft, y)] /\
  map (fun seg => length (Path.points seg)) p = [1; 1; 3; 1; 3; 1; 3; 1; 3; 0]%nat /\
  last p = Some [TStr "Z"].
Proof. repeat split; reflexivity. Qed.

(** C9: the last corner curve of the path ends at the point the initial
    move starts from, [(x + rTopLeft, y)], and the only segment after that
    curve is the close-path command. *)
Theorem selectiveRoundedRect_closed (rTopLeft rTopRight rBottomRight rBottomLeft : float) :
  let p := selectiveRoundedRect x y w h rTopLeft rTopRight rBottomRight rBottomLeft in
  exists before curve,
    p = before ++ [curve; [TStr "Z"]] /\
    Path.command curve = Some "C" /\
    Path.endpoint curve = Path.start p /\
    Path.start p = Some (x + rTopLeft, y).
Proof.
  intros p. exists (take 8 p).
  exists [TStr "C"; TNum x; TNum (y + rTopLeft / 2);
          TNum (x + rTopLeft / 2); TNum y; TNum (x + rTopLeft); TNum y].
  repeat split; reflexivity.
Qed.

(** C4: with the four radii zero, the points of the path are the corners
    of the box: the path moves to [(x, y)], the sides end at
    [(x + w, y)], [(x + w, y + h)], [(x, y + h)] and [(x, y)], and the three
    points of every corner curve coincide with the corner it stands at. *)
Theorem selectiveRoundedRect_zero_radii (r1 r2 r3 r4 : float) :
  Num.is_zero r1 -> Num.is_zero r2 -> Num.is_zero r3 -> Num.is_zero r4 ->
  let topLeft := (x, y) in
  let topRight := (x + w, y) in
  let bottomRight := (x + w, y + h) in
  let bottomLeft := (x, y + h) in
  Forall2 (Forall2 Path.same_point)
    (map Path.points (selectiveRoundedRect x y w h r1 r2 r3 r4))
    [ [topLeft];
      [topRight]; [topRight; topRight; topRight];
      [bottomRight]; [bottomRight; bottomRight; bottomRight];
      [bottomLeft]; [bottomLeft; bottomLeft; bottomLeft];
      [topLeft]; [topLeft; topLeft; topLeft];
      [] ].
Proof.
  intros H1 H2 H3 H4. cbn.
  pose proof (NumFacts.half_zero _ H1). pose proof (NumFacts.half_zero _ H2).
  pose proof (NumFacts.half_zero _ H3). pose proof (NumFacts.half_zero _ H4).
  repeat match goal with
         | |- Forall2 _ _ _ => constructor
         | |- Path.same_point _ _ => split; cbn
         end;
    auto using NumFacts.same_refl, NumFacts.add_zero, NumFacts.sub_zero.
Qed.

End SymbolFacts.

Lemma selectiveRoundedRect_zero_radii_witness :
  Num.is_zero 0 /\
  Forall2 (Forall2 Path.same_point)
    (map Path.points (selectiveRoundedRect 3 4 18 18 0 0 0 0))
    [ [(3, 4)]; [(21, 4)]; [(21, 4); (21, 4); (21, 4)];
      [(21, 22)]; [(21, 22); (21, 22); (21, 22)];
      [(3, 22)]; [(3, 22); (3, 22); (3, 22)];
      [(3, 4)]; [(3, 4); (3, 4); (3, 4)]; [] ]%float.
Proof.
  split; [reflexivity|].
  apply (selectiveRoundedRect_zero_radii 3 4 18 18 0 0 0 0); reflexivity.
Defined.

Section ButtonFacts.

Local Open Scope float_scope.

(** C8, as stated, fails when the option's [r] is [NaN]: the buttons then
    use the radius [0], not [r]. *)
Lemma topbutton_nan_radius :
  topbutton 5 5 18 18 (Some {| r := Some nan |}) <>
  selectiveRoundedRect (5 - 1) (5 - 1) 18 18 nan nan 0 0.
Proof.
  intros E.
  assert (Hnum : forall p q : SVGPath, p = q ->
            map is_nan (concat (map Path.numbers p)) =
            map is_nan (concat (map Path.numbers q))) by (intros ? ? ->; reflexivity).
  apply Hnum in E. vm_compute in E. discriminate E.
Qed.

(** C8: [topbutton] is [selectiveRoundedRect] on the box shifted by
    [(-1, -1)] with the two top radii set to the radius and the bottom radii
    [0], and [bottombutton] the same with the top radii [0] and the two
    bottom radii set to the radius.  The radius is the option's [r] when
    that is a number other than [0] and [NaN]; it is [0] when the options
    or their [r] are absent, and also when [r] is [0] or [NaN]. *)
Theorem button_symbols (x y w h : float) (options : option SymbolOptionsObject) :
  let radius :=
    match options with
    | Some {| r := Some v |} => if Num.truthy v then v else 0
    | _ => 0
    end in
  topbutton x y w h options =
    selectiveRoundedRect (x - 1) (y - 1) w h radius radius 0 0 /\
  bottombutton x y w h options =
    selectiveRoundedRect (x - 1) (y - 1) w h 0 0 radius radius.
Proof.
  destruct options as [[[v|]]|]; split; reflexivity.
Qed.


End ButtonFacts.

(** ** Strings *)

Module ReFacts.

Import Re.

Section Split.

Variable delim : ascii -> bool.

Lemma split_on_nonempty s : split_on delim s <> [].
Proof.
  induction s as [|c s IH]; cbn; [done|].
  destruct (delim c).
  - destruct (starts_with delim s); done.
  - destruct (split_on delim s); done.
Qed.

(** No piece holds a delimiter. *)
Lemma split_on_no_delim s :
  Forall (fun piece => test delim piece = false) (split_on delim s).
Proof.
  induction s as [|c s IH]; cbn.
  - repeat constructor.
  - destruct (delim c) eqn:Hc.
    + destruct (starts_with delim s); [done|]. constructor; done.
    + destruct (split_on delim s) as [|t ts]; [repeat constructor; cbn; by rewrite Hc|].
      inversion_clear IH. constructor; [|done]. cbn. by rewrite Hc.
Qed.

(** The pieces, put together, are the string without its delimiters. *)
Lemma split_on_concat s :
  String.concat "" (split_on delim s) = remove delim s.
Proof.
  induction s as [|c s IH]; cbn; [done|].
  destruct (delim c) eqn:Hc.
  - destruct (starts_with delim s); [done|].
    rewrite <- IH. cbn. pose proof (split_on_nonempty s).
    destruct (split_on delim s); done.
  - rewrite <- IH. pose proof (split_on_nonempty s).
    destruct (split_on delim s) as [|t [|t' ts]]; done.
Qed.

(** A string that starts with a delimiter has an empty first piece. *)
Lemma split_on_starts_with s :
  starts_with delim s = true -> exists ts, split_on delim s = "" :: ts.
Proof.
  induction s as [|c s IH]; cbn; [done|]. intros ->.
  destruct (starts_with delim s); eauto.
Qed.

End Split.

(** *** Character classes *)

Ltac by_cases_on_char c :=
  destruct c as [[] [] [] [] [] [] [] []]; vm_compute; done.

Lemma letter_in_A_z c : is_letter c = true -> in_A_z c = true.
Proof. by_cases_on_char c. Qed.

Lemma delim_not_A_z c : is_delim c = true -> in_A_z c = false.
Proof. by_cases_on_char c. Qed.

Lemma space_not_A_z c : is_space c = true -> in_A_z c = false.
Proof. by_cases_on_char c. Qed.

Lemma sp_delim c : is_sp c = true -> is_delim c = true.
Proof. by_cases_on_char c. Qed.

Lemma sp_space c : is_sp c = true -> is_space c = true.
Proof. by_cases_on_char c. Qed.

Lemma not_A_z_not_letter c : in_A_z c = false -> is_letter c = false.
Proof. by_cases_on_char c. Qed.

Lemma delim_not_letter c : is_delim c = true -> is_letter c = false.
Proof. by_cases_on_char c. Qed.

Lemma space_not_letter c : is_space c = true -> is_letter c = false.
Proof. by_cases_on_char c. Qed.

Lemma test_letter_A_z s : test is_letter s = true -> test in_A_z s = true.
Proof.
  induction s as [|c s IH]; cbn; [done|].
  destruct (is_letter c) eqn:Hc; cbn.
  - by rewrite (letter_in_A_z _ Hc).
  - intros H. rewrite (IH H). by destruct (in_A_z c).
Qed.

(** *** Letters stand alone after [move_letters_apart] and trimming *)

Lemma isolated_weaken s : isolated false s = true -> isolated true s = true.
Proof. destruct s as [|c s]; cbn; [done|]. by destruct (is_letter c). Qed.

Lemma isolated_any b s : isolated b s = true -> isolated true s = true.
Proof. destruct b; auto using isolated_weaken. Qed.

Lemma isolated_move_letters_apart b s : isolated b (move_letters_apart s) = true.
Proof.
  revert b. induction s as [|c s IH]; intros b; cbn; [done|].
  destruct (is_letter c) eqn:Hc; cbn [isolated]; rewrite ?Hc; [|done].
  change (is_letter " ") with false. change (is_sp " ") with true.
  cbn. apply IH.
Qed.

Lemma isolated_trim_start b s :
  isolated b s = true -> isolated true (trim_start s) = true.
Proof.
  revert b. induction s as [|c s IH]; intros b; cbn [trim_start]; [done|].
  destruct (is_space c) eqn:Hc.
  - cbn [isolated]. rewrite (space_not_letter _ Hc). apply IH.
  - apply (isolated_any b).
Qed.

Lemma trim_end_cons_inv s d t :
  trim_end s = String d t -> exists s', s = String d s'.
Proof.
  destruct s as [|c s]; cbn; [done|].
  destruct (trim_end s); [destruct (is_space c)|]; intros [= <- <-]; eauto.
Qed.

Lemma isolated_cons b c s :
  isolated b (String c s) =
  if is_letter c
  then b && match s with EmptyString => true | String d _ => is_sp d end
       && isolated false s
  else isolated (is_sp c) s.
Proof. reflexivity. Qed.

Lemma isolated_trim_end b s :
  isolated b s = true -> isolated b (trim_end s) = true.
Proof.
  revert b. induction s as [|c s IH]; intros b; cbn [trim_end]; [done|].
  rewrite isolated_cons. destruct (trim_end s) as [|d t] eqn:Ht.
  - destruct (is_space c); [done|]. cbn.
    destruct (is_letter c); [|done]. by destruct b.
  - rewrite (isolated_cons b c (String d t)).
    destruct (trim_end_cons_inv _ _ _ Ht) as [s' Hs].
    destruct (is_letter c).
    + intros [[-> Hd]%andb_prop H]%andb_prop. apply IH in H. rewrite H.
      rewrite Hs in Hd. by rewrite Hd.
    + apply IH.
Qed.

(** *** The pieces of a string whose letters stand alone *)

Lemma split_head_no_letter s t ts :
  isolated false s = true -> split s = t :: ts -> test is_letter t = false.
Proof.
  unfold split. revert t ts. induction s as [|c s IH]; intros t ts; cbn.
  - by intros _ [= <- <-].
  - destruct (is_letter c) eqn:Hl; [done|].
    destruct (is_delim c) eqn:Hd.
    + intros _ H.
      destruct (split_on_starts_with is_delim (String c s)) as [ts' E]; [done|].
      cbn in E. rewrite Hd in E. rewrite E in H. by injection H as <- <-.
    + assert (is_sp c = false) as ->.
      { destruct (is_sp c) eqn:Hs; [|done]. by rewrite (sp_delim _ Hs) in Hd. }
      intros Hiso H. pose proof (split_on_nonempty is_delim s).
      destruct (split_on is_delim s) as [|t' ts'] eqn:E; [done|].
      injection H as <- <-. cbn. rewrite Hl. by eapply IH.
Qed.

Lemma split_letter_pieces s :
  isolated true s = true ->
  Forall (fun piece => test is_letter piece = true -> String.length piece = 1)
    (split s).
Proof.
  unfold split. induction s as [|c s IH]; cbn.
  - intros _. by repeat constructor.
  - destruct (is_delim c) eqn:Hd.
    + rewrite (delim_not_letter _ Hd). intros H%isolated_any%IH.
      destruct (starts_with is_delim s); [done|]. by constructor.
    + pose proof (split_on_nonempty is_delim s).
      destruct (split_on is_delim s) as [|t ts] eqn:E; [done|].
      destruct (is_letter c) eqn:Hl.
      * intros [Hnext Hiso]%andb_prop. cbn in Hnext.
        pose proof (IH (isolated_weaken _ Hiso)) as IH'. inversion_clear IH'.
        constructor; [|done]. intros _.
        destruct s as [|d s']; [by injection E as <- <-|].
        destruct (split_on_starts_with is_delim (String d s')) as [ts' E'].
        { cbn. by apply sp_delim. }
        rewrite E' in E. by injection E as <- <-.
      * assert (is_sp c = false) as ->.
        { destruct (is_sp c) eqn:Hs; [|done]. by rewrite (sp_delim _ Hs) in Hd. }
        intros Hiso. pose proof (IH (isolated_weaken _ Hiso)) as IH'.
        inversion_clear IH'. constructor; [|done].
        cbn. rewrite Hl. cbn. intros Ht.
        by rewrite (split_head_no_letter s t ts Hiso E) in Ht.
Qed.

End ReFacts.

(** ** The segmenter *)

Module SegmentFacts.

Import Path.

Lemma pathToSegments_from_concat seg arr :
  concat (pathToSegments_from seg arr) = seg ++ arr.
Proof.
  revert seg. induction arr as [|[c|n] arr IH]; intros seg; cbn.
  - by rewrite !app_nil_r.
  - destruct seg as [|t seg]; cbn; by rewrite IH.
  - by rewrite IH, <- app_assoc.
Qed.

Lemma pathToSegments_from_operands seg arr :
  operands_only seg -> Forall operands_only (pathToSegments_from seg arr).
Proof.
  unfold operands_only.
  revert seg. induction arr as [|[c|n] arr IH]; intros seg Hseg; cbn.
  - by constructor.
  - destruct seg as [|t seg]; [|constructor; [done|]]; apply IH; by constructor.
  - apply IH. destruct seg as [|t seg]; cbn in *; [done|].
    apply Forall_app; split; [done|]. by repeat constructor.
Qed.

Lemma pathToSegments_from_letters seg arr :
  has_letter seg -> Forall has_letter (pathToSegments_from seg arr).
Proof.
  unfold has_letter.
  revert seg. induction arr as [|[c|n] arr IH]; intros seg Hseg; cbn.
  - by constructor.
  - destruct seg as [|t seg]; [done|]. constructor; [done|]. by apply IH.
  - apply IH. by destruct seg as [|[] seg].
Qed.

Lemma pathToSegments_letters arr :
  Forall has_letter (tail (pathToSegments arr)).
Proof.
  unfold pathToSegments. generalize (@nil token) at 1 as seg.
  induction arr as [|[c|n] arr IH]; intros seg; cbn.
  - done.
  - destruct seg as [|t seg]; cbn.
    + apply Forall_tail, pathToSegments_from_letters. done.
    + apply pathToSegments_from_letters. done.
  - apply IH.
Qed.

End SegmentFacts.

(** ** The tokenizer *)

(** C2, as stated, fails on a tab between two numbers: the tab is
    whitespace, [splitPath] does not split on it and hands [parseFloat] the
    three characters as one token. *)
Lemma splitPath_tab_is_no_delimiter :
  splitPath_arr Sample.parseFloat (PathString (String "1" (String tab "2"))) <>
  Spec.tokens Sample.parseFloat (String "1" (String tab "2")).
Proof.
  intros E. apply (f_equal length) in E. vm_compute in E. discriminate E.
Qed.

Section SplitPathFacts.

Variable parseFloat : string -> float.

(** The classification test [/[A-za-z]/] also holds for the six
    characters between [Z] and [a]: a token of them is kept as a string
    although it has no letter. *)
Example splitPath_underscore :
  splitPath parseFloat (PathString "_") = [[TStr "_"]].
Proof. reflexivity. Qed.

(** C2: [splitPath] puts a space on both sides of every letter, trims the
    string and splits it at the runs of spaces, commas and semicolons:
    the pieces hold none of these three characters and, put together, are
    the trimmed string without them.  A piece that holds a letter is that
    one letter and is kept as a string; a piece with no character in the
    range from [A] to [z] is converted by [parseFloat].  The segmenter
    keeps the tokens and their order, puts a command letter at most at the
    head of a segment, and starts every segment after the first with one. *)
Theorem splitPath_tokenizes (s : string) :
  let trimmed := Re.trim_end (Re.trim_start (Re.move_letters_apart s)) in
  let pieces := Re.split trimmed in
  let arr := splitPath_arr parseFloat (PathString s) in
  let segments := splitPath parseFloat (PathString s) in
  Forall (fun piece => Re.test Re.is_delim piece = false) pieces /\
  String.concat "" pieces = Re.remove Re.is_delim trimmed /\
  Forall2 (fun piece tok =>
      (Re.test Re.is_letter piece = true ->
         tok = TStr piece /\ String.length piece = 1) /\
      (Re.test Re.in_A_z piece = false -> tok = TNum (parseFloat piece)))
    pieces arr /\
  concat segments = arr /\
  Forall Path.operands_only segments /\
  Forall Path.has_letter (tail segments).
Proof.
  intros trimmed pieces arr segments. repeat split.
  - apply ReFacts.split_on_no_delim.
  - apply ReFacts.split_on_concat.
  - assert (Hiso : Re.isolated true trimmed = true).
    { apply ReFacts.isolated_trim_end, (ReFacts.isolated_trim_start true),
        ReFacts.isolated_move_letters_apart. }
    apply ReFacts.split_letter_pieces in Hiso. fold pieces in Hiso.
    subst arr. cbn. fold trimmed. fold pieces.
    clearbody pieces. clear -Hiso.
    induction Hiso as [|piece pieces Hpiece _ IH]; cbn; constructor; [|done].
    unfold classify. split.
    + intros Hl. rewrite (ReFacts.test_letter_A_z _ Hl). auto.
    + by intros ->.
  - apply SegmentFacts.pathToSegments_from_concat.
  - apply SegmentFacts.pathToSegments_from_operands. constructor.
  - apply SegmentFacts.pathToSegments_letters.
Qed.

End SplitPathFacts.

(** ** Joining and splitting again *)

Module JoinFacts.

Import Re ReFacts Words.

Lemma append_cons x a b : String x a +:+ b = String x (a +:+ b).
Proof. reflexivity. Qed.

Lemma append_nil_l b : "" +:+ b = b.
Proof. reflexivity. Qed.

Lemma append_assoc a b c : (a +:+ b) +:+ c = a +:+ (b +:+ c).
Proof.
  induction a as [|x a IH]; [done|]. rewrite ?append_cons. by f_equal.
Qed.

Lemma append_nil_r a : a +:+ "" = a.
Proof. induction a as [|x a IH]; [done|]. rewrite ?append_cons. by f_equal. Qed.

Lemma append_nonempty_r a b : b <> "" -> a +:+ b <> "".
Proof. by destruct a. Qed.

Lemma spaces_add j k : spaces j +:+ spaces k = spaces (j + k).
Proof.
  induction j as [|j IH]; [done|]. simpl. rewrite ?append_cons. by f_equal.
Qed.

(** *** [move_letters_apart] *)

Lemma move_letters_apart_append a b :
  move_letters_apart (a +:+ b) = move_letters_apart a +:+ move_letters_apart b.
Proof.
  induction a as [|x a IH]; [done|]. rewrite ?append_cons. simpl.
  destruct (is_letter x); rewrite ?append_cons; by rewrite IH.
Qed.

Lemma move_letters_apart_no_letter w :
  test is_letter w = false -> move_letters_apart w = w.
Proof.
  induction w as [|x w IH]; simpl; [done|].
  destruct (is_letter x); simpl; [done|]. intros H. by rewrite IH.
Qed.

Lemma move_letters_apart_clean w :
  clean w -> move_letters_apart w = spaces (pad w) +:+ w +:+ spaces (pad w).
Proof.
  intros [_ _ [(c & -> & Hc)|Hw]]; unfold pad; simpl.
  - by rewrite Hc.
  - rewrite (move_letters_apart_no_letter _ Hw).
    destruct w as [|x w]; simpl in *; [done|].
    destruct (is_letter x); [done|]. simpl.
    by rewrite ?append_nil_l, append_nil_r.
Qed.

Lemma clean_starts w : clean w -> starts_with is_delim w = false.
Proof.
  intros [Hne Hd _]. destruct w as [|x w]; simpl in *; [done|].
  by destruct (is_delim x).
Qed.

(** *** Splitting words that are separated by spaces *)

Lemma split_word w : test is_delim w = false -> split w = [w].
Proof.
  unfold split. induction w as [|x w IH]; simpl; [done|].
  destruct (is_delim x); [done|]. simpl. intros H. by rewrite IH.
Qed.

Lemma split_on_space r :
  split_on is_delim (String " " r) =
  if starts_with is_delim r then split_on is_delim r
  else "" :: split_on is_delim r.
Proof. reflexivity. Qed.

Lemma split_spaces k r :
  starts_with is_delim r = false ->
  split (spaces (S k) +:+ r) = "" :: split r.
Proof.
  unfold split. intros Hr. induction k as [|k IH].
  - simpl spaces. rewrite ?append_cons, ?append_nil_l, split_on_space. by rewrite Hr.
  - change (spaces (S (S k))) with (String " " (spaces (S k))).
    rewrite ?append_cons, split_on_space.
    simpl spaces. rewrite ?append_cons. simpl starts_with.
    change (is_delim " ") with true. simpl spaces in IH.
    by rewrite ?append_cons in IH.
Qed.

Lemma split_append w r :
  test is_delim w = false ->
  split (w +:+ r) =
  match split r with
  | t :: ts => (w +:+ t) :: ts
  | [] => [w]
  end.
Proof.
  unfold split. pose proof (split_on_nonempty is_delim r) as Hr.
  induction w as [|x w IH]; simpl.
  - intros _. rewrite ?append_nil_l. by destruct (split_on is_delim r).
  - rewrite ?append_cons. simpl.
    destruct (is_delim x); [done|]. simpl. intros H. rewrite (IH H).
    by destruct (split_on is_delim r).
Qed.

Lemma split_word_spaces w k r :
  test is_delim w = false -> starts_with is_delim r = false ->
  split (w +:+ spaces (S k) +:+ r) = w :: split r.
Proof.
  intros Hw Hr. rewrite (split_append _ _ Hw), (split_spaces _ _ Hr).
  by rewrite append_nil_r.
Qed.

(** *** Trimming *)

Lemma trim_start_spaces k s : trim_start (spaces k +:+ s) = trim_start s.
Proof. induction k as [|k IH]; [done|]. simpl. by rewrite ?append_cons. Qed.

Lemma trim_start_id s : starts_with is_space s = false -> trim_start s = s.
Proof. destruct s as [|c s]; simpl; [done|]. by intros ->. Qed.

Lemma trim_start_starts s : starts_with is_space (trim_start s) = false.
Proof.
  induction s as [|c s IH]; simpl; [done|].
  destruct (is_space c) eqn:Hc; [done|]. simpl. done.
Qed.

Lemma trim_end_starts s :
  starts_with is_space s = false -> starts_with is_space (trim_end s) = false.
Proof.
  destruct (trim_end s) as [|d t] eqn:E; [done|].
  destruct (trim_end_cons_inv _ _ _ E) as [s' ->]. done.
Qed.

Lemma trim_end_cons c s :
  trim_end (String c s) =
  match trim_end s with
  | "" => if is_space c then "" else String c ""
  | t => String c t
  end.
Proof. reflexivity. Qed.

Lemma trim_end_idemp s : trim_end (trim_end s) = trim_end s.
Proof.
  induction s as [|c s IH]; [done|]. rewrite trim_end_cons.
  destruct (trim_end s) as [|d t] eqn:E.
  - destruct (is_space c) eqn:Hc; [done|]. rewrite trim_end_cons. simpl. by rewrite Hc.
  - rewrite trim_end_cons, IH. done.
Qed.

Lemma trim_end_append a b :
  trim_end b = b -> b <> "" -> trim_end (a +:+ b) = a +:+ b.
Proof.
  intros Hb Hne. induction a as [|c a IH]; [done|].
  rewrite ?append_cons, trim_end_cons, IH.
  pose proof (append_nonempty_r a b Hne). by destruct (a +:+ b).
Qed.

Lemma trim_end_spaces a k : trim_end (a +:+ spaces k) = trim_end a.
Proof.
  induction a as [|c a IH].
  - rewrite ?append_nil_l. induction k as [|k IHk]; [done|].
    simpl spaces. rewrite trim_end_cons, IHk. done.
  - by rewrite ?append_cons, !trim_end_cons, IH.
Qed.

Lemma trim_end_no_space w : test is_space w = false -> trim_end w = w.
Proof.
  induction w as [|c w IH]; [done|]. rewrite trim_end_cons. simpl.
  destruct (is_space c); [done|]. simpl. intros H. rewrite (IH H).
  by destruct w.
Qed.

Lemma trim_end_tail c s : trim_end (String c s) = String c s -> trim_end s = s.
Proof.
  rewrite trim_end_cons. destruct (trim_end s) as [|d t]; [|by intros [= ->]].
  by destruct (is_space c); intros [= <-].
Qed.

(** *** Words joined by single spaces, read back *)

Lemma Body_head words B :
  Body words B -> exists w rest, head words = Some w /\ B = w +:+ rest.
Proof.
  intros [w|w k words' B' _]; eexists _, _; split; try done.
  by rewrite append_nil_r.
Qed.

Lemma Body_starts class words B w :
  Body words B -> head words = Some w -> w <> "" ->
  starts_with class B = starts_with class w.
Proof.
  intros (w' & rest & Hw & ->)%Body_head Hw'. rewrite Hw in Hw'.
  injection Hw' as ->. by destruct w.
Qed.

Lemma Body_nonempty words B : Body words B -> Forall clean words -> B <> "".
Proof.
  intros HB Hc. destruct (Body_head _ _ HB) as (w & rest & Hw & ->).
  destruct words as [|w' words]; [done|]. injection Hw as ->.
  inversion_clear Hc as [|? ? [Hne _ _] _]. by destruct w.
Qed.

Lemma Body_split words B : Body words B -> Forall clean words -> split B = words.
Proof.
  induction 1 as [w|w k words B HB IH]; intros Hc.
  - inversion_clear Hc as [|? ? [_ Hd _] _]. by apply split_word.
  - inversion_clear Hc as [|? ? [_ Hd _] Hc']. rewrite split_word_spaces, IH; try done.
    destruct words as [|w' words]; [inversion HB|].
    rewrite (Body_starts _ _ _ w' HB); [|done|].
    + apply clean_starts. by inversion_clear Hc'.
    + inversion_clear Hc' as [|? ? [Hne _ _] _]. done.
Qed.

Lemma Body_trim_end words B :
  Body words B -> Forall clean words ->
  (forall w, last words = Some w -> trim_end w = w) ->
  trim_end B = B.
Proof.
  induction 1 as [w|w k words B HB IH]; intros Hc Hlast.
  - by apply Hlast.
  - inversion_clear Hc as [|? ? _ Hc'].
    rewrite <- append_assoc. apply trim_end_append.
    + apply IH; [done|]. intros w' Hw'. apply Hlast.
      destruct words; [inversion HB|]. done.
    + by eapply Body_nonempty.
Qed.

Lemma move_letters_apart_concat words :
  Forall clean words -> words <> [] ->
  exists B w1 wn,
    Body words B /\ head words = Some w1 /\ last words = Some wn /\
    move_letters_apart (String.concat " " words) =
    spaces (pad w1) +:+ B +:+ spaces (pad wn).
Proof.
  induction 1 as [|w words Hw Hc IH]; intros Hne; [done|].
  destruct words as [|w' words].
  - exists w, w, w. repeat split; [constructor|].
    simpl. by apply move_letters_apart_clean.
  - destruct IH as (B & w1 & wn & HB & H1 & Hn & E); [done|].
    injection H1 as <-.
    exists (w +:+ spaces (S (pad w + pad w')) +:+ B), w, wn.
    repeat split; [by constructor|done|].
    change (String.concat " " (w :: w' :: words))
      with (w +:+ " " +:+ String.concat " " (w' :: words)).
    rewrite !move_letters_apart_append, E, (move_letters_apart_clean w Hw).
    change (move_letters_apart " ") with (spaces 1).
    rewrite !append_assoc. do 2 f_equal.
    rewrite <- !append_assoc. do 2 f_equal.
    rewrite !spaces_add. f_equal. lia.
Qed.

(** Words that are joined by single spaces come back from moving the
    letters apart, trimming and splitting. *)
Lemma split_joined words :
  words <> [] -> Forall clean words ->
  (forall w, head words = Some w -> starts_with is_space w = false) ->
  (forall w, last words = Some w -> trim_end w = w) ->
  split (trim_end (trim_start (move_letters_apart (String.concat " " words))))
  = words.
Proof.
  intros Hne Hc Hhead Hlast.
  destruct (move_letters_apart_concat words Hc Hne)
    as (B & w1 & wn & HB & H1 & Hn & ->).
  rewrite trim_start_spaces, trim_start_id.
  - rewrite trim_end_spaces, (Body_trim_end words); auto using Body_split.
  - pose proof (Body_nonempty _ _ HB Hc) as HBne.
    assert (Hs : starts_with is_space B = false).
    { rewrite (Body_starts _ _ _ w1 HB H1); [by apply Hhead|].
      destruct words as [|w words]; [done|]. injection H1 as ->.
      by inversion_clear Hc as [|? ? [? _ _] _]. }
    by destruct B.
Qed.

(** *** The first and the last piece of a trimmed string *)

Lemma split_head_starts class s t :
  head (split s) = Some t -> starts_with class s = false ->
  starts_with class t = false.
Proof.
  unfold split. destruct s as [|c s]; [by intros [= <-]|].
  destruct (is_delim c) eqn:Hc.
  - destruct (split_on_starts_with is_delim (String c s)) as [ts ->]; [done|].
    by intros [= <-].
  - simpl. rewrite Hc. pose proof (split_on_nonempty is_delim s).
    destruct (split_on is_delim s); [done|]. by intros [= <-].
Qed.

Lemma split_on_single_empty s : split_on is_delim s = [""] -> s = "".
Proof.
  induction s as [|c s IH]; [done|]. simpl.
  pose proof (split_on_nonempty is_delim s).
  destruct (is_delim c).
  - destruct (starts_with is_delim s) eqn:Hs.
    + intros ->%IH. done.
    + destruct (split_on is_delim s); done.
  - destruct (split_on is_delim s); done.
Qed.

Lemma split_last_trim_end s t :
  last (split s) = Some t -> trim_end s = s -> trim_end t = t.
Proof.
  unfold split. revert t. induction s as [|c s IH]; intros t.
  - by intros [= <-].
  - intros Hlast Hs. pose proof (trim_end_tail _ _ Hs) as Hs'.
    pose proof (split_on_nonempty is_delim s) as Hne.
    simpl in Hlast. destruct (is_delim c) eqn:Hc.
    + apply IH; [|done]. destruct (starts_with is_delim s); [done|].
      rewrite last_cons in Hlast.
      destruct (last (split_on is_delim s)) eqn:E; [done|].
      apply last_None in E. done.
    + destruct (split_on is_delim s) as [|t' ts] eqn:E; [done|].
      destruct ts as [|t'' ts].
      * injection Hlast as <-.
        destruct t' as [|d t'].
        -- apply split_on_single_empty in E. by subst s.
        -- rewrite trim_end_cons. rewrite (IH (String d t')); done.
      * apply IH; [|done]. exact Hlast.
Qed.

End JoinFacts.

Section RoundTrip.

Import Re ReFacts Words JoinFacts.

Variable parseFloat : string -> float.
Variable numToString : float -> string.

Let print (piece : string) : string :=
  Spec.token_string numToString (classify parseFloat piece).

Lemma test_not_A_z_not_letter w : test in_A_z w = false -> test is_letter w = false.
Proof.
  intros H. destruct (test is_letter w) eqn:E; [|done].
  by rewrite (test_letter_A_z _ E) in H.
Qed.

Lemma test_starts class w : test class w = false -> starts_with class w = false.
Proof. destruct w as [|c w]; simpl; [done|]. by destruct (class c). Qed.

Lemma single_letter piece :
  test is_letter piece = true -> String.length piece = 1 ->
  exists c, piece = String c "" /\ is_letter c = true.
Proof.
  destruct piece as [|c [|d piece]]; simpl; try done.
  exists c. split; [done|]. by destruct (is_letter c).
Qed.

(** What a piece is printed as reads back as the token of the piece. *)
Lemma print_piece piece :
  test is_delim piece = false ->
  (test is_letter piece = true -> String.length piece = 1) ->
  (forall n, classify parseFloat piece = TNum n -> Spec.plain_numeral parseFloat numToString n) ->
  clean (print piece) /\
  classify parseFloat (print piece) = classify parseFloat piece /\
  (starts_with is_space piece = false -> starts_with is_space (print piece) = false) /\
  (trim_end piece = piece -> trim_end (print piece) = print piece).
Proof.
  intros Hd Hl Hn. unfold print, classify in *.
  destruct (test in_A_z piece) eqn:E; simpl in *.
  - rewrite E. simpl. repeat split; try done.
    + by destruct piece.
    + destruct (test is_letter piece) eqn:El; [left|by right].
      by apply single_letter; auto.
  - destruct (Hn _ eq_refl) as (Hne & HAz & Hdel & Hsp & Hparse).
    rewrite HAz. simpl. rewrite Hparse. repeat split; try done.
    + right. by apply test_not_A_z_not_letter.
    + intros _. by apply test_starts.
    + intros _. by apply trim_end_no_space.
Qed.

Lemma numbers_elem_of n arr : TNum n ∈ arr -> n ∈ Path.numbers arr.
Proof.
  induction arr as [|[c|m] arr IH]; simpl.
  - by intros ?%elem_of_nil.
  - intros [?|?]%elem_of_cons; [done|auto].
  - intros [[= ->]|?]%elem_of_cons; [left|right; auto].
Qed.


End RoundTrip.


(** ** The store, the deep merge and [mapChart] *)

Module StoreFacts.

Import Js Store.

(** *** Reading the boolean predicates *)

Lemma all_values_spec P (m : gmap string value) :
  all_values P m = true <-> forall k v, m !! k = Some v -> P v = true.
Proof.
  unfold all_values. rewrite forallb_forall. split.
  - intros H k v Hkv. apply (H (k, v)).
    by apply list_elem_of_In, elem_of_map_to_list.
  - intros H [k v] Hin%list_elem_of_In%elem_of_map_to_list. eauto.
Qed.

Lemma closed_spec (h : heap) :
  closed h = true <->
  forall l o, h !! l = Some o -> closed_props (length h) (props o) = true.
Proof.
  unfold closed. rewrite forallb_forall. split.
  - intros H l o Hl. apply H, list_elem_of_In. by eapply list_elem_of_lookup_2.
  - intros H o [l Hl]%list_elem_of_In%list_elem_of_lookup_1. eauto.
Qed.

Lemma closed_value_mono n n' v :
  n <= n' -> closed_value n v = true -> closed_value n' v = true.
Proof.
  destruct v; simpl; try done. rewrite !Nat.ltb_lt. lia.
Qed.

Lemma closed_props_mono n n' m :
  n <= n' -> closed_props n m = true -> closed_props n' m = true.
Proof.
  unfold closed_props. rewrite !all_values_spec.
  eauto using closed_value_mono.
Qed.

Lemma closed_props_lookup n (m : gmap string value) k v :
  closed_props n m = true -> m !! k = Some v -> closed_value n v = true.
Proof. unfold closed_props. rewrite all_values_spec. eauto. Qed.

Lemma closed_props_insert n (m : gmap string value) k v :
  closed_props n m = true -> closed_value n v = true ->
  closed_props n (<[k := v]> m) = true.
Proof.
  unfold closed_props. rewrite !all_values_spec. intros Hm Hv k' v'.
  rewrite lookup_insert. case_decide; [by intros [= <-]|eauto].
Qed.

Lemma closed_props_empty n : closed_props n ∅ = true.
Proof. by apply all_values_spec. Qed.

Lemma plain_props_own h v m : plain_props h v = Some m -> own_props h v = m.
Proof.
  destruct v as [| | | | |l]; simpl; try done.
  destruct (h !! l) as [[[] m']|]; by intros [= <-].
Qed.

Lemma plain_props_lookup h v m :
  plain_props h v = Some m <-> exists l, v = VRef l /\ h !! l = Some (Obj Plain m).
Proof.
  split.
  - destruct v as [| | | | |l]; simpl; try done.
    destruct (h !! l) as [[[] m']|] eqn:E; try done. intros [= <-]; eauto.
  - intros (l & -> & Hl). simpl. by rewrite Hl.
Qed.

Lemma plain_props_closed h v m :
  closed h = true -> plain_props h v = Some m ->
  closed_props (length h) m = true.
Proof.
  intros Hh (l & -> & Hl)%plain_props_lookup.
  by apply (proj1 (closed_spec h) Hh l (Obj Plain m)).
Qed.

Lemma own_props_closed h v :
  closed h = true -> closed_props (length h) (own_props h v) = true.
Proof.
  intros Hh. destruct v as [| | | | |l]; simpl; try apply closed_props_empty.
  destruct (h !! l) as [o|] eqn:Hl; [|apply closed_props_empty].
  by apply (proj1 (closed_spec h) Hh l o).
Qed.

Lemma shallow_spec h d m :
  shallow h d m = true <->
  forall k v m', m !! k = Some v -> plain_props h v = Some m' ->
    exists d', d = S d' /\ shallow h d' m' = true.
Proof.
  destruct d as [|d]; simpl; rewrite all_values_spec; split.
  - intros H k v m' Hk Hv. specialize (H k v Hk). by rewrite Hv in H.
  - intros H k v Hk. destruct (plain_props h v) as [m'|] eqn:Hv; [|done].
    by destruct (H k v m' Hk Hv) as (? & ? & _).
  - intros H k v m' Hk Hv. specialize (H k v Hk). rewrite Hv in H. eauto.
  - intros H k v Hk. destruct (plain_props h v) as [m'|] eqn:Hv; [|done].
    by destruct (H k v m' Hk Hv) as (? & [= <-] & ?).
Qed.

Lemma shallow_empty h d : shallow h d ∅ = true.
Proof. apply shallow_spec. intros k v m'. by rewrite lookup_empty. Qed.

Lemma shallow_mono h d d' m :
  d <= d' -> shallow h d m = true -> shallow h d' m = true.
Proof.
  revert d' m. induction d as [|d IH]; intros d' m Hd; rewrite !shallow_spec.
  - intros H k v m' Hk Hv. by destruct (H k v m' Hk Hv) as (? & ? & _).
  - intros H k v m' Hk Hv. destruct (H k v m' Hk Hv) as (? & [= <-] & ?).
    destruct d' as [|d']; [lia|]. exists d'. split; [done|]. apply IH; [lia|done].
Qed.

(** *** A store that keeps a tree *)

Section Keeps.

Variables h h' : heap.
Hypothesis Hclosed : closed h = true.
Hypothesis Hkinds : kinds_kept h h'.

Lemma keeps_plain_props (m : gmap string value) k v :
  closed_props (length h) m = true -> keeps h h' m -> m !! k = Some v ->
  plain_props h' v = plain_props h v.
Proof.
  intros Hm Hk Hv. pose proof (closed_props_lookup _ _ _ _ Hm Hv) as Hc.
  destruct v as [| | | | |l]; try done. unfold plain_props.
  apply Nat.ltb_lt, lookup_lt_is_Some in Hc as [o Ho].
  destruct (Hkinds l o Ho) as (o' & Ho' & Hkind).
  destruct o as [[] mo].
  - rewrite (Hk l), Ho; [done|]. eapply reach_here; [done|]. simpl. by rewrite Ho.
  - rewrite Ho, Ho'. destruct o' as [ko' mo']. simpl in Hkind. by subst.
Qed.

Lemma keeps_below (m : gmap string value) k v m' :
  keeps h h' m -> m !! k = Some v -> plain_props h v = Some m' -> keeps h h' m'.
Proof.
  intros Hk Hv Hp l Hl. apply Hk.
  pose proof Hp as (l0 & -> & _)%plain_props_lookup.
  by eapply reach_below.
Qed.

Lemma keeps_setting m p :
  closed_props (length h) m = true -> keeps h h' m ->
  setting h' m p = setting h m p.
Proof.
  revert m. induction p as [|k p IH]; intros m Hm Hk; simpl; [done|].
  destruct (m !! k) as [v|] eqn:Hv; [|done].
  rewrite (keeps_plain_props m k v) by done.
  destruct (plain_props h v) as [m'|] eqn:Hp; [|done].
  destruct p as [|k' p]; [done|].
  apply IH; eauto using plain_props_closed, keeps_below.
Qed.

Lemma keeps_untouched m p :
  closed_props (length h) m = true -> keeps h h' m ->
  untouched h' m p = untouched h m p.
Proof.
  revert m. induction p as [|k p IH]; intros m Hm Hk; simpl; [done|].
  destruct (m !! k) as [v|] eqn:Hv; [|done].
  rewrite (keeps_plain_props m k v) by done.
  destruct (plain_props h v) as [m'|] eqn:Hp; [|done].
  destruct p as [|k' p]; [done|].
  apply IH; eauto using plain_props_closed, keeps_below.
Qed.

Lemma keeps_shallow d m :
  closed_props (length h) m = true -> keeps h h' m ->
  shallow h d m = true -> shallow h' d m = true.
Proof.
  revert m. induction d as [|d IH]; intros m Hm Hk; rewrite !shallow_spec;
    intros H k v m' Hv Hp; rewrite (keeps_plain_props m k v) in Hp by done;
    destruct (H k v m' Hv Hp) as (d' & Hd & Hd'); [done|].
  injection Hd as <-. exists d. split; [done|].
  apply IH; eauto using plain_props_closed, keeps_below.
Qed.

Lemma keeps_reach m l :
  closed_props (length h) m = true -> keeps h h' m ->
  reach h' m l -> reach h m l.
Proof.
  intros Hm Hk Hr. induction Hr as [m k l m' Hv Hp|m k l m' l' Hv Hp Hr IH].
  - rewrite (keeps_plain_props m k (VRef l)) in Hp by done.
    by eapply reach_here.
  - rewrite (keeps_plain_props m k (VRef l)) in Hp by done.
    eapply reach_below; [done..|].
    apply IH; eauto using plain_props_closed, keeps_below.
Qed.

End Keeps.

End StoreFacts.

Module MonadFacts.

Lemma bind_Ok {A B} (m : M A) (f : A -> M B) h b h'' :
  (m ≫= f) h = Ok (b, h'') <->
  exists a h', m h = Ok (a, h') /\ f a h' = Ok (b, h'').
Proof.
  unfold mbind, M_bind. split.
  - destruct (m h) as [[a h']|?|]; [eauto|done..].
  - by intros (a & h' & -> & ?).
Qed.

Lemma bind_inv {A B} (m : M A) (f : A -> M B) h b h'' :
  (m ≫= f) h = Ok (b, h'') ->
  exists a h', m h = Ok (a, h') /\ f a h' = Ok (b, h'').
Proof. apply bind_Ok. Qed.

Lemma ret_inv {A} (a b : A) h h' :
  (mret a : M A) h = Ok (b, h') -> a = b /\ h = h'.
Proof. unfold mret, M_ret. by intros [= -> ->]. Qed.

Lemma bind_run {A B} (m : M A) (f : A -> M B) h a h' :
  m h = Ok (a, h') -> (m ≫= f) h = f a h'.
Proof. unfold mbind, M_bind. by intros ->. Qed.

Lemma ret_Ok {A} (a b : A) h h' :
  (mret a : M A) h = Ok (b, h') <-> a = b /\ h = h'.
Proof. unfold mret, M_ret. split; [by intros [= -> ->]|by intros [-> ->]]. Qed.

End MonadFacts.

Module ExtendFacts.

Import Js Store StoreFacts.

Lemma reach_plain h m l : reach h m l -> exists ml, plain_props h (VRef l) = Some ml.
Proof. induction 1; eauto. Qed.

Lemma reach_lt h m l : reach h m l -> l < length h.
Proof.
  intros (ml & (l' & [= <-] & Hl)%plain_props_lookup)%reach_plain.
  by eapply lookup_lt_Some.
Qed.

Lemma extends_kinds_kept (h h' : heap) : h `prefix_of` h' -> kinds_kept h h'.
Proof. intros Hp l o Hl. exists o. eauto using prefix_lookup_Some. Qed.

Lemma extends_keeps (h h' : heap) m : h `prefix_of` h' -> keeps h h' m.
Proof.
  intros Hp l Hl. pose proof (reach_lt _ _ _ Hl) as [o Ho]%lookup_lt_is_Some.
  rewrite Ho. eauto using prefix_lookup_Some.
Qed.

Section Extends.

Variables h h' : heap.
Hypothesis Hclosed : closed h = true.
Hypothesis Hext : h `prefix_of` h'.

Lemma extends_plain_props v :
  closed_value (length h) v = true -> plain_props h' v = plain_props h v.
Proof.
  intros Hv.
  eapply (keeps_plain_props h h') with (m := {["x" := v]}) (k := "x").
  - by apply extends_kinds_kept.
  - apply all_values_spec. intros k v'. rewrite lookup_singleton.
    case_decide; [by intros [= <-]|done].
  - by apply extends_keeps.
  - by rewrite lookup_singleton_eq.
Qed.

Lemma extends_setting m p :
  closed_props (length h) m = true -> setting h' m p = setting h m p.
Proof.
  intros. apply keeps_setting; auto using extends_kinds_kept, extends_keeps.
Qed.

Lemma extends_untouched m p :
  closed_props (length h) m = true -> untouched h' m p = untouched h m p.
Proof.
  intros. apply keeps_untouched; auto using extends_kinds_kept, extends_keeps.
Qed.

Lemma extends_shallow d m :
  closed_props (length h) m = true ->
  shallow h d m = true -> shallow h' d m = true.
Proof.
  intros. apply (keeps_shallow h); auto using extends_kinds_kept, extends_keeps.
Qed.

Lemma extends_fresh n m :
  closed_props (length h) m = true -> fresh n h m -> fresh n h' m.
Proof.
  intros Hm Hf k l m' Hk Hl.
  rewrite extends_plain_props in Hl by eauto using closed_props_lookup.
  eauto.
Qed.

Lemma extends_length : length h <= length h'.
Proof. by apply prefix_length. Qed.

End Extends.

Lemma closed_alloc h o :
  closed h = true -> closed_props (length h) (props o) = true ->
  closed (h ++ [o]) = true.
Proof.
  intros Hh Ho. apply closed_spec. intros l o' Hl.
  rewrite length_app. simpl.
  apply lookup_app_Some in Hl as [Hl|[_ Hl]].
  - eapply closed_props_mono; [|by eapply (proj1 (closed_spec h))]. lia.
  - apply list_lookup_singleton_Some in Hl as [_ <-].
    eapply closed_props_mono; [|done]. lia.
Qed.

Lemma plain_props_alloc h m :
  plain_props (h ++ [Obj Plain m]) (VRef (length h)) = Some m.
Proof. simpl. by rewrite list_lookup_middle. Qed.

Lemma fresh_region_alloc n h m :
  closed h = true -> closed_props (length h) m = true ->
  fresh_region n h -> fresh n h m ->
  fresh_region n (h ++ [Obj Plain m]).
Proof.
  intros Hh Hm Hr Hf l o Hn Hl.
  assert (Hp : h `prefix_of` h ++ [Obj Plain m]) by by apply prefix_app_r.
  apply lookup_app_Some in Hl as [Hl|[_ Hl]].
  - apply (extends_fresh h); eauto. by apply (proj1 (closed_spec h) Hh l).
  - apply list_lookup_singleton_Some in Hl as [_ <-]. by apply (extends_fresh h).
Qed.

End ExtendFacts.

Module MergeFacts.

Import Js Store StoreFacts MonadFacts ExtendFacts MergeSpec.

Lemma setting_head h (m m' : gmap string value) k p :
  m !! k = m' !! k -> setting h m (k :: p) = setting h m' (k :: p).
Proof. simpl. by intros ->. Qed.

Lemma untouched_head h (m m' : gmap string value) k p :
  m !! k = m' !! k -> untouched h m (k :: p) = untouched h m' (k :: p).
Proof. simpl. by intros ->. Qed.

Lemma setting_nil_None h m w : setting h m [] = Some w -> False.
Proof. done. Qed.

Lemma fresh_insert n h (m : gmap string value) k v :
  fresh n h m ->
  (forall l m', v = VRef l -> plain_props h v = Some m' -> n <= l) ->
  fresh n h (<[k := v]> m).
Proof.
  intros Hm Hv k' l m'. rewrite lookup_insert.
  case_decide; [intros [= ->]; eauto|apply Hm].
Qed.

Lemma fresh_empty n h : fresh n h ∅.
Proof. by intros k l m'. Qed.

Lemma shallow_insert_inv h d (m : gmap string value) k v :
  m !! k = None -> shallow h d (<[k := v]> m) = true ->
  shallow h d {[k := v]} = true /\ shallow h d m = true.
Proof.
  rewrite !shallow_spec. intros Hk H. split.
  - intros k' v' m'. rewrite lookup_singleton.
    case_decide; [|done]. intros [= <-]. subst k'.
    apply (H k). by rewrite lookup_insert_eq.
  - intros k' v' m' Hk'. apply (H k'). rewrite lookup_insert_ne; [done|].
    by intros ->; rewrite Hk in Hk'.
Qed.

Section Entry.

Variable rec : gmap string value -> gmap string value -> M (gmap string value).
Hypothesis Hrec : copy_correct rec.

(** The target of the recursive call for the property [k]. *)
Lemma target_pre n h copy k other original :
  copy_pre n h copy other ->
  closed_props (length h) original = true ->
  copy_pre n h (default ∅ (copy !! k ≫= plain_props h)) original.
Proof.
  intros [Hh Hc _ Hn Hf Hr] Ho. split; try done.
  - destruct (copy !! k) as [u|]; simpl; [|apply closed_props_empty].
    destruct (plain_props h u) eqn:E; simpl; [|apply closed_props_empty].
    by eapply plain_props_closed.
  - destruct (copy !! k) as [u|] eqn:Hu; simpl; [|apply fresh_empty].
    destruct (plain_props h u) as [mu|] eqn:E; simpl; [|apply fresh_empty].
    pose proof E as (l & -> & Hl)%plain_props_lookup.
    apply (Hr l (Obj Plain mu)); [|done]. by eapply Hf.
Qed.

Lemma copy_entry_correct n h copy k v c1 h1 :
  copy_pre n h copy {[k := v]} ->
  copy_entry rec copy (k, v) h = Ok (c1, h1) ->
  copy_post n h copy {[k := v]} c1 h1.
Proof.
  intros Hpre. pose proof Hpre as [Hh Hc Ho Hn Hf Hr].
  assert (Hv : closed_value (length h) v = true).
  { eapply closed_props_lookup; [done|]. by rewrite lookup_singleton_eq. }
  unfold copy_entry. simpl.
  destruct (plain_props h v) as [original|] eqn:Hplain.
  - (* a nested configuration object *)
    intros (merged & h0 & Hcall & Hrest)%bind_inv.
    apply bind_inv in Hrest. destruct Hrest as [nested [h2 [Halloc Hret]]].
    injection Halloc as <- <-. apply ret_inv in Hret as [<- <-].
    set (target := default ∅ (copy !! k ≫= plain_props h)) in *.
    assert (Horig : closed_props (length h) original = true)
      by by eapply plain_props_closed.
    assert (Hpre' : copy_pre n h target original).
    { by eapply target_pre. }
    destruct (Hrec _ _ _ _ _ _ Hpre' Hcall)
      as [Hext0 Hh0 Hm0 Hset0 Hkept0 Hsh0 Hf0 Hr0].
    assert (Hext : h0 `prefix_of` h0 ++ [Obj Plain merged]) by by apply prefix_app_r.
    assert (Hh1 : closed (h0 ++ [Obj Plain merged]) = true) by by apply closed_alloc.
    assert (Hlen : length h <= length h0) by by apply prefix_length.
    split.
    + by trans h0.
    + done.
    + rewrite length_app. simpl. apply closed_props_insert.
      * eapply closed_props_mono; [|done]. lia.
      * simpl. apply Nat.ltb_lt. lia.
    + intros [|k0 p] w; [done|]. simpl. rewrite lookup_singleton.
      case_decide as Hk; [subst k0|done]. rewrite Hplain, lookup_insert_eq.
      rewrite plain_props_alloc. destruct p as [|k1 p]; [done|].
      intros Hs%Hset0.
      by rewrite (extends_setting h0 (h0 ++ [Obj Plain merged])).
    + intros [|k0 p] w; [done|]. simpl. rewrite lookup_singleton.
      case_decide as Hk; [subst k0|].
      * rewrite Hplain, lookup_insert_eq, plain_props_alloc.
        destruct p as [|k1 p]; [done|]. intros Hu.
        destruct (copy !! k) as [u|] eqn:Hcu; [|done].
        destruct (plain_props h u) as [mu|] eqn:Hmu; [|done].
        subst target. simpl in Hkept0. rewrite Hmu in Hkept0. simpl in Hkept0.
        intros Hs. rewrite (extends_setting h0 (h0 ++ [Obj Plain merged])) by done.
        by apply Hkept0.
      * intros _. rewrite lookup_insert_ne by done.
        destruct (copy !! k0) as [u|] eqn:Hcu; [|done].
        assert (Hu : closed_value (length h) u = true)
          by exact (closed_props_lookup _ _ _ _ Hc Hcu).
        rewrite (extends_plain_props h (h0 ++ [Obj Plain merged]))
          by (done || by trans h0).
        destruct (plain_props h u) as [mu|] eqn:Hmu; [|done].
        destruct p as [|k1 p]; [done|].
        rewrite (extends_setting h (h0 ++ [Obj Plain merged]))
          by (done || (by trans h0) || by eapply plain_props_closed).
        done.
    + intros d Hdc Hdo. apply shallow_spec. intros k' v' m'.
      pose proof (proj1 (shallow_spec _ _ _) Hdo k v original) as (d' & -> & Hd');
        [by rewrite lookup_singleton_eq|done|].
      rewrite lookup_insert. case_decide as Hk; [subst k'|].
      * intros [= <-]. rewrite plain_props_alloc. intros [= <-].
        exists d'. split; [done|]. apply (extends_shallow h0); [done..|].
        apply Hsh0; [|done]. subst target.
        destruct (copy !! k) as [u|] eqn:Hcu; [|apply shallow_empty].
        simpl. destruct (plain_props h u) as [mu|] eqn:Hmu; [|apply shallow_empty].
        simpl. by pose proof (proj1 (shallow_spec _ _ _) Hdc k u mu Hcu Hmu)
          as (? & [= <-] & ?).
      * intros Hcu.
        rewrite (extends_plain_props h (h0 ++ [Obj Plain merged]))
          by (by trans h0 || exact (closed_props_lookup _ _ _ _ Hc Hcu)).
        intros Hmu.
        pose proof (proj1 (shallow_spec _ _ _) Hdc k' v' m' Hcu Hmu)
          as (d'' & [= <-] & ?).
        exists d'. split; [done|].
        apply (extends_shallow h); [done|by trans h0| |done].
        by eapply plain_props_closed.
    + apply fresh_insert.
      * apply (extends_fresh h); [by trans h0|done..].
      * intros l m' [= <-] _. lia.
    + apply fresh_region_alloc; auto.
  - (* anything else is copied over directly *)
    intros [= <- <-]. split; try done.
    + by apply closed_props_insert.
    + intros [|k0 p] w; [done|]. simpl. rewrite lookup_singleton.
      case_decide as Hk; [subst k0|done]. by rewrite Hplain, lookup_insert_eq, Hplain.
    + intros [|k0 p] w; [done|]. simpl. rewrite lookup_singleton.
      case_decide as Hk; [subst k0; by rewrite Hplain|].
      by rewrite lookup_insert_ne.
    + intros d Hdc _. apply shallow_spec. intros k' v' m'.
      rewrite lookup_insert. case_decide as Hk; [subst k'|].
      * intros [= <-]. by rewrite Hplain.
      * apply (proj1 (shallow_spec _ _ _) Hdc).
    + apply fresh_insert; [done|]. intros l m' _. by rewrite Hplain.
Qed.

Lemma closed_props_insert_inv n (m : gmap string value) k v :
  m !! k = None -> closed_props n (<[k := v]> m) = true ->
  closed_value n v = true /\ closed_props n m = true.
Proof.
  unfold closed_props. rewrite !all_values_spec. intros Hk H. split.
  - apply (H k). by rewrite lookup_insert_eq.
  - intros k' v' Hk'. apply (H k'). rewrite lookup_insert_ne; [done|].
    by intros ->; rewrite Hk in Hk'.
Qed.

Lemma closed_props_singleton n k v :
  closed_value n v = true -> closed_props n {[k := v]} = true.
Proof.
  intros Hv. apply all_values_spec. intros k' v'. rewrite lookup_singleton.
  case_decide; [by intros [= <-]|done].
Qed.

(** One property after the other. *)
Lemma copy_post_compose n h copy k v c1 h1 (rest : gmap string value) c' h' :
  closed h = true -> closed_props (length h) rest = true -> rest !! k = None ->
  copy_post n h copy {[k := v]} c1 h1 ->
  copy_post n h1 c1 rest c' h' ->
  copy_post n h copy (<[k := v]> rest) c' h'.
Proof.
  intros Hh Hrest Hk [Hext1 Hh1 Hc1 Hset1 Hkept1 Hsh1 Hf1 Hr1]
    [Hext2 Hh2 Hc2 Hset2 Hkept2 Hsh2 Hf2 Hr2].
  split; try done.
  - by trans h1.
  - intros [|k0 p] w; [done|]. destruct (decide (k0 = k)) as [->|Hne].
    + rewrite (setting_head h _ {[k := v]})
        by by rewrite lookup_insert_eq, lookup_singleton_eq.
      intros Hs%Hset1. apply Hkept2; [|done]. simpl. by rewrite Hk.
    + rewrite (setting_head h _ rest) by by rewrite lookup_insert_ne.
      intros Hs. apply Hset2. by rewrite (extends_setting h h1).
  - intros [|k0 p] w; [done|]. destruct (decide (k0 = k)) as [->|Hne].
    + rewrite (untouched_head h _ {[k := v]})
        by by rewrite lookup_insert_eq, lookup_singleton_eq.
      intros Hu Hs. apply Hkept2; [simpl; by rewrite Hk|]. by apply Hkept1.
    + rewrite (untouched_head h _ rest) by by rewrite lookup_insert_ne.
      intros Hu Hs. apply Hkept2.
      * by rewrite (extends_untouched h h1).
      * apply Hkept1; [|done]. simpl. by rewrite lookup_singleton_ne.
  - intros d Hdc [Hd1 Hdr]%shallow_insert_inv; [|done].
    apply Hsh2; [by apply Hsh1|]. by apply (extends_shallow h).
Qed.

Lemma copy_entries_correct kvs :
  NoDup kvs.*1 ->
  forall n h copy c' h',
    copy_pre n h copy (list_to_map kvs) ->
    copy_entries rec copy kvs h = Ok (c', h') ->
    copy_post n h copy (list_to_map kvs) c' h'.
Proof.
  induction kvs as [|[k v] kvs IH]; intros Hnd n h copy c' h' Hpre.
  - intros [<- <-]%ret_inv. destruct Hpre. split; try done.
    by intros [|k p] w.
  - simpl. intros (c1 & h1 & Hentry & Hrest)%bind_inv.
    apply NoDup_cons in Hnd as [Hk Hnd].
    apply not_elem_of_list_to_map_1 in Hk.
    pose proof Hpre as [Hh Hc Ho Hn Hf Hr]. simpl in Ho.
    apply closed_props_insert_inv in Ho as [Hv Ho]; [|done].
    assert (Hpost1 : copy_post n h copy {[k := v]} c1 h1).
    { eapply copy_entry_correct; [|done]. split; try done.
      by apply closed_props_singleton. }
    apply copy_post_compose with c1 h1; try done.
    apply IH; [done| |done]. destruct Hpost1. split; try done.
    + eapply closed_props_mono; [|done]. by apply prefix_length.
    + trans (length h); [done|]. by apply prefix_length.
Qed.

End Entry.

(** [doCopy] is correct whatever fuel it has. *)
Theorem doCopy_correct fuel : copy_correct (doCopy fuel).
Proof.
  induction fuel as [|fuel IH]; intros n h copy original c' h' Hpre Hrun; [done|].
  simpl in Hrun.
  pose proof (copy_entries_correct (doCopy fuel) IH (map_to_list original)
                (NoDup_fst_map_to_list _) n h copy c' h') as H.
  rewrite list_to_map_to_list in H. by apply H.
Qed.

(** *** Termination *)

Section Total.

Variable rec : gmap string value -> gmap string value -> M (gmap string value).
Variable d : nat.
Hypothesis Hrec : copy_correct rec.
Hypothesis Htotal : forall d', d = S d' -> copy_total d' rec.

Lemma copy_entry_total n h copy k v :
  copy_pre n h copy {[k := v]} -> shallow h d {[k := v]} = true ->
  exists c1 h1, copy_entry rec copy (k, v) h = Ok (c1, h1).
Proof.
  intros Hpre Hd. unfold copy_entry. simpl.
  destruct (plain_props h v) as [original|] eqn:Hplain; [|eauto].
  pose proof (proj1 (shallow_spec _ _ _) Hd k v original) as (d' & Ed & Hd');
    [by rewrite lookup_singleton_eq|done|].
  destruct (Htotal d' Ed n h (default ∅ (copy !! k ≫= plain_props h)) original)
    as (merged & h0 & Hcall); [|done|].
  { eapply target_pre; [done|]. destruct Hpre. by eapply plain_props_closed. }
  eexists _, _. rewrite (bind_run _ _ _ _ _ Hcall).
  unfold alloc. by rewrite (bind_run _ _ _ _ _ eq_refl).
Qed.

Lemma copy_entries_total kvs :
  NoDup kvs.*1 ->
  forall n h copy,
    copy_pre n h copy (list_to_map kvs) ->
    shallow h d (list_to_map kvs) = true ->
    exists c' h', copy_entries rec copy kvs h = Ok (c', h').
Proof.
  induction kvs as [|[k v] kvs IH]; intros Hnd n h copy Hpre Hd.
  - by eexists _, _.
  - apply NoDup_cons in Hnd as [Hk Hnd].
    apply not_elem_of_list_to_map_1 in Hk.
    pose proof Hpre as [Hh Hc Ho Hn Hf Hr]. simpl in Ho, Hd.
    apply closed_props_insert_inv in Ho as [Hv Ho]; [|done].
    apply shallow_insert_inv in Hd as [Hd1 Hd]; [|done].
    assert (Hpre1 : copy_pre n h copy {[k := v]}).
    { split; try done. by apply closed_props_singleton. }
    destruct (copy_entry_total n h copy k v Hpre1 Hd1) as (c1 & h1 & Hentry).
    pose proof (copy_entry_correct rec Hrec _ _ _ _ _ _ _ Hpre1 Hentry)
      as [Hext1 Hh1 Hc1 _ _ _ Hf1 Hr1].
    destruct (IH Hnd n h1 c1) as (c' & h' & Hrest).
    + split; try done.
      * eapply closed_props_mono; [|done]. by apply prefix_length.
      * trans (length h); [done|]. by apply prefix_length.
    + by apply (extends_shallow h).
    + exists c', h'. simpl. by rewrite (bind_run _ _ _ _ _ Hentry).
Qed.

End Total.

(** [doCopy] returns when its fuel exceeds the depth of the original. *)
Theorem doCopy_total fuel d : d < fuel -> copy_total d (doCopy fuel).
Proof.
  revert d. induction fuel as [|fuel IH]; intros d Hd; [lia|].
  intros n h copy original Hpre Hshallow. simpl.
  apply (copy_entries_total (doCopy fuel) d (doCopy_correct fuel)) with (n := n).
  - intros d' ->. apply IH. lia.
  - apply NoDup_fst_map_to_list.
  - by rewrite list_to_map_to_list.
  - by rewrite list_to_map_to_list.
Qed.

End MergeFacts.

Module MergeArgsFacts.

Import Js Store StoreFacts MonadFacts ExtendFacts MergeSpec MergeFacts.

Lemma own_props_extends (h h' : heap) v :
  h `prefix_of` h' -> closed_value (length h) v = true ->
  own_props h' v = own_props h v.
Proof.
  intros Hp Hv. destruct v as [| | | | |l]; try done. simpl in *.
  apply Nat.ltb_lt, lookup_lt_is_Some in Hv as [o Ho].
  by rewrite Ho, (prefix_lookup_Some _ _ _ _ Ho Hp).
Qed.

Lemma overlay_mono h acc acc' layers p w :
  (forall w, acc = Some w -> acc' = Some w) ->
  overlay h acc layers p = Some w -> overlay h acc' layers p = Some w.
Proof.
  revert acc acc'. induction layers as [|m layers IH]; intros acc acc' Hacc; simpl.
  - apply Hacc.
  - apply IH. intros w'. destruct (setting h m p); [done|].
    destruct (untouched h m p); [apply Hacc|done].
Qed.

Lemma overlay_extends h h' acc layers p :
  closed h = true -> h `prefix_of` h' ->
  Forall (fun m => closed_props (length h) m = true) layers ->
  overlay h' acc layers p = overlay h acc layers p.
Proof.
  intros Hh Hp Hl. revert acc.
  induction Hl as [|m layers Hm _ IH]; intros acc; simpl.
  - done.
  - by rewrite (extends_setting h h'), (extends_untouched h h'), IH.
Qed.

Lemma overlay_last h acc layers m p w :
  setting h m p = Some w -> overlay h acc (layers ++ [m]) p = Some w.
Proof.
  revert acc. induction layers as [|m' layers IH]; intros acc Hs; simpl.
  - by rewrite Hs.
  - by apply IH.
Qed.

Lemma merge_args_correct fuel args :
  forall n h ret ret' h',
    copy_pre n h ret ∅ ->
    Forall (fun a => closed_value (length h) a = true) args ->
    merge_args fuel ret args h = Ok (ret', h') ->
    merge_post n h ret args ret' h'.
Proof.
  induction args as [|a args IH]; intros n h ret ret' h' Hpre Hargs.
  - intros [<- <-]%ret_inv. destruct Hpre. by split.
  - simpl. intros (ret1 & h1 & Hcopy & Hrest)%bind_inv.
    pose proof Hpre as [Hh Hc _ Hn Hf Hr].
    apply Forall_cons in Hargs as [Ha Hargs].
    assert (Hpre1 : copy_pre n h ret (own_props h a)).
    { split; try done. by apply own_props_closed. }
    destruct (doCopy_correct fuel _ _ _ _ _ _ Hpre1 Hcopy)
      as [Hext1 Hh1 Hc1 Hset1 Hkept1 Hsh1 Hf1 Hr1].
    assert (Hlen : length h <= length h1) by by apply prefix_length.
    destruct (IH n h1 ret1 ret' h') as [Hext2 Hh2 Hc2 Hf2 Hr2 Hsh2 Hov2]; try done.
    + split; try done; try apply closed_props_empty; lia.
    + eapply Forall_impl; [exact Hargs|]. intros v. by apply closed_value_mono.
    + split; try done; [by trans h1| |].
      { intros d Hdr [Hda Hdargs]%Forall_cons. apply Hsh2; [by apply Hsh1|].
        apply Forall_forall. intros v Hv.
        rewrite Forall_forall in Hargs, Hdargs.
        rewrite (own_props_extends h h1) by auto.
        apply (extends_shallow h); auto using own_props_closed. }
      intros p w Hov. apply Hov2.
      assert (Hlayers : Forall (fun m => closed_props (length h) m = true)
                          (map (own_props h) args)).
      { apply Forall_fmap, Forall_true. intros v. by apply own_props_closed. }
      replace (map (own_props h1) args) with (map (own_props h) args).
      2:{ apply Forall_fmap_ext_1. eapply Forall_impl; [exact Hargs|].
          intros v Hv. simpl. by rewrite (own_props_extends h h1). }
      rewrite (overlay_extends h h1) by done.
      eapply overlay_mono; [|exact Hov]. intros w'.
      destruct (setting h (own_props h a) p) as [w0|] eqn:Hs.
      * intros [= <-]. by apply Hset1.
      * destruct (untouched h (own_props h a) p) eqn:Hu; [|done].
        by apply Hkept1.
Qed.

Lemma merge_args_total fuel d args :
  d < fuel ->
  forall n h ret,
    copy_pre n h ret ∅ ->
    Forall (fun a => closed_value (length h) a = true) args ->
    Forall (fun a => shallow h d (own_props h a) = true) args ->
    exists ret' h', merge_args fuel ret args h = Ok (ret', h').
Proof.
  intros Hd. induction args as [|a args IH]; intros n h ret Hpre Hargs Hsh.
  - by eexists _, _.
  - pose proof Hpre as [Hh Hc _ Hn Hf Hr].
    apply Forall_cons in Hargs as [Ha Hargs].
    apply Forall_cons in Hsh as [Hsa Hsh].
    assert (Hpre1 : copy_pre n h ret (own_props h a)).
    { split; try done. by apply own_props_closed. }
    destruct (doCopy_total fuel d Hd n h ret _ Hpre1 Hsa) as (ret1 & h1 & Hcopy).
    destruct (doCopy_correct fuel _ _ _ _ _ _ Hpre1 Hcopy)
      as [Hext1 Hh1 Hc1 _ _ _ Hf1 Hr1].
    assert (Hlen : length h <= length h1) by by apply prefix_length.
    destruct (IH n h1 ret1) as (ret' & h' & Hrest).
    + split; try done; try apply closed_props_empty; lia.
    + eapply Forall_impl; [exact Hargs|]. intros v. by apply closed_value_mono.
    + apply Forall_forall. intros v Hv.
      rewrite Forall_forall in Hargs, Hsh.
      rewrite (own_props_extends h h1) by auto.
      apply (extends_shallow h); auto using own_props_closed.
    + exists ret', h'. simpl.
      by rewrite (bind_run _ _ h (ret1) h1).
Qed.

Lemma merge_result_inv h args hf R :
  merge_result h args (VRef (length hf)) (hf ++ [Obj Plain R]) ->
  h `prefix_of` hf /\ closed hf = true /\
  closed (hf ++ [Obj Plain R]) = true /\
  closed_props (length hf) R = true /\
  fresh (length h) (hf ++ [Obj Plain R]) R /\
  fresh_region (length h) (hf ++ [Obj Plain R]) /\
  (forall d,
     Forall (fun a => shallow h d (own_props h a) = true) args ->
     shallow (hf ++ [Obj Plain R]) d R = true) /\
  (forall p w,
     overlay h None (map (own_props h) args) p = Some w ->
     setting (hf ++ [Obj Plain R]) R p = Some w).
Proof.
  inversion 1 as [R' hf' ? ? ? ? ? ? ? ? Er Ehf].
  apply app_inj_tail in Ehf as [-> [= ->]]. by repeat split.
Qed.

Lemma setting_empty h p : setting h ∅ p = None.
Proof. destruct p; [done|]. simpl. by rewrite lookup_empty. Qed.

Lemma merge_pre h : closed h = true -> copy_pre (length h) h ∅ ∅.
Proof.
  intros Hh. split; try done; try apply closed_props_empty.
  intros l o Hl Ho. apply lookup_lt_Some in Ho. lia.
Qed.

Theorem merge_correct fuel args h r h' :
  closed h = true ->
  Forall (fun a => closed_value (length h) a = true) args ->
  merge fuel args h = Ok (r, h') ->
  merge_result h args r h'.
Proof.
  intros Hh Hargs. unfold merge.
  intros (ret & h1 & Hmerge & Halloc)%bind_inv. injection Halloc as <- <-.
  destruct (merge_args_correct fuel args _ _ _ _ _ (merge_pre h Hh) Hargs Hmerge)
    as [Hext Hh1 Hret Hf Hr Hsh Hov].
  assert (Hp : h1 `prefix_of` h1 ++ [Obj Plain ret]) by by apply prefix_app_r.
  constructor; try done.
  - by apply closed_alloc.
  - by apply (extends_fresh h1).
  - by apply fresh_region_alloc.
  - intros d Hd. apply (extends_shallow h1); [done..|].
    apply Hsh; [apply shallow_empty|done].
  - intros p w Hw. rewrite (extends_setting h1) by done. apply Hov.
    by rewrite setting_empty.
Qed.

Theorem merge_total fuel d args h :
  d < fuel -> closed h = true ->
  Forall (fun a => closed_value (length h) a = true) args ->
  Forall (fun a => shallow h d (own_props h a) = true) args ->
  exists r h', merge fuel args h = Ok (r, h').
Proof.
  intros Hd Hh Hargs Hsh.
  destruct (merge_args_total fuel d args Hd _ h ∅ (merge_pre h Hh) Hargs Hsh)
    as (ret & h1 & Hmerge).
  eexists _, _. unfold merge. by rewrite (bind_run _ _ _ _ _ Hmerge).
Qed.

End MergeArgsFacts.

Module TreeFacts.

Import Js Store StoreFacts MonadFacts ExtendFacts MergeSpec MergeFacts.

Lemma reach_fresh n h m l :
  fresh n h m -> fresh_region n h -> reach h m l -> n <= l.
Proof.
  intros Hf Hr Hl. induction Hl as [m k l m' Hk Hp|m k l m' l' Hk Hp _ IH].
  - by eapply Hf.
  - apply IH. pose proof Hp as (? & [= <-] & Hl)%plain_props_lookup.
    apply (Hr l (Obj Plain m')); [|done]. by eapply Hf.
Qed.

(** A plain object below a tree lies less deep than the tree. *)
Lemma reach_shallow h m l ml d :
  reach h m l -> plain_props h (VRef l) = Some ml -> shallow h d m = true ->
  exists d', d' < d /\ shallow h d' ml = true.
Proof.
  intros Hl. revert d.
  induction Hl as [m k l m' Hk Hp|m k l m' l' Hk Hp _ IH]; intros d Hml Hd.
  - rewrite Hp in Hml. injection Hml as <-.
    destruct (proj1 (shallow_spec _ _ _) Hd k _ _ Hk Hp) as (d' & -> & ?).
    exists d'. split; [lia|done].
  - destruct (proj1 (shallow_spec _ _ _) Hd k _ _ Hk Hp) as (d' & -> & Hd').
    destruct (IH d' Hml Hd') as (d'' & ? & ?). exists d''. split; [lia|done].
Qed.

(** A tree of bounded depth does not hold the object it hangs from. *)
Lemma shallow_acyclic h o mo d :
  plain_props h (VRef o) = Some mo -> shallow h d mo = true -> ~ reach h mo o.
Proof.
  intros Hp. induction (lt_wf d) as [d _ IH]. intros Hd Hr.
  destruct (reach_shallow _ _ _ _ _ Hr Hp Hd) as (d' & Hlt & Hd').
  by apply (IH d' Hlt).
Qed.

Lemma reach_insert_leaf h (m : gmap string value) k v l :
  plain_props h v = None -> reach h (<[k := v]> m) l -> reach h m l.
Proof.
  intros Hv Hl. remember (<[k := v]> m) as m1 eqn:E.
  destruct Hl as [m1 k' l m' Hk Hp|m1 k' l0 m' l Hk Hp Hl]; subst m1;
    rewrite lookup_insert in Hk; case_decide; simplify_eq;
    try (by rewrite Hp in Hv).
  - by eapply reach_here.
  - by eapply reach_below.
Qed.

Lemma shallow_insert_leaf h d (m : gmap string value) k v :
  plain_props h v = None -> shallow h d m = true ->
  shallow h d (<[k := v]> m) = true.
Proof.
  intros Hv Hd. apply shallow_spec. intros k' v' m'.
  rewrite lookup_insert. case_decide.
  - intros [= <-]. by rewrite Hv.
  - apply (proj1 (shallow_spec _ _ _) Hd).
Qed.

Lemma get_path_setting h v m p w :
  own_props h v = m -> setting h m p = Some w -> get_path h v p = w.
Proof.
  revert v m. induction p as [|k p IH]; intros v m Hm; [done|]. simpl.
  unfold prop. rewrite Hm.
  destruct (m !! k) as [u|]; [|done]. simpl.
  destruct (plain_props h u) as [mu|] eqn:Hu.
  - destruct p as [|k' p]; [done|]. apply IH. by apply plain_props_own.
  - destruct p as [|k' p]; [|done]. by intros [= <-].
Qed.

End TreeFacts.

Module RunFacts.

Import Js Store StoreFacts MonadFacts ExtendFacts MergeSpec MergeFacts.
Import MergeArgsFacts TreeFacts MapSpec.

Lemma literal_run l h :
  literal l h = Ok (VRef (length h), h ++ [Obj Plain (list_to_map l)]).
Proof. reflexivity. Qed.

Lemma get_prop_run v k h :
  nullish v = false -> get_prop v k h = Ok (prop h v k, h).
Proof. by destruct v. Qed.

Lemma set_prop_run l k x h kd m :
  h !! l = Some (Obj kd m) ->
  set_prop (VRef l) k x h = Ok (tt, <[l := Obj kd (<[k := x]> m)]> h).
Proof. unfold set_prop. by intros ->. Qed.

Lemma nodeName_run a h :
  nullish a = false ->
  (if typeof_string a then mret VUndefined else get_prop a "nodeName") h =
  Ok (if typeof_string a then VUndefined else prop h a "nodeName", h).
Proof. by destruct a. Qed.

Lemma hasRenderToArg_alt h a :
  typeof_string a
  || truthy (if typeof_string a then VUndefined else prop h a "nodeName")
  = hasRenderToArg h a.
Proof. by destruct a. Qed.

Lemma closed_insert h l kd m kd' m' :
  closed h = true -> h !! l = Some (Obj kd m) ->
  closed_props (length h) m' = true ->
  closed (<[l := Obj kd' m']> h) = true.
Proof.
  intros Hh Hl Hm. apply closed_spec. intros l' o'.
  rewrite length_insert. intros Hl'.
  apply list_lookup_insert_Some in Hl' as [(-> & <- & ?)|[? Hl']]; [done|].
  by apply (proj1 (closed_spec h) Hh l').
Qed.

Lemma prop_extends (h h' : heap) v k :
  h `prefix_of` h' -> closed_value (length h) v = true ->
  prop h' v k = prop h v k.
Proof. intros. unfold prop. by rewrite (own_props_extends h h'). Qed.

Lemma prop_closed h v k :
  closed h = true -> closed_value (length h) (prop h v k) = true.
Proof.
  intros Hh. unfold prop. destruct (own_props h v !! k) as [u|] eqn:Hu; [|done].
  eapply closed_props_lookup; [|done]. by apply own_props_closed.
Qed.

Lemma all_values_list_to_map P (l : list (string * value)) :
  Forall (fun kv => P kv.2 = true) l -> all_values P (list_to_map l) = true.
Proof.
  intros Hl. apply all_values_spec. intros k v Hkv.
  apply elem_of_list_to_map_2 in Hkv.
  by apply (proj1 (Forall_forall _ _) Hl (k, v)).
Qed.

Lemma series_set_extends o x (h h' h'' : heap) :
  series_set o x h h' -> h' `prefix_of` h'' -> series_set o x h h''.
Proof.
  intros [H1 H2] Hp. split.
  - intros l ob Hl Hne. eapply prefix_lookup_Some; [|done]. by apply H1.
  - intros kd m Hl. eapply prefix_lookup_Some; [|done]. by apply H2.
Qed.

Lemma series_set_kinds_kept o x h h' : series_set o x h h' -> kinds_kept h h'.
Proof.
  intros [H1 H2] l ob Hl. destruct (decide (l = o)) as [->|Hne].
  - destruct ob as [kd m]. eexists. split; [by apply H2|done].
  - exists ob. split; [by apply H1|done].
Qed.

Lemma series_set_prop o x h h' v k :
  series_set o x h h' -> closed_value (length h) v = true -> k <> "series" ->
  prop h' v k = prop h v k.
Proof.
  intros [H1 H2] Hv Hk. unfold prop. destruct v as [| | | | |l]; try done.
  simpl in *. apply Nat.ltb_lt, lookup_lt_is_Some in Hv as [[kd m] Hl].
  rewrite Hl. destruct (decide (l = o)) as [->|Hne].
  - rewrite (H2 _ _ Hl). simpl. by rewrite lookup_insert_ne.
  - by rewrite (H1 _ _ Hl Hne).
Qed.

(** The user's tree, with its series set to a value that is no plain
    object, is in [h'] what it is in [h]. *)
Lemma series_set_keeps o x h h' kd m d :
  closed h = true -> h !! o = Some (Obj kd m) -> shallow h d m = true ->
  plain_props h x = None -> closed_value (length h) x = true ->
  series_set o x h h' ->
  closed_props (length h) (<["series" := x]> m) = true /\
  keeps h h' (<["series" := x]> m) /\
  shallow h d (<["series" := x]> m) = true.
Proof.
  intros Hh Ho Hd Hx Hcx Hset.
  assert (Hm : closed_props (length h) m = true)
    by apply (proj1 (closed_spec h) Hh o _ Ho).
  split; [by apply closed_props_insert|]. split; [|by apply shallow_insert_leaf].
  intros l Hl%reach_insert_leaf; [|done].
  pose proof (reach_plain _ _ _ Hl) as (ml & Hml).
  pose proof Hml as (? & [= <-] & Hlook)%plain_props_lookup.
  rewrite Hlook. apply Hset; [done|]. intros ->.
  rewrite Ho in Hlook. injection Hlook as -> ->.
  by apply (shallow_acyclic h o ml d).
Qed.

Lemma shallow_delete h d (m : gmap string value) k :
  shallow h d m = true -> shallow h d (delete k m) = true.
Proof.
  rewrite !shallow_spec. intros H k' v m' Hk'. apply (H k').
  by apply lookup_delete_Some in Hk' as [_ ?].
Qed.

(** What is left of a tree of bounded depth when one property is taken
    out does not hold the object the tree hangs from, whatever lies
    below that property. *)
Lemma shallow_rest_acyclic h o kd m k d :
  h !! o = Some (Obj kd m) -> shallow h d (delete k m) = true ->
  ~ reach h (delete k m) o.
Proof.
  intros Ho. induction (lt_wf d) as [d _ IH]. intros Hd Hr.
  pose proof (reach_plain _ _ _ Hr) as (ml & Hml).
  pose proof Hml as (? & [= <-] & Hlook)%plain_props_lookup.
  rewrite Ho in Hlook. injection Hlook as -> ->.
  destruct (reach_shallow _ _ _ _ _ Hr Hml Hd) as (d' & Hlt & Hd').
  apply (IH d' Hlt); [by apply shallow_delete|done].
Qed.

(** The same when only the rest of the user's tree, the series left
    aside, is of bounded depth. *)
Lemma series_set_keeps_rest o x h h' kd m d :
  closed h = true -> h !! o = Some (Obj kd m) ->
  shallow h d (delete "series" m) = true ->
  plain_props h x = None -> closed_value (length h) x = true ->
  series_set o x h h' ->
  closed_props (length h) (<["series" := x]> m) = true /\
  keeps h h' (<["series" := x]> m) /\
  shallow h d (<["series" := x]> m) = true.
Proof.
  intros Hh Ho Hd Hx Hcx Hset.
  assert (Hm : closed_props (length h) m = true)
    by apply (proj1 (closed_spec h) Hh o _ Ho).
  split; [by apply closed_props_insert|].
  rewrite <- (insert_delete_eq m "series" x).
  split; [|by apply shallow_insert_leaf].
  intros l Hl%reach_insert_leaf; [|done].
  pose proof (reach_plain _ _ _ Hl) as (ml & Hml).
  pose proof Hml as (? & [= <-] & Hlook)%plain_props_lookup.
  rewrite Hlook. apply Hset; [done|]. intros ->.
  by apply (shallow_rest_acyclic h o kd m "series" d).
Qed.

End RunFacts.

Module MapChartFacts.

Import Js Store StoreFacts MonadFacts ExtendFacts MergeSpec MergeFacts.
Import MergeArgsFacts TreeFacts MapSpec RunFacts.

Lemma leaf_values h (l : list (string * value)) d :
  Forall (fun kv => plain_props h kv.2 = None) l ->
  shallow h d (list_to_map l) = true.
Proof.
  intros Hl. apply (shallow_mono h 0); [lia|]. simpl.
  apply all_values_list_to_map. eapply Forall_impl; [done|].
  intros kv Hkv. simpl in *. by rewrite Hkv.
Qed.

Lemma closed_values (l : list (string * value)) n :
  Forall (fun kv => closed_value n kv.2 = true) l ->
  closed_props n (list_to_map l) = true.
Proof. apply all_values_list_to_map. Qed.

Lemma lookup_alloc (h : heap) ob : (h ++ [ob]) !! length h = Some ob.
Proof. apply list_lookup_middle. done. Qed.

Lemma prefix_alloc (h : heap) ob : h `prefix_of` h ++ [ob].
Proof. by apply prefix_app_r. Qed.

Lemma plain_props_at h l m :
  h !! l = Some (Obj Plain m) -> plain_props h (VRef l) = Some m.
Proof. simpl. by intros ->. Qed.

Lemma own_props_at h l kd m :
  h !! l = Some (Obj kd m) -> own_props h (VRef l) = m.
Proof. simpl. by intros ->. Qed.

Lemma setting_plain h (m : gmap string value) k k' p l m' :
  m !! k = Some (VRef l) -> h !! l = Some (Obj Plain m') ->
  setting h m (k :: k' :: p) = setting h m' (k' :: p).
Proof. intros Hk Hl. cbn [setting]. by rewrite Hk, (plain_props_at _ _ _ Hl). Qed.

Lemma setting_leaf h (m : gmap string value) k v :
  m !! k = Some v -> plain_props h v = None -> setting h m [k] = Some v.
Proof. intros Hk Hv. cbn [setting]. by rewrite Hk, Hv. Qed.

Lemma untouched_plain h (m : gmap string value) k k' p l m' :
  m !! k = Some (VRef l) -> h !! l = Some (Obj Plain m') ->
  untouched h m (k :: k' :: p) = untouched h m' (k' :: p).
Proof. intros Hk Hl. cbn [untouched]. by rewrite Hk, (plain_props_at _ _ _ Hl). Qed.

Lemma untouched_missing h (m : gmap string value) k p :
  m !! k = None -> untouched h m (k :: p) = true.
Proof. intros Hk. cbn [untouched]. by rewrite Hk. Qed.

Lemma kinds_kept_not_plain h h' v :
  kinds_kept h h' -> closed_value (length h) v = true ->
  plain_props h v = None -> plain_props h' v = None.
Proof.
  intros Hk Hv. destruct v as [| | | | |l]; try done. simpl in *.
  apply Nat.ltb_lt, lookup_lt_is_Some in Hv as [[kd m] Hl].
  destruct (Hk _ _ Hl) as ([kd' m'] & -> & Hkd). rewrite Hl.
  simpl in Hkd. subst kd'. by destruct kd.
Qed.

Lemma shallow_list h d (l : list (string * value)) :
  Forall (fun kv => forall m', plain_props h kv.2 = Some m' ->
                      shallow h d m' = true) l ->
  shallow h (S d) (list_to_map l) = true.
Proof.
  intros Hl. apply shallow_spec. intros k v m' Hkv%elem_of_list_to_map_2 Hv.
  exists d. split; [done|].
  by apply (proj1 (Forall_forall _ _) Hl (k, v)).
Qed.

Lemma plain_at_inv h l m m' :
  h !! l = Some (Obj Plain m) -> plain_props h (VRef l) = Some m' -> m' = m.
Proof. simpl. intros ->. by intros [= <-]. Qed.

(** A statement about every entry of an object literal, entry by entry. *)
Ltac entries :=
  repeat (apply Forall_cons_2; [cbn [snd]|]); try apply Forall_nil_2.

Section Run.

Variables (fuel : nat) (defaultOptions a b c : value) (h0 : heap).
Variables (o : loc) (kd : kind) (m0 : gmap string value) (d : nat).

Hypothesis Hh0 : closed h0 = true.
Hypothesis Hdo : closed_value (length h0) defaultOptions = true.
Hypothesis Hoptions : options_arg h0 a b = VRef o.
Hypothesis Ho : h0 !! o = Some (Obj kd m0).
Hypothesis Hdo_nn : nullish defaultOptions = false.
Hypothesis Hcr_nn : nullish (prop h0 defaultOptions "credits") = false.
Hypothesis Hmt :
  plain_props h0 (prop h0 (prop h0 defaultOptions "credits") "mapText") = None.
Hypothesis Hmtf :
  plain_props h0 (prop h0 (prop h0 defaultOptions "credits") "mapTextFull") = None.
Hypothesis Hd : shallow h0 d (delete "series" m0) = true.
Hypothesis Hfuel : d < fuel.
Hypothesis Hfuel2 : 2 < fuel.

Lemma a_not_nullish : nullish a = false.
Proof using Hoptions.
  revert Hoptions. unfold options_arg, hasRenderToArg. by destruct a.
Qed.

(** The run of [mapChart], step by step: the store [hm] in which the
    three layers are merged has the series of the user's options set to
    [null]; the merge returns a new object; the series are written back
    to the user's options and to the merged ones.  Only what the user's
    options hold beside the series needs to be a tree of bounded depth. *)
Lemma mapChart_run_merge :
  exists hm hf defaults forced R,
    merge fuel [VRef defaults; VRef o; VRef forced] hm
      = Ok (VRef (length hf), hf ++ [Obj Plain R]) /\
    exists chart h',
      mapChart fuel defaultOptions a b c h0 = Ok (chart, h') /\
      closed hm = true /\
      length h0 <= length hm /\
      series_set o VNull h0 hm /\
      (forall p w,
         (p, w) ∈ mapDefaults
                    (prop h0 (prop h0 defaultOptions "credits") "mapText")
                    (prop h0 (prop h0 defaultOptions "credits") "mapTextFull") ->
         setting hm (own_props hm (VRef defaults)) p = Some w) /\
      setting hm (own_props hm (VRef forced)) ["chart"; "inverted"]
        = Some (VBool false) /\
      setting hm (own_props hm (VRef forced)) ["chart"; "alignTicks"]
        = Some (VBool false) /\
      (forall p, p <> [] -> forced_override p = false ->
         untouched hm (own_props hm (VRef forced)) p = true) /\
      hm !! o = Some (Obj kd (<["series" := VNull]> m0)) /\
      merge_result hm [VRef defaults; VRef o; VRef forced]
        (VRef (length hf)) (hf ++ [Obj Plain R]) /\
      chart = (if hasRenderToArg h0 a
               then new_Chart (Some a) (VRef (length hf)) c
               else new_Chart None (VRef (length hf)) b) /\
      h' = <[length hf :=
               Obj Plain (<["series" := default VUndefined (m0 !! "series")]> R)]>
             (<[o := Obj kd (<["series" := default VUndefined (m0 !! "series")]> m0)]>
                (hf ++ [Obj Plain R])).
Proof.
  set (credits := prop h0 defaultOptions "credits") in *.
  set (mapText := prop h0 credits "mapText") in *.
  set (mapTextFull := prop h0 credits "mapTextFull") in *.
  set (s := default VUndefined (m0 !! "series")).
  set (n0 := length h0).
  assert (Hon : o < n0) by by eapply lookup_lt_Some.
  assert (Hcredits : closed_value n0 credits = true) by by apply prop_closed.
  assert (HmapText : closed_value n0 mapText = true) by by apply prop_closed.
  assert (HmapTextFull : closed_value n0 mapTextFull = true) by by apply prop_closed.
  (* the hidden axis *)
  set (HA := Obj Plain (list_to_map hiddenAxis)).
  set (h1 := h0 ++ [HA]).
  assert (Hh1 : closed h1 = true).
  { apply closed_alloc; [done|]. apply closed_values. by repeat constructor. }
  assert (Ho1 : h1 !! o = Some (Obj kd m0)) by by apply lookup_app_l_Some.
  (* the series are taken out *)
  set (m1 := <["series" := VNull]> m0).
  set (h2 := <[o := Obj kd m1]> h1).
  assert (Hm0 : closed_props (length h1) m0 = true)
    by apply (proj1 (closed_spec h1) Hh1 o _ Ho1).
  assert (Hh2 : closed h2 = true).
  { eapply closed_insert; [done..|]. by apply closed_props_insert. }
  assert (Hlen2 : length h2 = S n0).
  { unfold h2, h1. rewrite length_insert, length_app. simpl. lia. }
  assert (Hset2 : series_set o VNull h0 h2).
  { split.
    - intros l ob Hl Hne. unfold h2. rewrite list_lookup_insert_ne by done.
      by apply lookup_app_l_Some.
    - intros kd' m' Hl. rewrite Ho in Hl. injection Hl as <- <-.
      unfold h2. apply list_lookup_insert_eq. by eapply lookup_lt_Some. }
  assert (HHA2 : h2 !! n0 = Some HA).
  { unfold h2. rewrite list_lookup_insert_ne by lia. apply lookup_alloc. }
  (* the literals of the map defaults *)
  set (PAN := Obj Plain (list_to_map
         [("enabled", VBool true); ("type", VString "xy")])).
  set (h3 := h2 ++ [PAN]).
  set (CH := Obj Plain (list_to_map
         [("panning", VRef (length h2)); ("type", VString "map")])).
  set (h4 := h3 ++ [CH]).
  set (CR := Obj Plain (list_to_map
         [("mapText", pick mapText (VString mapText_default));
          ("mapTextFull", pick mapTextFull (VString "{geojson.copyright}"))])).
  set (h5 := h4 ++ [CR]).
  set (TT := Obj Plain (list_to_map [("followTouchMove", VBool false)])).
  set (h6 := h5 ++ [TT]).
  set (REV := Obj Plain (list_to_map [("reversed", VBool true)])).
  set (h7 := h6 ++ [REV]).
  assert (Hlen3 : length h3 = S (S n0)) by (unfold h3; rewrite length_app, Hlen2; simpl; lia).
  assert (Hlen4 : length h4 = S (S (S n0))) by (unfold h4; rewrite length_app, Hlen3; simpl; lia).
  assert (Hlen5 : length h5 = S (S (S (S n0)))) by (unfold h5; rewrite length_app, Hlen4; simpl; lia).
  assert (Hlen6 : length h6 = S (S (S (S (S n0))))) by (unfold h6; rewrite length_app, Hlen5; simpl; lia).
  assert (Hlen7 : length h7 = S (S (S (S (S (S n0)))))) by (unfold h7; rewrite length_app, Hlen6; simpl; lia).
  assert (Hh3 : closed h3 = true).
  { apply closed_alloc; [done|]. apply closed_values. by repeat constructor. }
  assert (Hh4 : closed h4 = true).
  { apply closed_alloc; [done|]. apply closed_values.
    repeat constructor. simpl. apply Nat.ltb_lt. lia. }
  assert (Hpick1 : closed_value n0 (pick mapText (VString mapText_default)) = true)
    by by destruct mapText.
  assert (Hpick2 : closed_value n0 (pick mapTextFull (VString "{geojson.copyright}")) = true)
    by by destruct mapTextFull.
  assert (Hh5 : closed h5 = true).
  { apply closed_alloc; [done|]. apply closed_values.
    apply Forall_cons; split; [|apply Forall_cons; split; [|constructor]];
      simpl; (eapply closed_value_mono; [|done]); lia. }
  assert (Hh6 : closed h6 = true).
  { apply closed_alloc; [done|]. apply closed_values. by repeat constructor. }
  assert (Hh7 : closed h7 = true).
  { apply closed_alloc; [done|]. apply closed_values. by repeat constructor. }
  assert (Hp23 : h2 `prefix_of` h3) by apply prefix_alloc.
  assert (Hp34 : h3 `prefix_of` h4) by apply prefix_alloc.
  assert (Hp45 : h4 `prefix_of` h5) by apply prefix_alloc.
  assert (Hp56 : h5 `prefix_of` h6) by apply prefix_alloc.
  assert (Hp67 : h6 `prefix_of` h7) by apply prefix_alloc.
  assert (Hp27 : h2 `prefix_of` h7) by (by trans h3; [|trans h4; [|trans h5; [|trans h6]]]).
  (* the y axis: the hidden axis, reversed *)
  assert (HHA7 : h7 !! n0 = Some HA) by by eapply prefix_lookup_Some.
  assert (HREV7 : h7 !! length h6 = Some REV) by apply lookup_alloc.
  assert (Hargs1 : Forall (fun v => closed_value (length h7) v = true)
                     [VRef n0; VRef (length h6)]).
  { repeat constructor; simpl; apply Nat.ltb_lt; lia. }
  assert (Hsh1 : Forall (fun v => shallow h7 0 (own_props h7 v) = true)
                   [VRef n0; VRef (length h6)]).
  { repeat constructor.
    - rewrite (own_props_at _ _ _ _ HHA7). apply leaf_values. by repeat constructor.
    - rewrite (own_props_at _ _ _ _ HREV7). apply leaf_values. by repeat constructor. }
  destruct (merge_total fuel 0 [VRef n0; VRef (length h6)] h7)
    as (yAxis & h8 & Hmerge1); [lia|done..|].
  pose proof (merge_correct fuel _ _ _ _ Hh7 Hargs1 Hmerge1) as Hres1.
  inversion Hres1 as [Y h7' Hp77 Hh7' Hh8 HY Hf1 Hr1 HshY HovY EyAxis Eh8].
  clear Hres1. subst yAxis h8. set (h8 := h7' ++ [Obj Plain Y]) in *.
  assert (HYset : forall k v,
            (k, v) ∈ hiddenAxis ++ [("reversed", VBool true)] ->
            setting h8 Y [k] = Some v).
  { intros k v Hin. apply HovY.
    change (map (own_props h7) [VRef n0; VRef (length h6)])
      with [own_props h7 (VRef n0); own_props h7 (VRef (length h6))].
    rewrite (own_props_at _ _ _ _ HHA7), (own_props_at _ _ _ _ HREV7).
    unfold hiddenAxis in Hin. simpl in Hin.
    repeat (apply elem_of_cons in Hin as [[= -> ->]|Hin]); [reflexivity..|].
    by apply elem_of_nil in Hin. }
  assert (Hlen8 : length h8 = S (length h7')) by (unfold h8; rewrite length_app; simpl; lia).
  assert (Hlen77 : length h7 <= length h7') by by apply prefix_length.
  assert (Hp78 : h7 `prefix_of` h8) by (trans h7'; [done|apply prefix_alloc]).
  (* the defaults and the forced options *)
  set (DEF := Obj Plain (list_to_map
         [("chart", VRef (length h3));
          ("credits", VRef (length h4));
          ("tooltip", VRef (length h5));
          ("xAxis", VRef (length h0));
          ("yAxis", VRef (length h7'))])).
  set (h9 := h8 ++ [DEF]).
  set (FC := Obj Plain (list_to_map
         [("inverted", VBool false); ("alignTicks", VBool false)])).
  set (h10 := h9 ++ [FC]).
  set (F := Obj Plain (list_to_map [("chart", VRef (length h9))])).
  set (hm := h10 ++ [F]).
  assert (Hlen9 : length h9 = S (length h8)) by (unfold h9; rewrite length_app; simpl; lia).
  assert (Hlen10 : length h10 = S (length h9)) by (unfold h10; rewrite length_app; simpl; lia).
  assert (Hlenm : length hm = S (length h10)) by (unfold hm; rewrite length_app; simpl; lia).
  assert (Hh9 : closed h9 = true).
  { apply closed_alloc; [done|]. apply closed_values.
    repeat (apply Forall_cons; split); try constructor; simpl; apply Nat.ltb_lt;
      fold n0; lia. }
  assert (Hh10 : closed h10 = true).
  { apply closed_alloc; [done|]. apply closed_values. by repeat constructor. }
  assert (Hhm : closed hm = true).
  { apply closed_alloc; [done|]. apply closed_values.
    repeat constructor. simpl. apply Nat.ltb_lt. lia. }
  assert (Hp89 : h8 `prefix_of` h9) by apply prefix_alloc.
  assert (Hp9m : h9 `prefix_of` hm) by (trans h10; apply prefix_alloc).
  assert (Hp8m : h8 `prefix_of` hm) by (trans h9; [exact Hp89|exact Hp9m]).
  assert (Hp7m : h7 `prefix_of` hm) by (trans h8; [exact Hp78|exact Hp8m]).
  assert (Hp2m : h2 `prefix_of` hm) by (trans h7; [exact Hp27|exact Hp7m]).
  assert (Hsetm : series_set o VNull h0 hm) by by eapply series_set_extends.
  (* where the literals are *)
  assert (HHAm : hm !! n0 = Some HA) by by eapply prefix_lookup_Some.
  assert (HPANm : hm !! length h2 = Some PAN).
  { eapply prefix_lookup_Some; [apply lookup_alloc|].
    trans h7; [|exact Hp7m]. trans h4; [done|]. trans h5; [done|]. by trans h6. }
  assert (HCHm : hm !! length h3 = Some CH).
  { eapply prefix_lookup_Some; [apply lookup_alloc|].
    trans h7; [|exact Hp7m]. trans h5; [done|]. by trans h6. }
  assert (HCRm : hm !! length h4 = Some CR).
  { eapply prefix_lookup_Some; [apply lookup_alloc|].
    trans h7; [|exact Hp7m]. by trans h6. }
  assert (HTTm : hm !! length h5 = Some TT).
  { eapply prefix_lookup_Some; [apply lookup_alloc|].
    trans h7; [done|exact Hp7m]. }
  assert (HYm : hm !! length h7' = Some (Obj Plain Y)).
  { eapply prefix_lookup_Some; [apply lookup_alloc|]. exact Hp8m. }
  assert (HDEFm : hm !! length h8 = Some DEF).
  { eapply prefix_lookup_Some; [apply lookup_alloc|]. done. }
  assert (HFCm : hm !! length h9 = Some FC).
  { eapply prefix_lookup_Some; [apply lookup_alloc|]. apply prefix_alloc. }
  assert (HFm : hm !! length h10 = Some F) by apply lookup_alloc.
  assert (Hom : hm !! o = Some (Obj kd m1)) by (by apply Hsetm).
  assert (Hkm : kinds_kept h0 hm) by by eapply series_set_kinds_kept.
  assert (Hpick1m : plain_props hm (pick mapText (VString mapText_default)) = None).
  { destruct mapText eqn:E; try done. by apply (kinds_kept_not_plain h0). }
  assert (Hpick2m : plain_props hm (pick mapTextFull (VString "{geojson.copyright}")) = None).
  { destruct mapTextFull eqn:E; try done. by apply (kinds_kept_not_plain h0). }
  assert (HYc : closed_props (length h8) Y = true).
  { eapply closed_props_mono; [|done]. lia. }
  (* the layers *)
  assert (Hdefaults : forall p w, (p, w) ∈ mapDefaults mapText mapTextFull ->
            setting hm (own_props hm (VRef (length h8))) p = Some w).
  { intros p w Hin. rewrite (own_props_at _ _ _ _ HDEFm).
    unfold mapDefaults, hiddenAxis in Hin. simpl in Hin.
    repeat (apply elem_of_cons in Hin as [[= -> ->]|Hin]);
      [..|by apply elem_of_nil in Hin];
      try (by (erewrite setting_plain; [|reflexivity|exact HCHm]);
              (erewrite setting_plain; [|reflexivity|exact HPANm]);
              apply setting_leaf);
      try (by (erewrite setting_plain; [|reflexivity|exact HCHm]);
              apply setting_leaf);
      try (by (erewrite setting_plain; [|reflexivity|exact HCRm]);
              apply setting_leaf);
      try (by (erewrite setting_plain; [|reflexivity|exact HTTm]);
              apply setting_leaf);
      try (by (erewrite setting_plain; [|reflexivity|exact HHAm]);
              apply setting_leaf);
      (erewrite setting_plain; [|reflexivity|exact HYm]);
      rewrite (extends_setting h8 hm) by done;
      apply HYset; unfold hiddenAxis; set_solver. }
  assert (Hinverted : setting hm (own_props hm (VRef (length h10)))
                        ["chart"; "inverted"] = Some (VBool false)).
  { rewrite (own_props_at _ _ _ _ HFm).
    erewrite setting_plain; [|reflexivity|exact HFCm]. by apply setting_leaf. }
  assert (HalignTicks : setting hm (own_props hm (VRef (length h10)))
                          ["chart"; "alignTicks"] = Some (VBool false)).
  { rewrite (own_props_at _ _ _ _ HFm).
    erewrite setting_plain; [|reflexivity|exact HFCm]. by apply setting_leaf. }
  assert (Hforced : forall p, p <> [] -> forced_override p = false ->
            untouched hm (own_props hm (VRef (length h10))) p = true).
  { intros [|k p] Hne; [done|]. rewrite (own_props_at _ _ _ _ HFm).
    unfold forced_override. destruct (String.eqb_spec k "chart") as [->|Hk].
    - destruct p as [|k' p]; [done|]. rewrite andb_true_l.
      intros [Hk1 Hk2]%orb_false_elim. apply String.eqb_neq in Hk1, Hk2.
      erewrite untouched_plain; [|reflexivity|exact HFCm].
      apply untouched_missing. cbn [list_to_map foldr uncurry fst snd].
      by rewrite !lookup_insert_ne, lookup_empty.
    - intros _. apply untouched_missing. cbn [list_to_map foldr uncurry fst snd].
      rewrite lookup_insert_ne by done. by rewrite lookup_empty. }
  (* the merge of the three layers *)
  set (dmax := d `max` 2).
  assert (Hargs2 : Forall (fun v => closed_value (length hm) v = true)
                     [VRef (length h8); VRef o; VRef (length h10)]).
  { repeat constructor; simpl; apply Nat.ltb_lt; lia. }
  destruct (series_set_keeps_rest o VNull h0 hm kd m0 d) as (Hm1c & Hkeep & Hm1d);
    try done.
  assert (Hsh2 : Forall (fun v => shallow hm dmax (own_props hm v) = true)
                   [VRef (length h8); VRef o; VRef (length h10)]).
  { entries.
    - rewrite (own_props_at _ _ _ _ HDEFm). apply (shallow_mono hm 2); [lia|].
      apply shallow_list. entries; intros m'.
      + intros ->%(plain_at_inv _ _ _ _ HCHm).
        apply shallow_list. entries; intros m'.
        * intros ->%(plain_at_inv _ _ _ _ HPANm).
          apply leaf_values. by entries.
        * intros [=].
      + intros ->%(plain_at_inv _ _ _ _ HCRm).
        apply leaf_values. entries; [exact Hpick1m|exact Hpick2m].
      + intros ->%(plain_at_inv _ _ _ _ HTTm).
        apply leaf_values. by entries.
      + intros ->%(plain_at_inv _ _ _ _ HHAm).
        apply leaf_values. by entries.
      + intros ->%(plain_at_inv _ _ _ _ HYm).
        apply (shallow_mono hm 0); [lia|].
        apply (extends_shallow h8); [done..|]. by apply HshY.
    - rewrite (own_props_at _ _ _ _ Hom). apply (shallow_mono hm d); [lia|].
      by apply (keeps_shallow h0).
    - rewrite (own_props_at _ _ _ _ HFm). apply (shallow_mono hm 1); [lia|].
      apply shallow_list. entries; intros m'.
      intros ->%(plain_at_inv _ _ _ _ HFCm).
      apply leaf_values. by entries. }
  destruct (merge_total fuel dmax _ hm ltac:(lia) Hhm Hargs2 Hsh2)
    as (options & hf' & Hmerge2).
  pose proof (merge_correct fuel _ _ _ _ Hhm Hargs2 Hmerge2) as Hres2.
  inversion Hres2 as [R hf Hpmf Hhf Hhf' HR Hf2 Hr2 HshR HovR Eoptions Ehf'].
  subst options hf'.
  (* the run *)
  assert (Hrun : mapChart fuel defaultOptions a b c h0 =
    Ok (if hasRenderToArg h0 a
        then new_Chart (Some a) (VRef (length hf)) c
        else new_Chart None (VRef (length hf)) b,
        <[length hf := Obj Plain (<["series" := s]> R)]>
          (<[o := Obj kd (<["series" := s]> m1)]> (hf ++ [Obj Plain R])))).
  { unfold mapChart.
    rewrite (bind_run _ _ _ _ _ (nodeName_run a h0 a_not_nullish)).
    cbv zeta. rewrite !hasRenderToArg_alt.
    change (if hasRenderToArg h0 a then b else a) with (options_arg h0 a b).
    rewrite Hoptions.
    rewrite (bind_run _ _ _ _ _ (literal_run _ _)).
    change (h0 ++ [_]) with h1.
    rewrite (bind_run _ _ _ _ _ (get_prop_run _ _ _ Hdo_nn)).
    rewrite (prop_extends h0 h1 _ _ (prefix_alloc _ _) Hdo). fold credits.
    rewrite (bind_run _ _ _ _ _ (get_prop_run (VRef o) _ _ eq_refl)).
    replace (prop h1 (VRef o) "series") with s
      by (unfold prop; by rewrite (own_props_at _ _ _ _ Ho1)).
    rewrite (bind_run _ _ _ _ _ (set_prop_run _ _ _ _ _ _ Ho1)).
    change (<[o := _]> h1) with h2.
    rewrite (bind_run _ _ _ _ _ (literal_run _ _)). change (h2 ++ [_]) with h3.
    rewrite (bind_run _ _ _ _ _ (literal_run _ _)). change (h3 ++ [_]) with h4.
    rewrite (bind_run _ _ _ _ _ (get_prop_run _ _ _ Hcr_nn)).
    rewrite (bind_run _ _ _ _ _ (get_prop_run _ _ _ Hcr_nn)).
    assert (Hset4 : series_set o VNull h0 h4).
    { eapply series_set_extends; [exact Hset2|]. by trans h3. }
    rewrite !(series_set_prop o VNull h0 h4 credits) by done.
    fold mapText mapTextFull.
    rewrite (bind_run _ _ _ _ _ (literal_run _ _)). change (h4 ++ [_]) with h5.
    rewrite (bind_run _ _ _ _ _ (literal_run _ _)). change (h5 ++ [_]) with h6.
    rewrite (bind_run _ _ _ _ _ (literal_run _ _)). change (h6 ++ [_]) with h7.
    rewrite (bind_run _ _ _ _ _ Hmerge1).
    rewrite (bind_run _ _ _ _ _ (literal_run _ _)). change (h8 ++ [_]) with h9.
    rewrite (bind_run _ _ _ _ _ (literal_run _ _)). change (h9 ++ [_]) with h10.
    rewrite (bind_run _ _ _ _ _ (literal_run _ _)). change (h10 ++ [_]) with hm.
    rewrite (bind_run _ _ _ _ _ Hmerge2).
    assert (Hof : (hf ++ [Obj Plain R]) !! o = Some (Obj kd m1)).
    { eapply prefix_lookup_Some; [exact Hom|]. trans hf; [done|apply prefix_alloc]. }
    rewrite (bind_run _ _ _ _ _ (set_prop_run _ _ _ _ _ _ Hof)).
    assert (Hrf : (<[o := Obj kd (<["series" := s]> m1)]> (hf ++ [Obj Plain R]))
                    !! length hf = Some (Obj Plain R)).
    { rewrite list_lookup_insert_ne; [apply lookup_alloc|].
      apply prefix_length in Hpmf. lia. }
    rewrite (bind_run _ _ _ _ _ (set_prop_run _ _ _ _ _ _ Hrf)).
    reflexivity. }
  exists hm, hf, (length h8), (length h10), R. split; [exact Hmerge2|].
  exists (if hasRenderToArg h0 a
          then new_Chart (Some a) (VRef (length hf)) c
          else new_Chart None (VRef (length hf)) b).
  eexists. split; [exact Hrun|].
  replace (<["series" := s]> m1) with (<["series" := s]> m0)
    by (unfold m1; by rewrite insert_insert_eq).
  split; [exact Hhm|]. split; [fold n0; lia|]. split; [exact Hsetm|].
  split; [exact Hdefaults|]. split; [exact Hinverted|].
  split; [exact HalignTicks|]. split; [exact Hforced|]. split; [exact Hom|].
  split; [exact Hres2|]. split; reflexivity.
Qed.

End Run.

(** [mapChart] returns when it is given an options object whose tree is
    of bounded depth, and leaves a store as [run] describes it. *)
Theorem mapChart_run fuel defaultOptions a b c h0 o kd m0 d :
  closed h0 = true ->
  closed_value (length h0) defaultOptions = true ->
  options_arg h0 a b = VRef o ->
  h0 !! o = Some (Obj kd m0) ->
  nullish defaultOptions = false ->
  nullish (prop h0 defaultOptions "credits") = false ->
  plain_props h0 (prop h0 (prop h0 defaultOptions "credits") "mapText") = None ->
  plain_props h0 (prop h0 (prop h0 defaultOptions "credits") "mapTextFull") = None ->
  shallow h0 d m0 = true ->
  d < fuel ->
  2 < fuel ->
  exists chart h',
    mapChart fuel defaultOptions a b c h0 = Ok (chart, h') /\
    run h0 a b c o kd m0
      (prop h0 (prop h0 defaultOptions "credits") "mapText")
      (prop h0 (prop h0 defaultOptions "credits") "mapTextFull") chart h'.
Proof.
  intros Hh0 Hdo Hoptions Ho Hdo_nn Hcr_nn Hmt Hmtf Hd Hfuel Hfuel2.
  destruct (mapChart_run_merge fuel defaultOptions a b c h0 o kd m0 d)
    as (hm & hf & defaults & forced & R & _ & chart & h' & Hcall & Hhm & Hlen
        & Hset & Hdef & Hinv & Hal & Hfo & Hom & Hres & Hchart & Hh');
    try done; [by apply shallow_delete|].
  exists chart, h'. split; [exact Hcall|].
  by apply (run_intro _ _ _ _ _ _ _ _ _ _ _ hm hf defaults forced R).
Qed.

End MapChartFacts.

Module OptionsFacts.

Import Js Store StoreFacts MonadFacts ExtendFacts MergeSpec MergeFacts.
Import MergeArgsFacts TreeFacts MapSpec RunFacts MapChartFacts.

Lemma untouched_no_setting h m p : untouched h m p = true -> setting h m p = None.
Proof.
  revert m. induction p as [|k p IH]; intros m; [done|]. simpl.
  destruct (m !! k) as [v|]; [|done].
  destruct (plain_props h v) as [m'|]; [|done].
  destruct p as [|k' p]; [done|]. apply IH.
Qed.

(** The user's tree is in [h'] what it is in [h]. *)
Lemma series_set_keeps_tree o x h h' kd m d :
  h !! o = Some (Obj kd m) -> shallow h d m = true ->
  series_set o x h h' -> keeps h h' m.
Proof.
  intros Ho Hd Hset l Hl.
  pose proof (reach_plain _ _ _ Hl) as (ml & Hml).
  pose proof Hml as (? & [= <-] & Hlook)%plain_props_lookup.
  rewrite Hlook. apply Hset; [done|]. intros ->.
  rewrite Ho in Hlook. injection Hlook as -> ->.
  by apply (shallow_acyclic h o ml d).
Qed.

Lemma forced_override_defaults mapText mapTextFull p w :
  (p, w) ∈ mapDefaults mapText mapTextFull ->
  forced_override p = false /\ exists k p', p = k :: p' /\ k <> "series".
Proof.
  unfold mapDefaults, hiddenAxis. simpl. intros Hin.
  repeat (apply elem_of_cons in Hin as [[= -> ->]|Hin]);
    [..|by apply elem_of_nil in Hin]; (split; [reflexivity|]);
    eexists _, _; (split; [reflexivity|done]).
Qed.

Section Final.

Variables (h0 : heap) (a b c : value) (o : loc) (kd : kind).
Variables (m0 : gmap string value) (mapText mapTextFull : value) (d : nat).
Variables (chart : Chart) (h' : heap).

Hypothesis Hh0 : closed h0 = true.
Hypothesis Ho : h0 !! o = Some (Obj kd m0).
Hypothesis Hd : shallow h0 d m0 = true.
Hypothesis Hrun : run h0 a b c o kd m0 mapText mapTextFull chart h'.

Let s := default VUndefined (m0 !! "series").

(** The chart is made from the arguments and from a new options object. *)
Lemma run_chart :
  exists r R, length h0 <= r /\
    chart = (if hasRenderToArg h0 a
             then new_Chart (Some a) (VRef r) c
             else new_Chart None (VRef r) b) /\
    h' !! r = Some (Obj Plain (<["series" := s]> R)).
Proof using Hrun.
  destruct Hrun as [hm hf defaults forced R Hhm Hlen Hset Hdef Hinv Hal Hfo Hom
                      Hres -> ->].
  apply merge_result_inv in Hres as (Hpmf%prefix_length & _).
  exists (length hf), R. split; [lia|]. split; [done|].
  apply list_lookup_insert_eq. rewrite length_insert, length_app. simpl. lia.
Qed.

(** The final store is the first one with the series of the user's
    options written again, and new objects at its end. *)
Lemma run_series_set : series_set o s h0 h'.
Proof using Hrun Ho.
  destruct Hrun as [hm hf defaults forced R Hhm Hlen Hset Hdef Hinv Hal Hfo Hom
                      Hres -> ->].
  apply merge_result_inv in Hres as (Hpmf & _).
  assert (Hp : hm `prefix_of` hf ++ [Obj Plain R]).
  { trans hf; [done|]. by apply prefix_app_r. }
  pose proof (prefix_length _ _ Hpmf) as Hlenf.
  pose proof (lookup_lt_Some _ _ _ Ho) as Hon.
  split.
  - intros l ob Hl Hne. pose proof (lookup_lt_Some _ _ _ Hl).
    rewrite list_lookup_insert_ne by lia.
    rewrite list_lookup_insert_ne by done.
    eapply prefix_lookup_Some; [|done]. by apply Hset.
  - intros kd' m' Hl. rewrite Ho in Hl. injection Hl as <- <-.
    rewrite list_lookup_insert_ne by lia.
    apply list_lookup_insert_eq. rewrite length_app. simpl. lia.
Qed.

(** What the overlay of the three layers settles is read from the options
    of the chart. *)
Lemma run_overlay :
  exists hm defaults forced,
    closed hm = true /\ series_set o VNull h0 hm /\
    hm !! o = Some (Obj kd (<["series" := VNull]> m0)) /\
    (forall p w, (p, w) ∈ mapDefaults mapText mapTextFull ->
       setting hm (own_props hm (VRef defaults)) p = Some w) /\
    setting hm (own_props hm (VRef forced)) ["chart"; "inverted"]
      = Some (VBool false) /\
    setting hm (own_props hm (VRef forced)) ["chart"; "alignTicks"]
      = Some (VBool false) /\
    (forall p, p <> [] -> forced_override p = false ->
       untouched hm (own_props hm (VRef forced)) p = true) /\
    forall k p w, k <> "series" ->
      overlay hm None
        [own_props hm (VRef defaults); <["series" := VNull]> m0;
         own_props hm (VRef forced)] (k :: p) = Some w ->
      get_path h' (options chart) (k :: p) = w.
Proof using Hrun Ho Hh0.
  destruct Hrun as [hm hf defaults forced R Hhm Hlen Hset Hdef Hinv Hal Hfo Hom
                      Hres -> ->].
  exists hm, defaults, forced. repeat (split; [done|]).
  apply merge_result_inv in Hres
    as (Hpmf & Hhf & Hhf' & HR & Hfresh & Hregion & _ & Hov).
  pose proof (prefix_length _ _ Hpmf) as Hlenf.
  pose proof (lookup_lt_Some _ _ _ Ho) as Hon.
  set (hf' := hf ++ [Obj Plain R]) in *.
  set (h' := <[length hf := _]> (<[o := _]> hf')).
  assert (Hlook : h' !! length hf = Some (Obj Plain (<["series" := s]> R))).
  { apply list_lookup_insert_eq. rewrite length_insert. unfold hf'.
    rewrite length_app. simpl. lia. }
  assert (Hkinds : kinds_kept hf' h').
  { intros l ob Hl. unfold h'.
    destruct (decide (l = length hf)) as [->|Hne1].
    - unfold hf' in Hl. rewrite lookup_alloc in Hl. injection Hl as <-.
      eexists. split; [exact Hlook|done].
    - rewrite list_lookup_insert_ne by done.
      destruct (decide (l = o)) as [->|Hne2].
      + assert (hf' !! o = Some (Obj kd (<["series" := VNull]> m0))) as Hof.
        { eapply prefix_lookup_Some; [exact Hom|].
          trans hf; [done|by apply prefix_app_r]. }
        rewrite Hof in Hl. injection Hl as <-.
        eexists. split; [apply list_lookup_insert_eq; by eapply lookup_lt_Some|done].
      + rewrite list_lookup_insert_ne by done. by exists ob. }
  assert (HRc : closed_props (length hf') R = true).
  { eapply closed_props_mono; [|done]. unfold hf'. rewrite length_app. lia. }
  assert (Hkeeps : keeps hf' h' R).
  { intros l Hl.
    pose proof (reach_fresh _ _ _ _ Hfresh Hregion Hl) as Hge.
    assert (l < length hf).
    { apply (reach_lt hf R).
      apply (keeps_reach hf hf'); [done| | | |done].
      - apply extends_kinds_kept, prefix_alloc.
      - done.
      - apply extends_keeps, prefix_alloc. }
    unfold h'. rewrite !list_lookup_insert_ne by lia. done. }
  intros k p w Hk Hover.
  apply (get_path_setting h' _ (<["series" := s]> R)).
  { destruct (hasRenderToArg h0 a); unfold own_props; cbn [options];
      by rewrite Hlook. }
  rewrite (setting_head h' _ R) by by rewrite lookup_insert_ne.
  rewrite (keeps_setting hf' h') by done.
  apply Hov.
  change (map (own_props hm) [VRef defaults; VRef o; VRef forced])
    with [own_props hm (VRef defaults); own_props hm (VRef o);
          own_props hm (VRef forced)].
  by rewrite (own_props_at _ _ _ _ Hom).
Qed.

End Final.

End OptionsFacts.

Module FrameFacts.

Import Js Store StoreFacts MonadFacts ExtendFacts MergeSpec MergeFacts.
Import MergeArgsFacts TreeFacts MapSpec RunFacts MapChartFacts FrameSpec.

Lemma preserves_ret {A} I (a : A) : preserves I (mret a) (fun _ => True).
Proof. by intros h Hh. Qed.

Lemma preserves_bind {A B} I (m : M A) (f : A -> M B) Q Q' :
  preserves I m Q -> (forall a, Q a -> preserves I (f a) Q') ->
  preserves I (m ≫= f) Q'.
Proof.
  intros Hm Hf h Hh. specialize (Hm h Hh). unfold mbind, M_bind.
  destruct (m h) as [[a h']|h'|]; [|done..].
  destruct Hm as [Hh' Ha]. by apply Hf.
Qed.

Lemma preserves_weaken {A} I (m : M A) (Q Q' : A -> Prop) :
  preserves I m Q -> (forall a, Q a -> Q' a) -> preserves I m Q'.
Proof.
  intros Hm HQ h Hh. specialize (Hm h Hh).
  destruct (m h) as [[a h']|h'|]; [|done..]. destruct Hm. auto.
Qed.

Lemma preserves_after {A} I (m : M A) Q h h' :
  preserves I m Q -> I h -> store_after (m h) = Some h' -> I h'.
Proof.
  intros Hm Hh. specialize (Hm h Hh).
  destruct (m h) as [[a h1]|h1|]; simpl; [|by intros [= <-]|done].
  intros [= <-]. by destruct Hm.
Qed.

Lemma preserves_get_prop I v k : preserves I (get_prop v k) (fun _ => True).
Proof. intros h Hh. unfold get_prop. by destruct v. Qed.

Section Kept.

Variables (l : loc) (ob : object).

Lemma kept_extends (h h' : heap) :
  h `prefix_of` h' -> kept l ob h -> kept l ob h'.
Proof. intros Hp Hl. by eapply prefix_lookup_Some. Qed.

(** A new object is not the one that is kept. *)
Lemma preserves_alloc o :
  preserves (kept l ob) (alloc o) (fun r => r <> VRef l).
Proof.
  intros h Hl. simpl. split.
  - apply (kept_extends h); [by apply prefix_app_r|done].
  - apply lookup_lt_Some in Hl. intros [= <-]. lia.
Qed.

Lemma preserves_literal kvs :
  preserves (kept l ob) (literal kvs) (fun r => r <> VRef l).
Proof. apply preserves_alloc. Qed.

(** A write to another object. *)
Lemma preserves_set_prop v k x :
  v <> VRef l -> preserves (kept l ob) (set_prop v k x) (fun _ => True).
Proof.
  intros Hne h Hl. unfold set_prop. destruct v as [| | | | |l']; try done.
  destruct (h !! l') as [ob'|] eqn:Hl'; [|done]. split; [|done].
  unfold kept. rewrite list_lookup_insert_ne; [done|congruence].
Qed.

Section Copy.

Variable f : gmap string value -> gmap string value -> M (gmap string value).
Hypothesis Hf : forall copy original,
  preserves (kept l ob) (f copy original) (fun _ => True).

Lemma preserves_copy_entry copy entry :
  preserves (kept l ob) (copy_entry f copy entry) (fun _ => True).
Proof using Hf.
  intros h Hl. unfold copy_entry.
  destruct (plain_props h entry.2) as [original|]; [|done].
  refine (preserves_bind _ _ _ _ _ (Hf _ _) _ h Hl). intros merged _.
  eapply preserves_bind; [apply preserves_alloc|]. intros nested _.
  apply preserves_ret.
Qed.

Lemma preserves_copy_entries entries copy :
  preserves (kept l ob) (copy_entries f copy entries) (fun _ => True).
Proof using Hf.
  revert copy. induction entries as [|entry entries IH]; intros copy; simpl.
  - apply preserves_ret.
  - eapply preserves_bind; [apply preserves_copy_entry|]. intros copy' _. apply IH.
Qed.

End Copy.

(** The deep merge writes to new objects only. *)
Lemma preserves_doCopy fuel copy original :
  preserves (kept l ob) (doCopy fuel copy original) (fun _ => True).
Proof.
  revert copy original. induction fuel as [|fuel IH]; intros copy original.
  - by intros h Hl.
  - simpl. by apply preserves_copy_entries.
Qed.

Lemma preserves_merge_args fuel args ret :
  preserves (kept l ob) (merge_args fuel ret args) (fun _ => True).
Proof.
  revert ret. induction args as [|arg args IH]; intros ret; simpl.
  - apply preserves_ret.
  - eapply preserves_bind; [|intros ret' _; apply IH].
    intros h Hl. by apply preserves_doCopy.
Qed.

Lemma preserves_merge fuel args :
  preserves (kept l ob) (merge fuel args) (fun r => r <> VRef l).
Proof.
  unfold merge. eapply preserves_bind; [apply preserves_merge_args|].
  intros ret _. apply preserves_alloc.
Qed.

(** [mapChart] leaves the objects of the store as they are, but for the
    one it takes for the options; so it does when it throws. *)
Lemma mapChart_frame fuel defaultOptions a b c h h' :
  store_after (mapChart fuel defaultOptions a b c h) = Some h' ->
  kept l ob h -> options_arg h a b <> VRef l -> kept l ob h'.
Proof.
  intros Hafter Hl Hne. destruct (nullish a) eqn:Ha.
  { destruct a; try done; by injection Hafter as <-. }
  unfold mapChart in Hafter.
  rewrite (bind_run _ _ _ _ _ (nodeName_run a h Ha)) in Hafter.
  rewrite hasRenderToArg_alt in Hafter. fold (options_arg h a b) in Hafter.
  set (options := options_arg h a b) in *.
  eapply preserves_after; [|exact Hl|exact Hafter].
  repeat (eapply preserves_bind;
    [first [ apply preserves_literal | apply preserves_get_prop
           | apply preserves_merge
           | apply preserves_set_prop; assumption ]
    |intros ? ?]).
  apply preserves_ret.
Qed.

End Kept.

End FrameFacts.

Module OverlayFacts.

Import Js Store StoreFacts MergeSpec.

Lemma overlay_three h m1 m2 m3 p :
  overlay h None [m1; m2; m3] p =
  match setting h m3 p with
  | Some w => Some w
  | None =>
      if untouched h m3 p
      then match setting h m2 p with
           | Some w => Some w
           | None => if untouched h m2 p then setting h m1 p else None
           end
      else None
  end.
Proof.
  simpl. destruct (setting h m3 p); [done|]. destruct (untouched h m3 p); [|done].
  destruct (setting h m2 p); [done|]. destruct (untouched h m2 p); [|done].
  destruct (setting h m1 p); [done|]. by destruct (untouched h m1 p).
Qed.

End OverlayFacts.

Import Js Store StoreFacts MonadFacts ExtendFacts MergeSpec MergeFacts.
Import MergeArgsFacts TreeFacts MapSpec RunFacts MapChartFacts OptionsFacts.
Import FrameSpec FrameFacts ChartSpec OverlayFacts.



(** C1: [mapChart] composes the options of the chart by a deep merge of
    three layers: the map defaults, the user's options, the forced
    overrides.  The call returns a chart in whose options
    [chart.inverted] and [chart.alignTicks] are both [false], whatever the
    user's options say; every setting of the user's options that no forced
    override covers is read from the options of the chart as the user gave
    it; and every map default (panning enabled, of type xy; chart type
    map; the credits texts; [tooltip.followTouchMove] false; hidden x and
    y axes, the y axis reversed) on which the user's options say nothing
    is read from them as well. *)
Theorem mapChart_layers fuel defaultOptions a b c h0 o kd m0 d :
  mapChart_pre fuel defaultOptions a b h0 o kd m0 d ->
  exists chart h',
    mapChart fuel defaultOptions a b c h0 = Ok (chart, h') /\
    get_path h' (options chart) ["chart"; "inverted"] = VBool false /\
    get_path h' (options chart) ["chart"; "alignTicks"] = VBool false /\
    (forall p w, setting h0 m0 p = Some w -> forced_override p = false ->
       get_path h' (options chart) p = w) /\
    (forall p w,
       (p, w) ∈ mapDefaults
                  (prop h0 (prop h0 defaultOptions "credits") "mapText")
                  (prop h0 (prop h0 defaultOptions "credits") "mapTextFull") ->
       untouched h0 m0 p = true ->
       get_path h' (options chart) p = w).
Proof.
  intros [Hh0 Hdo Hoptions Ho Hdo_nn Hcr_nn Hmt Hmtf Hd Hfuel Hfuel2].
  destruct (mapChart_run fuel defaultOptions a b c h0 o kd m0 d)
    as (chart & h' & Hcall & Hrun); try done.
  exists chart, h'. split; [exact Hcall|].
  destruct (run_overlay _ _ _ _ _ _ _ _ _ _ _ Hh0 Ho Hrun)
    as (hm & defaults & forced & Hhm & Hset & Hom & Hdef & Hinv & Hal & Hfo & Hget).
  set (D := own_props hm (VRef defaults)) in *.
  set (F := own_props hm (VRef forced)) in *.
  set (U := <["series" := VNull]> m0) in *.
  destruct (series_set_keeps o VNull h0 hm kd m0 d) as (HU & Hkeeps & _);
    try done.
  pose proof (series_set_kinds_kept _ _ _ _ Hset) as Hkinds.
  assert (Hm0 : closed_props (length h0) m0 = true)
    by apply (proj1 (closed_spec h0) Hh0 o _ Ho).
  split; [|split; [|split]].
  - apply Hget; [done|]. rewrite overlay_three. by rewrite Hinv.
  - apply Hget; [done|]. rewrite overlay_three. by rewrite Hal.
  - intros [|k p] w Hw Hover; [done|].
    destruct (decide (k = "series")) as [->|Hk].
    + destruct (run_chart _ _ _ _ _ _ _ _ _ _ _ Hrun) as (r & R & Hr & -> & Hlook).
      pose proof (run_series_set _ _ _ _ _ _ _ _ _ _ _ Ho Hrun) as Hset'.
      apply (get_path_setting h' _ (<["series" := default VUndefined (m0 !! "series")]> R)).
      { destruct (hasRenderToArg h0 a); unfold own_props; cbn [options];
          by rewrite Hlook. }
      assert (exists v, m0 !! "series" = Some v) as [v Hv].
      { simpl in Hw. destruct (m0 !! "series"); [eauto|done]. }
      rewrite (setting_head h' _ m0) by by rewrite lookup_insert_eq, Hv.
      rewrite (keeps_setting h0 h'); try done.
      * by eapply series_set_kinds_kept.
      * by eapply series_set_keeps_tree.
    + apply Hget; [done|]. rewrite overlay_three.
      rewrite (untouched_no_setting hm F) by by apply Hfo.
      rewrite Hfo by done.
      rewrite (keeps_setting h0 hm) by done.
      rewrite (setting_head h0 U m0) by by apply lookup_insert_ne.
      by rewrite Hw.
  - intros p w Hin Hun.
    destruct (forced_override_defaults _ _ _ _ Hin) as (Hover & k & p' & -> & Hk).
    apply Hget; [done|]. rewrite overlay_three.
    rewrite (untouched_no_setting hm F) by by apply Hfo.
    rewrite Hfo by done.
    assert (HunU : untouched hm U (k :: p') = true).
    { rewrite (keeps_untouched h0 hm) by done.
      by rewrite (untouched_head h0 U m0) by by apply lookup_insert_ne. }
    rewrite (untouched_no_setting hm U) by done. rewrite HunU.
    by apply Hdef.
Qed.

Lemma mapChart_layers_witness :
  exists chart h',
    mapChart 5 Demo.defaultOptions (VRef 2) VUndefined VUndefined Demo.store
      = Ok (chart, h') /\
    get_path h' (options chart) ["chart"; "inverted"] = VBool false /\
    get_path h' (options chart) ["chart"; "alignTicks"] = VBool false /\
    (forall p w, setting Demo.store Demo.userOptions p = Some w ->
       forced_override p = false -> get_path h' (options chart) p = w) /\
    (forall p w,
       (p, w) ∈ mapDefaults
                  (prop Demo.store (prop Demo.store Demo.defaultOptions "credits") "mapText")
                  (prop Demo.store (prop Demo.store Demo.defaultOptions "credits") "mapTextFull") ->
       untouched Demo.store Demo.userOptions p = true ->
       get_path h' (options chart) p = w).
Proof.
  apply (mapChart_layers 5 Demo.defaultOptions (VRef 2) VUndefined
           VUndefined Demo.store 2 Plain Demo.userOptions 1).
  split; try (vm_compute; reflexivity); lia.
Defined.

Lemma outcome_returns {A} (r : result (A * heap)) P :
  outcome r P -> exists a h, r = Ok (a, h) /\ P a h.
Proof. destruct r as [[a h]|?|]; [eauto|done..]. Qed.

(** On the options of the sample store, the chart type of the user wins
    over the map default, and the forced [inverted] over the user's. *)
Example mapChart_demo :
  exists chart h',
    mapChart 5 Demo.defaultOptions (VRef 2) VUndefined VUndefined Demo.store
      = Ok (chart, h') /\
    (get_path h' (options chart) ["chart"; "type"] = VString "line" /\
     get_path h' (options chart) ["chart"; "inverted"] = VBool false /\
     get_path h' (options chart) ["yAxis"; "reversed"] = VBool true /\
     get_path h' (options chart) ["series"] = VRef 4).
Proof. apply outcome_returns. vm_compute. by repeat split. Qed.




(** * Further properties of the code *)

(** ** The tokenizer *)

Module TextFacts.

Import Re ReFacts Words JoinFacts Text.

Lemma blank_no_letter ws : blank ws = true -> test is_letter ws = false.
Proof.
  induction ws as [|c ws IH]; [done|]. simpl. intros [Hc Hws]%andb_prop.
  by rewrite (space_not_letter _ Hc), IH.
Qed.

Lemma trim_start_blank ws s : blank ws = true -> trim_start (ws +:+ s) = trim_start s.
Proof.
  induction ws as [|c ws IH]; [done|]. simpl. intros [Hc Hws]%andb_prop.
  rewrite Hc. auto.
Qed.

Lemma trim_end_blank a ws : blank ws = true -> trim_end (a +:+ ws) = trim_end a.
Proof.
  intros Hws. induction a as [|c a IH].
  - rewrite append_nil_l. induction ws as [|c ws IH]; [done|].
    simpl in Hws. apply andb_prop in Hws as [Hc Hws].
    rewrite trim_end_cons, (IH Hws). simpl. by rewrite Hc.
  - rewrite append_cons, !trim_end_cons. by rewrite IH.
Qed.

Lemma trim_blank y ws :
  blank ws = true ->
  trim_end (trim_start (y +:+ ws)) = trim_end (trim_start y).
Proof.
  intros Hws. induction y as [|c y IH].
  - rewrite append_nil_l. rewrite <- (append_nil_r ws) at 1.
    by rewrite trim_start_blank.
  - rewrite append_cons. simpl. destruct (is_space c); [done|].
    rewrite <- append_cons. by apply trim_end_blank.
Qed.

Lemma letters_append a b : letters (a +:+ b) = letters a ++ letters b.
Proof.
  induction a as [|c a IH]; [done|]. rewrite append_cons. simpl.
  destruct (is_letter c); by rewrite IH.
Qed.

Lemma letters_no_letter s : test is_letter s = false -> letters s = [].
Proof.
  induction s as [|c s IH]; [done|]. simpl. intros [-> Hs]%orb_false_elim. auto.
Qed.

Lemma letters_move_letters_apart s : letters (move_letters_apart s) = letters s.
Proof.
  induction s as [|c s IH]; [done|]. simpl.
  destruct (is_letter c) eqn:Hc; simpl; rewrite ?Hc, IH; done.
Qed.

Lemma letters_trim_start s : letters (trim_start s) = letters s.
Proof.
  induction s as [|c s IH]; [done|]. simpl.
  destruct (is_space c) eqn:Hc; [|done]. by rewrite (space_not_letter _ Hc).
Qed.

Lemma letters_trim_end s : letters (trim_end s) = letters s.
Proof.
  induction s as [|c s IH]; [done|]. rewrite trim_end_cons. simpl.
  destruct (trim_end s) as [|d t] eqn:Ht.
  - simpl in IH. destruct (is_space c) eqn:Hc.
    + by rewrite (space_not_letter _ Hc).
    + simpl. by rewrite <- IH.
  - simpl. simpl in IH. by rewrite <- IH.
Qed.

Lemma letters_remove_delim s : letters (remove is_delim s) = letters s.
Proof.
  induction s as [|c s IH]; [done|]. simpl.
  destruct (is_delim c) eqn:Hc; simpl; rewrite IH; [|done].
  by rewrite (delim_not_letter _ Hc).
Qed.

Lemma letters_concat pieces :
  letters (String.concat "" pieces) = concat (map letters pieces).
Proof.
  induction pieces as [|p pieces IH]; [done|].
  destruct pieces as [|q pieces].
  - simpl. by rewrite app_nil_r.
  - change (String.concat "" (p :: q :: pieces))
      with (p +:+ "" +:+ String.concat "" (q :: pieces)).
    rewrite append_nil_l, letters_append, IH. done.
Qed.

End TextFacts.

Module SplitFacts.

Import Re ReFacts Words JoinFacts Text TextFacts.

Lemma trim_start_blank_empty ws : blank ws = true -> trim_start ws = "".
Proof.
  intros H. rewrite <- (append_nil_r ws). by rewrite trim_start_blank.
Qed.

(** A delimiter at the start leaves an empty piece there. *)
Lemma split_head_delim c s :
  is_delim c = true -> exists ts, split (String c s) = "" :: ts.
Proof. intros Hc. by apply split_on_starts_with. Qed.

(** A delimiter at the end leaves an empty piece there. *)
Lemma split_last_delim s c :
  is_delim c = true -> last (split (s +:+ String c "")) = Some "".
Proof.
  intros Hc. unfold split. induction s as [|d s IH].
  - rewrite append_nil_l. simpl. by rewrite Hc.
  - rewrite append_cons. simpl.
    destruct (is_delim d).
    + destruct (starts_with is_delim (s +:+ String c "")); [done|].
      rewrite last_cons, IH. done.
    + pose proof (split_on_nonempty is_delim (s +:+ String c "")) as Hne.
      destruct (split_on is_delim (s +:+ String c "")) as [|t ts] eqn:Hsplit;
        [done|].
      destruct ts as [|t' ts]; [|exact IH].
      injection IH as ->.
      apply (split_on_single_empty (s +:+ String c "")) in Hsplit.
      by destruct s.
Qed.

Lemma trim_start_snoc s c :
  is_space c = false -> trim_start (s +:+ String c "") = trim_start s +:+ String c "".
Proof.
  intros Hc. induction s as [|d s IH].
  - rewrite append_nil_l. simpl. by rewrite Hc.
  - rewrite append_cons. simpl. destruct (is_space d); [done|].
    by rewrite append_cons.
Qed.

Lemma trim_end_snoc s c :
  is_space c = false -> trim_end (s +:+ String c "") = s +:+ String c "".
Proof.
  intros Hc. apply trim_end_append; [|done]. simpl. by rewrite Hc.
Qed.

End SplitFacts.

Module TrimFacts.

Import Re ReFacts Words JoinFacts Text TextFacts SplitFacts.

Lemma test_trim_start class s :
  test class s = false -> test class (trim_start s) = false.
Proof.
  induction s as [|c s IH]; [done|]. simpl. intros [Hc Hs]%orb_false_elim.
  destruct (is_space c); [auto|]. simpl. by rewrite Hc, Hs.
Qed.

Lemma test_trim_end class s :
  test class s = false -> test class (trim_end s) = false.
Proof.
  induction s as [|c s IH]; [done|]. rewrite trim_end_cons. simpl.
  intros [Hc Hs]%orb_false_elim. specialize (IH Hs).
  destruct (trim_end s) as [|d t].
  - destruct (is_space c); [done|]. simpl. by rewrite Hc.
  - simpl. simpl in IH. by rewrite Hc, IH.
Qed.

Lemma commands_pieces parseFloat pieces :
  Forall (fun piece => test is_letter piece = true -> String.length piece = 1)
    pieces ->
  commands (map (classify parseFloat) pieces) = concat (map letters pieces).
Proof.
  induction 1 as [|piece pieces Hpiece _ IH]; [done|]. simpl.
  unfold classify at 1. destruct (test is_letter piece) eqn:Hl.
  - rewrite (test_letter_A_z _ Hl). simpl. rewrite Hl, IH.
    specialize (Hpiece eq_refl). destruct piece as [|c [|d piece]]; try done.
    simpl in Hl. rewrite orb_false_r in Hl. simpl. by rewrite Hl.
  - rewrite (letters_no_letter _ Hl). simpl.
    destruct (negb (test in_A_z piece)); simpl; rewrite ?Hl; exact IH.
Qed.

End TrimFacts.

Import Re ReFacts Words JoinFacts Text TextFacts SplitFacts TrimFacts.

Section TokenizerFacts.

Variable parseFloat : string -> float.

(** X1: the token array of a string is never empty, and a string of
    whitespace only (the empty string too) gives one token: what
    [parseFloat] makes of the empty string. *)
Theorem splitPath_blank (s : string) :
  splitPath_arr parseFloat (PathString s) <> [] /\
  (blank s = true ->
   splitPath_arr parseFloat (PathString s) = [TNum (parseFloat "")]).
Proof.
  split.
  - simpl. intros E%fmap_nil_inv. by apply split_on_nonempty in E.
  - intros Hs. simpl.
    rewrite (move_letters_apart_no_letter s) by by apply blank_no_letter.
    by rewrite trim_start_blank_empty.
Qed.

(** X2: the command letters among the tokens are the letters of the
    string, one token for each letter and in the order of the string. *)
Theorem splitPath_commands (s : string) :
  commands (splitPath_arr parseFloat (PathString s)) = letters s.
Proof.
  simpl. set (trimmed := trim_end (trim_start (move_letters_apart s))).
  assert (Hiso : isolated true trimmed = true).
  { apply isolated_trim_end, (isolated_trim_start true),
      isolated_move_letters_apart. }
  rewrite (commands_pieces parseFloat) by by apply split_letter_pieces.
  rewrite <- letters_concat. unfold split. rewrite split_on_concat.
  rewrite letters_remove_delim. unfold trimmed.
  by rewrite letters_trim_end, letters_trim_start, letters_move_letters_apart.
Qed.

(** X3: whitespace before and after the path, tabs and line breaks too,
    changes nothing. *)
Theorem splitPath_outer_whitespace (before s after : string) :
  blank before = true -> blank after = true ->
  splitPath_arr parseFloat (PathString (before +:+ s +:+ after)) =
  splitPath_arr parseFloat (PathString s).
Proof.
  intros Hb Ha. simpl. rewrite !move_letters_apart_append.
  rewrite (move_letters_apart_no_letter before) by by apply blank_no_letter.
  rewrite (move_letters_apart_no_letter after) by by apply blank_no_letter.
  by rewrite trim_start_blank, trim_blank.
Qed.

(** X4: a comma or semicolon at the start of the string gives an empty
    first piece, and one at its end an empty last piece: the token there is
    what [parseFloat] makes of the empty string. *)
Theorem splitPath_outer_separator (c : ascii) (s : string) :
  is_separator c = true ->
  head (splitPath_arr parseFloat (PathString (String c s)))
    = Some (TNum (parseFloat "")) /\
  last (splitPath_arr parseFloat (PathString (s +:+ String c "")))
    = Some (TNum (parseFloat "")).
Proof.
  intros [Hd Hs%negb_true_iff]%andb_prop.
  pose proof (delim_not_letter _ Hd) as Hl. split.
  - simpl. rewrite Hl. simpl. rewrite Hs, trim_end_cons.
    assert (exists t, (match trim_end (move_letters_apart s) with
                       | "" => if is_space c then "" else String c ""
                       | String a s0 => String c (String a s0)
                       end) = String c t) as [t ->].
    { destruct (trim_end (move_letters_apart s)); rewrite ?Hs; eauto. }
    by destruct (split_head_delim c t Hd) as [ts ->].
  - simpl. rewrite move_letters_apart_append. simpl. rewrite Hl.
    rewrite trim_start_snoc, trim_end_snoc by done.
    rewrite fmap_last, split_last_delim by done. done.
Qed.

(** X5: a string that holds no space, comma or semicolon and no character
    from [A] to [z] is one number, whatever else it holds (a sign between
    digits, a tab): [parseFloat] gets the whole trimmed string. *)
Theorem splitPath_one_number (s : string) :
  test is_delim s = false -> test in_A_z s = false ->
  splitPath_arr parseFloat (PathString s) =
  [TNum (parseFloat (trim_end (trim_start s)))].
Proof.
  intros Hd Hz. simpl.
  assert (Hl : test is_letter s = false).
  { destruct (test is_letter s) eqn:E; [|done].
    by rewrite (test_letter_A_z _ E) in Hz. }
  rewrite (move_letters_apart_no_letter s Hl).
  rewrite split_word by by apply test_trim_end, test_trim_start.
  simpl. unfold classify. by rewrite test_trim_end by by apply test_trim_start.
Qed.

End TokenizerFacts.

Lemma splitPath_outer_whitespace_witness :
  splitPath_arr Sample.parseFloat
    (PathString (String tab " " +:+ "M 1 2" +:+ String tab "")) =
  splitPath_arr Sample.parseFloat (PathString "M 1 2").
Proof.
  apply (splitPath_outer_whitespace Sample.parseFloat (String tab " ") "M 1 2"
           (String tab "")); reflexivity.
Defined.

Lemma splitPath_outer_separator_witness :
  head (splitPath_arr Sample.parseFloat (PathString (String "," "1")))
    = Some (TNum (Sample.parseFloat "")) /\
  last (splitPath_arr Sample.parseFloat (PathString ("1" +:+ String "," "")))
    = Some (TNum (Sample.parseFloat "")).
Proof.
  apply (splitPath_outer_separator Sample.parseFloat "," "1"). reflexivity.
Defined.

Lemma splitPath_one_number_witness :
  splitPath_arr Sample.parseFloat (PathString "10-20") =
  [TNum (Sample.parseFloat (trim_end (trim_start "10-20")))].
Proof.
  apply (splitPath_one_number Sample.parseFloat "10-20"); reflexivity.
Defined.

Module AppendFacts.

Import Re ReFacts Words JoinFacts Text TextFacts SplitFacts TrimFacts.

Lemma delimiters_app a b :
  delimiters a = true -> delimiters b = true -> delimiters (a +:+ b) = true.
Proof.
  intros Ha Hb. induction a as [|c a IH]; [done|]. rewrite append_cons.
  simpl in *. apply andb_prop in Ha as [-> Ha]. auto.
Qed.

Lemma delimiters_spaces k : delimiters (spaces k) = true.
Proof. by induction k. Qed.

Lemma delimiters_no_letter d : delimiters d = true -> test is_letter d = false.
Proof.
  induction d as [|c d IH]; [done|]. simpl. intros [Hc Hd]%andb_prop.
  by rewrite (delim_not_letter _ Hc), IH.
Qed.

Lemma starts_with_app class a b :
  a <> "" -> starts_with class (a +:+ b) = starts_with class a.
Proof. by destruct a. Qed.

Lemma split_on_cons delim c s :
  split_on delim (String c s) =
  if delim c then
    if starts_with delim s then split_on delim s else "" :: split_on delim s
  else
    match split_on delim s with
    | t :: ts => String c t :: ts
    | [] => [String c ""]
    end.
Proof. reflexivity. Qed.

(** A run of delimiters before a piece. *)
Lemma split_delimiters d r :
  d <> "" -> delimiters d = true -> starts_with is_delim r = false ->
  split (d +:+ r) = "" :: split r.
Proof.
  intros Hne Hd Hr. unfold split. induction d as [|c d IH]; [done|].
  simpl in Hd. apply andb_prop in Hd as [Hc Hd].
  rewrite append_cons, split_on_cons, Hc. destruct d as [|c' d].
  - rewrite append_nil_l. by rewrite Hr.
  - rewrite starts_with_app by done.
    pose proof Hd as [Hc' _]%andb_prop.
    change (starts_with is_delim (String c' d)) with (is_delim c').
    rewrite Hc'. by apply IH.
Qed.

(** The pieces on the two sides of a run of delimiters. *)
Lemma split_around u a d r :
  is_delim a = false -> d <> "" -> delimiters d = true ->
  starts_with is_delim r = false ->
  split (u +:+ String a "" +:+ d +:+ r) = split (u +:+ String a "") ++ split r.
Proof.
  intros Ha Hne Hd Hr. unfold split. induction u as [|c u IH].
  - pose proof (split_delimiters d r Hne Hd Hr) as E. unfold split in E.
    rewrite !append_nil_l, append_cons, append_nil_l, !split_on_cons, Ha, E.
    done.
  - rewrite !(append_cons c u), !split_on_cons. destruct (is_delim c).
    + assert (Hs : starts_with is_delim (u +:+ String a "" +:+ d +:+ r)
                   = starts_with is_delim (u +:+ String a "")).
      { destruct u; rewrite ?append_nil_l, ?append_cons; done. }
      rewrite Hs, IH. by destruct (starts_with is_delim (u +:+ String a "")).
    + rewrite IH.
      pose proof (split_on_nonempty is_delim (u +:+ String a "")) as Hn.
      by destruct (split_on is_delim (u +:+ String a "")).
Qed.

Lemma trim_start_solid x a rest :
  is_space a = false ->
  trim_start (x +:+ String a rest) = trim_start x +:+ String a rest.
Proof.
  intros Ha. induction x as [|c x IH].
  - rewrite !append_nil_l. simpl. by rewrite Ha.
  - rewrite append_cons. simpl. destruct (is_space c); [done|].
    by rewrite append_cons.
Qed.

Lemma trim_end_solid_cons b y :
  is_space b = false -> exists v, trim_end (String b y) = String b v.
Proof.
  intros Hb. rewrite trim_end_cons. destruct (trim_end y); rewrite ?Hb; eauto.
Qed.

Lemma trim_end_solid x b y :
  is_space b = false ->
  trim_end (x +:+ String b y) = x +:+ trim_end (String b y).
Proof.
  intros Hb. destruct (trim_end_solid_cons b y Hb) as [v Hv].
  induction x as [|c x IH]; [by rewrite !append_nil_l|].
  rewrite !append_cons, trim_end_cons, IH, Hv.
  destruct x; by rewrite ?append_nil_l, ?append_cons.
Qed.

(** Appends, brought to one shape. *)
Ltac flatten_append :=
  repeat first [rewrite append_assoc | rewrite append_cons | rewrite append_nil_l].

Lemma trim_join x a d b y :
  is_space a = false -> is_space b = false ->
  trim_end (trim_start (x +:+ String a (d +:+ String b y))) =
  trim_start x +:+ String a (d +:+ trim_end (String b y)).
Proof.
  intros Ha Hb. rewrite trim_start_solid by done.
  replace (trim_start x +:+ String a (d +:+ String b y))
    with ((trim_start x +:+ String a d) +:+ String b y) by by flatten_append.
  rewrite trim_end_solid by done. by flatten_append.
Qed.

(** A character with the spaces that [move_letters_apart] puts around
    it. *)
Lemma move_letters_apart_char a :
  exists j k, move_letters_apart (String a "") = spaces j +:+ String a (spaces k).
Proof.
  simpl. destruct (is_letter a).
  - by exists 1, 1.
  - by exists 0, 0.
Qed.

End AppendFacts.

Import Re ReFacts Words JoinFacts Text TextFacts SplitFacts TrimFacts AppendFacts.

Section AppendTokens.

Variable parseFloat : string -> float.

(** X6: the tokens of two paths joined by a run of spaces, commas and
    semicolons are the tokens of the first followed by the tokens of the
    second, when the first ends and the second starts with a character
    that is neither whitespace nor a delimiter.  So which delimiters stand
    between two tokens, and how many, makes no difference. *)
Theorem splitPath_append (s1 : string) (a : ascii) (d : string) (b : ascii)
    (s2 : string) :
  solid a = true -> solid b = true -> d <> "" -> delimiters d = true ->
  splitPath_arr parseFloat
    (PathString ((s1 +:+ String a "") +:+ d +:+ (String b s2))) =
  splitPath_arr parseFloat (PathString (s1 +:+ String a "")) ++
  splitPath_arr parseFloat (PathString (String b s2)).
Proof.
  intros [Has%negb_true_iff Had%negb_true_iff]%andb_prop
         [Hbs%negb_true_iff Hbd%negb_true_iff]%andb_prop Hne Hd.
  change (String b s2) with (String b "" +:+ s2).
  unfold splitPath_arr. cbv zeta. rewrite <- fmap_app. f_equal.
  rewrite !move_letters_apart_append.
  rewrite (move_letters_apart_no_letter d) by by apply delimiters_no_letter.
  destruct (move_letters_apart_char a) as (j & k & ->).
  destruct (move_letters_apart_char b) as (j' & k' & ->).
  set (x := move_letters_apart s1). set (y := move_letters_apart s2).
  set (D := spaces k +:+ d +:+ spaces j').
  destruct (trim_end_solid_cons b (spaces k' +:+ y) Hbs) as [v Hv].
  (* the first path, trimmed *)
  assert (E1 : trim_end (trim_start (x +:+ spaces j +:+ String a (spaces k)))
               = trim_start (x +:+ spaces j) +:+ String a "").
  { replace (x +:+ spaces j +:+ String a (spaces k))
      with ((x +:+ spaces j) +:+ String a (spaces k)) by by flatten_append.
    rewrite trim_start_solid by done.
    replace (trim_start (x +:+ spaces j) +:+ String a (spaces k))
      with ((trim_start (x +:+ spaces j) +:+ String a "") +:+ spaces k)
      by by flatten_append.
    rewrite trim_end_spaces. by apply trim_end_snoc. }
  (* the second path, trimmed *)
  assert (E2 : trim_end (trim_start ((spaces j' +:+ String b (spaces k')) +:+ y))
               = String b v).
  { replace ((spaces j' +:+ String b (spaces k')) +:+ y)
      with (spaces j' +:+ String b (spaces k' +:+ y)) by by flatten_append.
    rewrite trim_start_spaces.
    rewrite trim_start_id by (simpl; by rewrite Hbs). done. }
  (* the two joined, trimmed *)
  assert (E : trim_end (trim_start
                ((x +:+ spaces j +:+ String a (spaces k)) +:+ d +:+
                 (spaces j' +:+ String b (spaces k')) +:+ y))
              = (trim_start (x +:+ spaces j)) +:+ String a "" +:+ D +:+ String b v).
  { replace ((x +:+ spaces j +:+ String a (spaces k)) +:+ d +:+
             (spaces j' +:+ String b (spaces k')) +:+ y)
      with ((x +:+ spaces j) +:+ String a (D +:+ String b (spaces k' +:+ y)))
      by (unfold D; by flatten_append).
    rewrite trim_join, Hv by done. by flatten_append. }
  rewrite E, E1, E2.
  apply split_around; [done| | |by simpl; rewrite Hbd].
  - unfold D. destruct (spaces k); [|done]. rewrite append_nil_l.
    by destruct d.
  - unfold D. repeat apply delimiters_app; auto using delimiters_spaces.
Qed.

End AppendTokens.

Lemma splitPath_append_witness :
  splitPath_arr Sample.parseFloat
    (PathString (("M1" +:+ String "0" "") +:+ " , " +:+ String "2" "0L")) =
  splitPath_arr Sample.parseFloat (PathString ("M1" +:+ String "0" "")) ++
  splitPath_arr Sample.parseFloat (PathString (String "2" "0L")).
Proof.
  apply (splitPath_append Sample.parseFloat "M1" "0" " , " "2" "0L");
    reflexivity || discriminate.
Defined.

(** ** The buttons *)

Import ButtonSpec.

Section ButtonCorners.

Local Open Scope float_scope.

Variables x y w h : float.

(** X7: whatever the radius, the top button has square bottom corners
    and the bottom button square top corners: the right side of the top
    button runs to the corner [(x - 1 + w, y - 1 + h)] and the three points
    of each bottom corner curve lie on the corner, and likewise at the top
    of the bottom button, whose path starts in the corner [(x - 1, y - 1)]. *)
Theorem button_square_corners (options : option SymbolOptionsObject) :
  let X := x - 1 in
  let Y := y - 1 in
  let top := topbutton x y w h options in
  let bottom := bottombutton x y w h options in
  Forall2 (Forall2 Path.same_point)
    [part top 3; part top 4; part top 5; part top 6]
    [ [(X + w, Y + h)];
      [(X + w, Y + h); (X + w, Y + h); (X + w, Y + h)];
      [(X, Y + h)];
      [(X, Y + h); (X, Y + h); (X, Y + h)] ] /\
  Forall2 (Forall2 Path.same_point)
    [part bottom 0; part bottom 1; part bottom 2; part bottom 7; part bottom 8]
    [ [(X, Y)];
      [(X + w, Y)];
      [(X + w, Y); (X + w, Y); (X + w, Y)];
      [(X, Y)];
      [(X, Y); (X, Y); (X, Y)] ].
Proof.
  intros X Y top bottom.
  assert (H0 : Num.is_zero 0) by reflexivity.
  pose proof (NumFacts.half_zero _ H0) as H02.
  split; cbn;
    repeat match goal with
           | |- Forall2 _ _ _ => constructor
           | |- Path.same_point _ _ => split; cbn
           end;
    auto using NumFacts.same_refl, NumFacts.add_zero, NumFacts.sub_zero.
Qed.

End ButtonCorners.

(** ** [mapChart] *)

Module AfterFacts.

Import Js Store StoreFacts MonadFacts ExtendFacts MergeSpec MergeFacts.
Import MergeArgsFacts TreeFacts MapSpec RunFacts MapChartFacts OptionsFacts.
Import FrameSpec FrameFacts ChartSpec OverlayFacts.

Lemma reach_delete h (m : gmap string value) k l :
  reach h (delete k m) l -> reach h m l.
Proof.
  intros Hl. remember (delete k m) as m1 eqn:E.
  destruct Hl as [m1 k' l m' Hk Hp|m1 k' l0 m' l Hk Hp Hl]; subst m1;
    apply lookup_delete_Some in Hk as [_ Hk].
  - by eapply reach_here.
  - by eapply reach_below.
Qed.

Section After.

Variables (h0 : heap) (a b c : value) (o : loc) (kd : kind).
Variables (m0 : gmap string value) (mapText mapTextFull : value).
Variables (chart : Chart) (h' : heap).

Hypothesis Hh0 : closed h0 = true.
Hypothesis Ho : h0 !! o = Some (Obj kd m0).
Hypothesis Hrun : run h0 a b c o kd m0 mapText mapTextFull chart h'.

(** The store that [mapChart] leaves has no dangling reference. *)
Lemma run_closed : closed h' = true.
Proof using Hh0 Ho Hrun.
  destruct Hrun as [hm hf defaults forced R Hhm Hlen Hset Hdef Hinv Hal Hfo Hom
                      Hres -> ->].
  apply merge_result_inv in Hres as (Hpmf & Hhf & Hhf' & HR & _).
  pose proof (prefix_length _ _ Hpmf) as Hlenf.
  pose proof (lookup_lt_Some _ _ _ Ho) as Hon.
  set (s := default VUndefined (m0 !! "series")).
  assert (Hm0 : closed_props (length h0) m0 = true)
    by apply (proj1 (closed_spec h0) Hh0 o _ Ho).
  assert (Hs : closed_value (length h0) s = true).
  { unfold s. destruct (m0 !! "series") as [v|] eqn:Hv; [|done].
    by eapply closed_props_lookup. }
  assert (Hlen' : length (hf ++ [Obj Plain R]) = S (length hf))
    by (rewrite length_app; simpl; lia).
  assert (Hof : (hf ++ [Obj Plain R]) !! o
                = Some (Obj kd (<["series" := VNull]> m0))).
  { eapply prefix_lookup_Some; [exact Hom|].
    trans hf; [done|by apply prefix_app_r]. }
  eapply closed_insert.
  - eapply closed_insert; [exact Hhf'|exact Hof|].
    apply closed_props_insert.
    + eapply closed_props_mono; [|exact Hm0]. lia.
    + eapply closed_value_mono; [|exact Hs]. lia.
  - rewrite list_lookup_insert_ne by lia. apply lookup_alloc.
  - rewrite length_insert. apply closed_props_insert.
    + eapply closed_props_mono; [|exact HR]. lia.
    + eapply closed_value_mono; [|exact Hs]. lia.
Qed.

(** The plain objects below the options of the chart, its series aside,
    are new. *)
Lemma run_tree_new :
  exists r R,
    options chart = VRef r /\
    h' !! r = Some (Obj Plain (<["series" := default VUndefined (m0 !! "series")]> R)) /\
    forall l, reach h' (delete "series" R) l -> length h0 <= l.
Proof using Hh0 Ho Hrun.
  destruct Hrun as [hm hf defaults forced R Hhm Hlen Hset Hdef Hinv Hal Hfo Hom
                      Hres -> ->].
  apply merge_result_inv in Hres
    as (Hpmf & Hhf & Hhf' & HR & Hfresh & Hregion & _ & Hov).
  pose proof (prefix_length _ _ Hpmf) as Hlenf.
  pose proof (lookup_lt_Some _ _ _ Ho) as Hon.
  set (s := default VUndefined (m0 !! "series")).
  set (hf' := hf ++ [Obj Plain R]) in *.
  set (h' := <[length hf := _]> (<[o := _]> hf')).
  assert (Hlook : h' !! length hf = Some (Obj Plain (<["series" := s]> R))).
  { apply list_lookup_insert_eq. rewrite length_insert. unfold hf'.
    rewrite length_app. simpl. lia. }
  exists (length hf), R. split; [by destruct (hasRenderToArg h0 a)|].
  split; [exact Hlook|].
  assert (Hkinds : kinds_kept hf' h').
  { intros l ob Hl. unfold h'.
    destruct (decide (l = length hf)) as [->|Hne1].
    - unfold hf' in Hl. rewrite lookup_alloc in Hl. injection Hl as <-.
      eexists. split; [exact Hlook|done].
    - rewrite list_lookup_insert_ne by done.
      destruct (decide (l = o)) as [->|Hne2].
      + assert (hf' !! o = Some (Obj kd (<["series" := VNull]> m0))) as Hof.
        { eapply prefix_lookup_Some; [exact Hom|].
          trans hf; [done|by apply prefix_app_r]. }
        rewrite Hof in Hl. injection Hl as <-.
        eexists. split; [apply list_lookup_insert_eq; by eapply lookup_lt_Some|done].
      + rewrite list_lookup_insert_ne by done. by exists ob. }
  assert (HRc : closed_props (length hf') R = true).
  { eapply closed_props_mono; [|done]. unfold hf'. rewrite length_app. lia. }
  assert (Hkeeps : keeps hf' h' R).
  { intros l Hl.
    pose proof (reach_fresh _ _ _ _ Hfresh Hregion Hl) as Hge.
    assert (l < length hf).
    { apply (reach_lt hf R).
      apply (keeps_reach hf hf'); [done| | | |done].
      - apply extends_kinds_kept, prefix_alloc.
      - done.
      - apply extends_keeps, prefix_alloc. }
    unfold h'. rewrite !list_lookup_insert_ne by lia. done. }
  intros l Hl%reach_delete.
  apply (keeps_reach hf' h') in Hl; [|done..].
  pose proof (reach_fresh _ _ _ _ Hfresh Hregion Hl). lia.
Qed.

End After.

End AfterFacts.

Import Js Store StoreFacts MonadFacts ExtendFacts MergeSpec MergeFacts.
Import MergeArgsFacts TreeFacts MapSpec RunFacts MapChartFacts OptionsFacts.
Import FrameSpec FrameFacts ChartSpec OverlayFacts AfterFacts.

(** X8: [mapChart] needs an options object.  When the argument it takes
    for the options is no object ([undefined] as in
    [mapChart('container')], [null], a number, a string, a boolean), the call
    throws a [TypeError]; no object of the store is changed by then. *)
Theorem mapChart_needs_options fuel defaultOptions a b c h :
  (forall l, options_arg h a b <> VRef l) ->
  exists h', mapChart fuel defaultOptions a b c h = TypeError h' /\
             h `prefix_of` h'.
Proof.
  intros Hno. destruct (nullish a) eqn:Ha.
  { exists h. by destruct a. }
  unfold mapChart.
  rewrite (bind_run _ _ _ _ _ (nodeName_run a h Ha)).
  rewrite hasRenderToArg_alt. fold (options_arg h a b).
  set (options := options_arg h a b) in *.
  rewrite (bind_run _ _ _ _ _ (literal_run _ h)).
  set (h1 := h ++ _).
  assert (Hp : h `prefix_of` h1) by apply prefix_alloc.
  exists h1. split; [|done].
  destruct (nullish defaultOptions) eqn:Hdo.
  { by destruct defaultOptions. }
  rewrite (bind_run _ _ _ _ _ (get_prop_run defaultOptions "credits" h1 Hdo)).
  destruct (nullish options) eqn:Hopt.
  { by destruct options. }
  rewrite (bind_run _ _ _ _ _ (get_prop_run options "series" h1 Hopt)).
  destruct options as [| | | | |l] eqn:E; try done. by destruct (Hno l).
Qed.

Lemma mapChart_needs_options_witness :
  exists h', mapChart 5 Demo.defaultOptions (VString "container") VUndefined
               VUndefined Demo.store = TypeError h' /\
             Demo.store `prefix_of` h'.
Proof.
  apply (mapChart_needs_options 5 Demo.defaultOptions (VString "container")
           VUndefined VUndefined Demo.store).
  intros l. discriminate.
Defined.





(** X11: the series are not put back when [mapChart] throws.  When the
    library's default options have no credits ([undefined] or [null]), a
    call that is given an options object throws a [TypeError] on reading
    the credits texts, after it has set [series] to [null]: in
    the store the throw leaves, the user's options have [series: null],
    and no other object is changed. *)
Theorem mapChart_throw_leaves_series_null fuel defaultOptions a b c h o kd m0 :
  options_arg h a b = VRef o -> h !! o = Some (Obj kd m0) ->
  closed_value (length h) defaultOptions = true ->
  nullish defaultOptions = false ->
  nullish (prop h defaultOptions "credits") = true ->
  exists h',
    mapChart fuel defaultOptions a b c h = TypeError h' /\
    h' !! o = Some (Obj kd (<["series" := VNull]> m0)) /\
    forall l ob, h !! l = Some ob -> l <> o -> h' !! l = Some ob.
Proof.
  intros Hoptions Ho Hdo Hdo_nn Hcr.
  assert (Ha : nullish a = false).
  { revert Hoptions. unfold options_arg, hasRenderToArg. by destruct a. }
  pose proof (lookup_lt_Some _ _ _ Ho) as Hon.
  unfold mapChart.
  rewrite (bind_run _ _ _ _ _ (nodeName_run a h Ha)).
  rewrite hasRenderToArg_alt. fold (options_arg h a b). rewrite Hoptions.
  rewrite (bind_run _ _ _ _ _ (literal_run _ h)).
  set (HA := Obj Plain _). set (h1 := h ++ [HA]).
  assert (Hp1 : h `prefix_of` h1) by apply prefix_alloc.
  rewrite (bind_run _ _ _ _ _ (get_prop_run defaultOptions "credits" h1 Hdo_nn)).
  rewrite (prop_extends h h1) by done.
  rewrite (bind_run _ _ _ _ _ (get_prop_run (VRef o) "series" h1 eq_refl)).
  assert (Ho1 : h1 !! o = Some (Obj kd m0)) by by eapply prefix_lookup_Some.
  rewrite (bind_run _ _ _ _ _ (set_prop_run o "series" VNull h1 kd m0 Ho1)).
  set (h2 := <[o := _]> h1).
  rewrite (bind_run _ _ _ _ _ (literal_run _ h2)).
  set (h3 := h2 ++ _).
  rewrite (bind_run _ _ _ _ _ (literal_run _ h3)).
  set (h4 := h3 ++ _).
  exists h4. split; [|split].
  - by destruct (prop h defaultOptions "credits").
  - apply lookup_app_l_Some, lookup_app_l_Some.
    apply list_lookup_insert_eq. by eapply lookup_lt_Some.
  - intros l ob Hl Hne. apply lookup_app_l_Some, lookup_app_l_Some.
    unfold h2. rewrite list_lookup_insert_ne by done.
    by eapply prefix_lookup_Some.
Qed.

Lemma mapChart_throw_leaves_series_null_witness :
  exists h',
    mapChart 5 (VRef 0) (VRef 1) VUndefined VUndefined Bare.bare
      = TypeError h' /\
    h' !! 1 = Some (Obj Plain (<["series" := VNull]> {["series" := VRef 2]})) /\
    forall l ob, Bare.bare !! l = Some ob -> l <> 1 -> h' !! l = Some ob.
Proof.
  apply (mapChart_throw_leaves_series_null 5 (VRef 0) (VRef 1) VUndefined
           VUndefined Bare.bare 1 Plain {["series" := VRef 2]});
    reflexivity.
Defined.

(** The preconditions of a call hold again in the store it leaves. *)
Lemma mapChart_pre_again fuel defaultOptions a b c h0 o kd m0 d chart h' :
  mapChart_pre fuel defaultOptions a b h0 o kd m0 d ->
  closed_value (length h0) a = true ->
  run h0 a b c o kd m0
    (prop h0 (prop h0 defaultOptions "credits") "mapText")
    (prop h0 (prop h0 defaultOptions "credits") "mapTextFull") chart h' ->
  mapChart_pre fuel defaultOptions a b h' o kd
    (<["series" := default VUndefined (m0 !! "series")]> m0) d.
Proof.
  intros [Hh0 Hdo Hoptions Ho Hdo_nn Hcr_nn Hmt Hmtf Hd Hfuel Hfuel2] Ha Hrun.
  pose proof (run_closed _ _ _ _ _ _ _ _ _ _ _ Hh0 Ho Hrun) as Hh'.
  pose proof (run_series_set _ _ _ _ _ _ _ _ _ _ _ Ho Hrun) as Hset.
  pose proof (series_set_kinds_kept _ _ _ _ Hset) as Hkinds.
  set (s := default VUndefined (m0 !! "series")) in *.
  assert (Hlen : length h0 <= length h').
  { destruct (decide (length h0 <= length h')) as [|Hn]; [done|].
    assert (is_Some (h0 !! length h')) as [ob Hl]
      by (apply lookup_lt_is_Some; lia).
    destruct (Hkinds _ _ Hl) as (ob' & Hl'%lookup_lt_Some & _). lia. }
  assert (Hm0 : closed_props (length h0) m0 = true)
    by apply (proj1 (closed_spec h0) Hh0 o _ Ho).
  assert (Hcredits : closed_value (length h0) (prop h0 defaultOptions "credits") = true)
    by by apply prop_closed.
  assert (Ecredits : prop h' defaultOptions "credits" = prop h0 defaultOptions "credits")
    by by apply (series_set_prop o s).
  assert (Hprops : forall k, prop h' (VRef o) k = prop h0 (VRef o) k).
  { intros k. unfold prop, own_props.
    rewrite (proj2 Hset _ _ Ho), Ho. simpl.
    destruct (decide (k = "series")) as [->|Hk].
    - by rewrite lookup_insert_eq.
    - by rewrite lookup_insert_ne. }
  assert (HnodeName : prop h' a "nodeName" = prop h0 a "nodeName").
  { by apply (series_set_prop o s). }
  split; try done.
  - eapply closed_value_mono; [|exact Hdo]. done.
  - revert Hoptions. unfold options_arg, hasRenderToArg. by rewrite HnodeName.
  - by apply Hset.
  - by rewrite Ecredits.
  - rewrite Ecredits.
    rewrite (series_set_prop o s h0 h') by done.
    apply (kinds_kept_not_plain h0); [done|by apply prop_closed|done].
  - rewrite Ecredits.
    rewrite (series_set_prop o s h0 h') by done.
    apply (kinds_kept_not_plain h0); [done|by apply prop_closed|done].
  - assert (Hd' : shallow h' d m0 = true).
    { apply (keeps_shallow h0 h'); try done. by eapply series_set_keeps_tree. }
    unfold s. destruct (m0 !! "series") as [v|] eqn:Hv.
    + simpl. by rewrite insert_id.
    + by apply shallow_insert_leaf.
Qed.

(** X12: an options object can be used again.  After a call that returned,
    a second call with the same arguments returns as well.  The two charts
    have options objects of their own, both have for [series] the very
    value the user's options had at the start, and the user's options read
    as they did at the start. *)
Theorem mapChart_again fuel defaultOptions a b c h0 o kd m0 d :
  mapChart_pre fuel defaultOptions a b h0 o kd m0 d ->
  closed_value (length h0) a = true ->
  exists chart1 h1 chart2 h2 r1 r2,
    mapChart fuel defaultOptions a b c h0 = Ok (chart1, h1) /\
    mapChart fuel defaultOptions a b c h1 = Ok (chart2, h2) /\
    options chart1 = VRef r1 /\ options chart2 = VRef r2 /\ r1 <> r2 /\
    prop h2 (VRef r1) "series" = prop h0 (VRef o) "series" /\
    prop h2 (VRef r2) "series" = prop h0 (VRef o) "series" /\
    forall k, prop h2 (VRef o) k = prop h0 (VRef o) k.
Proof.
  intros Hpre Ha. pose proof Hpre as
    [Hh0 Hdo Hoptions Ho Hdo_nn Hcr_nn Hmt Hmtf Hd Hfuel Hfuel2].
  destruct (mapChart_run fuel defaultOptions a b c h0 o kd m0 d)
    as (chart1 & h1 & Hcall1 & Hrun1); try done.
  pose proof (mapChart_pre_again _ _ _ _ _ _ _ _ _ _ _ _ Hpre Ha Hrun1) as
    [Hh1 Hdo1 Hoptions1 Ho1 Hdo_nn1 Hcr_nn1 Hmt1 Hmtf1 Hd1 _ _].
  set (s := default VUndefined (m0 !! "series")) in *.
  destruct (mapChart_run fuel defaultOptions a b c h1 o kd (<["series" := s]> m0) d)
    as (chart2 & h2 & Hcall2 & Hrun2); try done.
  destruct (run_chart _ _ _ _ _ _ _ _ _ _ _ Hrun1) as (r1 & R1 & Hr1 & E1 & Hlook1).
  destruct (run_chart _ _ _ _ _ _ _ _ _ _ _ Hrun2) as (r2 & R2 & Hr2 & E2 & Hlook2).
  destruct (run_series_set _ _ _ _ _ _ _ _ _ _ _ Ho1 Hrun2) as [Hother2 Hself2].
  destruct (run_series_set _ _ _ _ _ _ _ _ _ _ _ Ho Hrun1) as [Hother1 Hself1].
  pose proof (lookup_lt_Some _ _ _ Ho) as Hon.
  pose proof (lookup_lt_Some _ _ _ Hlook1) as Hr1lt.
  rewrite lookup_insert_eq in Hlook2. simpl in Hlook2. fold s in Hlook1.
  exists chart1, h1, chart2, h2, r1, r2.
  split; [exact Hcall1|]. split; [exact Hcall2|].
  split; [rewrite E1; by destruct (hasRenderToArg h0 a)|].
  split; [rewrite E2; by destruct (hasRenderToArg h1 a)|].
  split; [lia|].
  assert (Es : prop h0 (VRef o) "series" = s).
  { unfold prop, own_props. by rewrite Ho. }
  rewrite Es. split; [|split].
  - unfold prop, own_props. rewrite (Hother2 _ _ Hlook1) by lia. simpl.
    by rewrite lookup_insert_eq.
  - unfold prop, own_props. rewrite Hlook2. simpl. by rewrite lookup_insert_eq.
  - intros k. unfold prop, own_props.
    rewrite (Hself2 _ _ Ho1), Ho. simpl. rewrite lookup_insert_eq. simpl.
    destruct (decide (k = "series")) as [->|Hk].
    + by rewrite lookup_insert_eq.
    + by rewrite !lookup_insert_ne.
Qed.

Lemma mapChart_again_witness :
  exists chart1 h1 chart2 h2 r1 r2,
    mapChart 5 Demo.defaultOptions (VRef 2) VUndefined VUndefined Demo.store
      = Ok (chart1, h1) /\
    mapChart 5 Demo.defaultOptions (VRef 2) VUndefined VUndefined h1
      = Ok (chart2, h2) /\
    options chart1 = VRef r1 /\ options chart2 = VRef r2 /\ r1 <> r2 /\
    prop h2 (VRef r1) "series" = prop Demo.store (VRef 2) "series" /\
    prop h2 (VRef r2) "series" = prop Demo.store (VRef 2) "series" /\
    forall k, prop h2 (VRef 2) k = prop Demo.store (VRef 2) k.
Proof.
  apply (mapChart_again 5 Demo.defaultOptions (VRef 2) VUndefined
           VUndefined Demo.store 2 Plain Demo.userOptions 1).
  - split; try (vm_compute; reflexivity); lia.
  - reflexivity.
Defined.

(** X13: what [mapChart] leaves of the user's options object: the object
    it was, of the same kind and with the same properties, [series]
    written once more.  Options that had a [series] are exactly what they
    were; options that had none have got one, an own property [series]
    with the value [undefined]. *)
Theorem mapChart_own_series fuel defaultOptions a b c h0 o kd m0 d :
  mapChart_pre fuel defaultOptions a b h0 o kd m0 d ->
  exists chart h',
    mapChart fuel defaultOptions a b c h0 = Ok (chart, h') /\
    h' !! o = Some (Obj kd (match m0 !! "series" with
                            | Some _ => m0
                            | None => <["series" := VUndefined]> m0
                            end)).
Proof.
  intros [Hh0 Hdo Hoptions Ho Hdo_nn Hcr_nn Hmt Hmtf Hd Hfuel Hfuel2].
  destruct (mapChart_run fuel defaultOptions a b c h0 o kd m0 d)
    as (chart & h' & Hcall & Hrun); try done.
  exists chart, h'. split; [exact Hcall|].
  destruct (run_series_set _ _ _ _ _ _ _ _ _ _ _ Ho Hrun) as [_ Hself].
  rewrite (Hself _ _ Ho).
  destruct (m0 !! "series") as [v|] eqn:Hv; [|done].
  simpl. by rewrite insert_id.
Qed.

Lemma mapChart_own_series_witness :
  exists chart h',
    mapChart 5 Demo.defaultOptions (VRef 3) VUndefined VUndefined Demo.store
      = Ok (chart, h') /\
    h' !! 3 = Some (Obj Plain (match Demo.chartOptions !! "series" with
                               | Some _ => Demo.chartOptions
                               | None => <["series" := VUndefined]> Demo.chartOptions
                               end)).
Proof.
  apply (mapChart_own_series 5 Demo.defaultOptions (VRef 3) VUndefined
           VUndefined Demo.store 3 Plain Demo.chartOptions 1).
  split; try (vm_compute; reflexivity); lia.
Defined.

(** ** The namespace and the export *)

Module ExportFacts.

Import Js Store StoreFacts MonadFacts ExtendFacts MapSpec RunFacts MapChartFacts.

Lemma alloc_run ob h : alloc ob h = Ok (VRef (length h), h ++ [ob]).
Proof. reflexivity. Qed.

Lemma lookup_insert_alloc (h : heap) l ob ob' :
  l < length h -> (<[l := ob]> h ++ [ob']) !! l = Some ob.
Proof.
  intros Hl. apply lookup_app_l_Some. by apply list_lookup_insert_eq.
Qed.

Lemma init_maps_run (H : loc) kd (m : gmap string value) h :
  h !! H = Some (Obj kd m) ->
  init_maps (VRef H) h =
  Ok (tt, <[H := Obj kd (<["maps" := VRef (length h)]> m)]> (h ++ [Obj Plain ∅])).
Proof.
  intros HH. unfold init_maps. rewrite (bind_run _ _ _ _ _ (literal_run [] h)).
  apply set_prop_run. by apply lookup_app_l_Some.
Qed.

End ExportFacts.

Import Js Store StoreFacts MonadFacts ExtendFacts MapSpec RunFacts MapChartFacts.
Import ExportFacts.

(** X14: what loading the module leaves in the namespace and in its
    export.  The export's [maps] is the registry object of the namespace
    itself, new and without entries, and its [mapChart] and [splitPath] are
    the functions of the namespace, [Map] being [mapChart] under a second
    name.  So a map stored in the registry through the namespace is read
    through the export; but the export does not follow when the namespace
    is given another registry.  The other properties of the namespace stay
    as they are. *)
Theorem module_exports (H : loc) (kd : kind) (m : gmap string value) (h : heap) :
  h !! H = Some (Obj kd m) ->
  exists mapModule h' registry,
    load_exports (VRef H) h = Ok (mapModule, h') /\
    prop h' (VRef H) "maps" = VRef registry /\
    prop h' mapModule "maps" = VRef registry /\
    h !! registry = None /\ h' !! registry = Some (Obj Plain ∅) /\
    prop h' mapModule "mapChart" = prop h' (VRef H) "mapChart" /\
    prop h' (VRef H) "Map" = prop h' (VRef H) "mapChart" /\
    prop h' mapModule "splitPath" = prop h' (VRef H) "splitPath" /\
    (forall name data h'',
       set_prop (prop h' (VRef H) "maps") name data h' = Ok (tt, h'') ->
       get_path h'' mapModule ["maps"; name] = data) /\
    (forall other h'',
       set_prop (VRef H) "maps" other h' = Ok (tt, h'') ->
       prop h'' mapModule "maps" = VRef registry) /\
    (forall k, k ∉ ["splitPath"; "maps"; "mapChart"; "Map"] ->
       prop h' (VRef H) k = prop h (VRef H) k).
Proof.
  intros HH. pose proof (lookup_lt_Some _ _ _ HH) as Hlt.
  unfold load_exports.
  rewrite (bind_run _ _ _ _ _ (alloc_run _ h)).
  set (h1 := h ++ _).
  assert (H1 : h1 !! H = Some (Obj kd m)) by by apply lookup_app_l_Some.
  rewrite (bind_run _ _ _ _ _ (set_prop_run H "splitPath" _ h1 kd m H1)).
  set (m2 := <["splitPath" := _]> m). set (h2 := <[H := _]> h1).
  assert (Hlen1 : length h1 = S (length h)) by (unfold h1; rewrite length_app; simpl; lia).
  assert (Hlen2 : length h2 = S (length h)) by (unfold h2; by rewrite length_insert).
  assert (H2 : h2 !! H = Some (Obj kd m2)).
  { apply list_lookup_insert_eq. lia. }
  rewrite (bind_run _ _ _ _ _ (init_maps_run H kd m2 h2 H2)).
  set (h3 := h2 ++ _).
  set (m4 := <["maps" := _]> m2). set (h4 := <[H := _]> h3).
  assert (Hlen3 : length h3 = S (S (length h))) by (unfold h3; rewrite length_app; simpl; lia).
  assert (Hlen4 : length h4 = S (S (length h))) by (unfold h4; by rewrite length_insert).
  assert (H4 : h4 !! H = Some (Obj kd m4)).
  { apply list_lookup_insert_eq. lia. }
  rewrite (bind_run _ _ _ _ _ (alloc_run _ h4)).
  set (h5 := h4 ++ _).
  assert (H5 : h5 !! H = Some (Obj kd m4)) by by apply lookup_app_l_Some.
  rewrite (bind_run _ _ _ _ _ (set_prop_run H "mapChart" _ h5 kd m4 H5)).
  set (m6 := <["mapChart" := _]> m4). set (h6 := <[H := _]> h5).
  assert (Hlen5 : length h5 = S (S (S (length h)))) by (unfold h5; rewrite length_app; simpl; lia).
  assert (Hlen6 : length h6 = S (S (S (length h)))) by (unfold h6; by rewrite length_insert).
  assert (H6 : h6 !! H = Some (Obj kd m6)).
  { apply list_lookup_insert_eq. lia. }
  rewrite (bind_run _ _ _ _ _ (set_prop_run H "Map" _ h6 kd m6 H6)).
  set (m7 := <["Map" := _]> m6). set (h7 := <[H := _]> h6).
  assert (Hlen7 : length h7 = S (S (S (length h)))) by (unfold h7; by rewrite length_insert).
  assert (H7 : h7 !! H = Some (Obj kd m7)).
  { apply list_lookup_insert_eq. lia. }
  rewrite (bind_run _ _ _ _ _ (get_prop_run (VRef H) "maps" h7 eq_refl)).
  assert (Emaps : prop h7 (VRef H) "maps" = VRef (length h2)).
  { unfold prop. rewrite (own_props_at _ _ _ _ H7). unfold m7, m6, m4.
    rewrite !lookup_insert_ne by done. by rewrite lookup_insert_eq. }
  rewrite Emaps, literal_run.
  set (E := Obj Plain _). set (h8 := h7 ++ [E]).
  assert (H8 : h8 !! H = Some (Obj kd m7)) by by apply lookup_app_l_Some.
  assert (HE : h8 !! length h7 = Some E) by apply lookup_alloc.
  assert (Hreg : h8 !! length h2 = Some (Obj Plain ∅)).
  { apply lookup_app_l_Some. unfold h7, h6.
    rewrite !list_lookup_insert_ne by lia.
    apply lookup_app_l_Some. unfold h4. rewrite list_lookup_insert_ne by lia.
    apply lookup_alloc. }
  exists (VRef (length h7)), h8, (length h2).
  split; [done|].
  assert (EH : prop h8 (VRef H) "maps" = VRef (length h2)).
  { unfold prop. rewrite (own_props_at _ _ _ _ H8). unfold m7, m6, m4.
    rewrite !lookup_insert_ne by done. by rewrite lookup_insert_eq. }
  assert (EM : prop h8 (VRef (length h7)) "maps" = VRef (length h2)).
  { unfold prop. by rewrite (own_props_at _ _ _ _ HE). }
  split; [exact EH|]. split; [exact EM|].
  split; [apply lookup_ge_None; lia|]. split; [exact Hreg|].
  split; [|split; [|split; [|split; [|split]]]].
  - unfold prop. rewrite (own_props_at _ _ _ _ HE), (own_props_at _ _ _ _ H8).
    unfold m7, m6. rewrite lookup_insert_ne by done.
    by rewrite lookup_insert_eq.
  - unfold prop. rewrite (own_props_at _ _ _ _ H8). unfold m7, m6.
    rewrite lookup_insert_eq, lookup_insert_ne by done.
    by rewrite lookup_insert_eq.
  - unfold prop. rewrite (own_props_at _ _ _ _ HE), (own_props_at _ _ _ _ H8).
    unfold m7, m6, m4, m2. rewrite !lookup_insert_ne by done.
    by rewrite lookup_insert_eq.
  - intros name data h''. rewrite EH.
    rewrite (set_prop_run _ name data h8 _ _ Hreg). intros [= <-].
    assert (Hne : length h2 <> length h7) by lia.
    simpl. unfold prop at 2, own_props.
    rewrite list_lookup_insert_ne, HE by done.
    change (props E !! "maps") with (Some (VRef (length h2))). simpl.
    unfold prop, own_props.
    rewrite list_lookup_insert_eq by (by eapply lookup_lt_Some).
    simpl. by rewrite lookup_insert_eq.
  - intros other h''. rewrite (set_prop_run _ "maps" other h8 _ _ H8).
    intros [= <-]. unfold prop, own_props.
    rewrite list_lookup_insert_ne, HE by lia. done.
  - intros k Hk. unfold prop.
    rewrite (own_props_at _ _ _ _ H8), (own_props_at _ _ _ _ HH).
    unfold m7, m6, m4, m2.
    rewrite !lookup_insert_ne; [done|set_solver..].
Qed.

Lemma module_exports_witness :
  exists mapModule h' registry,
    load_exports Demo.Highcharts Demo.page = Ok (mapModule, h') /\
    prop h' (VRef 0) "maps" = VRef registry /\
    prop h' mapModule "maps" = VRef registry /\
    Demo.page !! registry = None /\ h' !! registry = Some (Obj Plain ∅) /\
    prop h' mapModule "mapChart" = prop h' (VRef 0) "mapChart" /\
    prop h' (VRef 0) "Map" = prop h' (VRef 0) "mapChart" /\
    prop h' mapModule "splitPath" = prop h' (VRef 0) "splitPath" /\
    (forall name data h'',
       set_prop (prop h' (VRef 0) "maps") name data h' = Ok (tt, h'') ->
       get_path h'' mapModule ["maps"; name] = data) /\
    (forall other h'',
       set_prop (VRef 0) "maps" other h' = Ok (tt, h'') ->
       prop h'' mapModule "maps" = VRef registry) /\
    (forall k, k ∉ ["splitPath"; "maps"; "mapChart"; "Map"] ->
       prop h' (VRef 0) k = prop Demo.page (VRef 0) k).
Proof.
  apply (module_exports 0 Plain ∅ Demo.page). reflexivity.
Defined.
